(** * Illarion server: world tick, monster phase and proximity messaging

    A shallow embedding of [src/World.cpp] and [src/WorldIMPLTalk.cpp].

    The world is a record that is passed from statement to statement.  What
    leaves the world (log lines, statistic timers, network sends, script hooks
    and calls of character methods whose bodies live in other translation
    units) is appended to the world's event list, in the order in which it
    happens.

    Constants, methods, tables and scripts that are declared in headers
    outside these two files are fields of the records [Tuning] and
    [Collaborators]; every function below is translated for all values of
    those fields.  A method of a character is a function on that character:
    what a script or a command does to the rest of the world is outside the
    embedding.  What the operating system hands to a tick (the clocks, the
    spawn timer, the random draws) is the record [Env]. *)

From Stdlib Require Import ZArith List String Ascii Bool Lia.
Local Open Scope string_scope.
Import ListNotations.
Local Open Scope list_scope.
Local Open Scope Z_scope.

(** ** Machine integers *)

Module Mach.

(** The value of [x] stored in an unsigned object of [w] bits. *)
Definition wrap (w x : Z) : Z := x mod 2 ^ w.

(** The value of [x] stored in a signed (two's complement) object of [w] bits. *)
Definition signed (w x : Z) : Z :=
  let u := wrap w x in
  if u <? 2 ^ (w - 1) then u else u - 2 ^ w.

Definition ulong : Z -> Z := wrap 64.
Definition uint16 : Z -> Z := wrap 16.
Definition int32 : Z -> Z := signed 32.

(** The signed integer types a counter declared in a header may have. *)
Inductive int_type : Type := t_short | t_int | t_long.

Definition bits (t : int_type) : Z :=
  match t with t_short => 16 | t_int => 32 | t_long => 64 end.

Definition to_int (t : int_type) (x : Z) : Z := signed (bits t) x.

Definition fits (t : int_type) (x : Z) : Prop :=
  - 2 ^ (bits t - 1) <= x < 2 ^ (bits t - 1).

End Mach.

(** ** Tiles, directions and ranges *)

Record position : Type := mkPos { px : Z; py : Z; pz : Z }.

Definition position_eqb (a b : position) : bool :=
  (px a =? px b) && (py a =? py b) && (pz a =? pz b).

(** The eight planar values of [direction] that [World::checkMonsters] names. *)
Inductive direction : Type :=
| dir_north | dir_northeast | dir_east | dir_southeast
| dir_south | dir_southwest | dir_west | dir_northwest.

Record Range : Type := mkRange { radius : Z; zRadius : Z }.

Definition set_radius (r : Z) (range : Range) : Range :=
  {| radius := r; zRadius := zRadius range |}.
Definition set_zRadius (r : Z) (range : Range) : Range :=
  {| radius := radius range; zRadius := r |}.

(** ** Characters *)

Inductive character_type : Type := player | monster | npc.

Definition character_type_eqb (a b : character_type) : bool :=
  match a, b with
  | player, player | monster, monster | npc, npc => true
  | _, _ => false
  end.

Inductive talk_type : Type := tt_say | tt_whisper | tt_yell.

(** What every character has, whatever its kind: the getters [getId],
    [getType], [getPosition], [isAlive] and [getActiveLanguage]. *)
Record Character : Type := mkCharacter {
  getId : Z;
  getType : character_type;
  getPosition : position;
  isAlive : bool;
  getActiveLanguage : Z
}.

Record Item : Type := mkItem { item_getId : Z }.

Inductive slot : Type := LEFT_TOOL | RIGHT_TOOL.

Record Player : Type := mkPlayer {
  p_base : Character;
  online : bool;            (* Connection->online *)
  lastkeepalive : Z
}.

Record Monster : Type := mkMonster {
  m_base : Character;
  getMonsterType : Z;
  getSpawn : option nat;    (* SpawnPoint*: a place in SpawnList, or nullptr *)
  getOnRoute : bool;
  lastTargetSeen : bool;
  lastTargetPosition : position;
  enemyid : Z;
  enemytype : character_type;
  GetItemAt : slot -> Item
}.

Record NPC : Type := mkNPC {
  n_base : Character;
  hasScript : bool;         (* getScript() is not null *)
  n_getOnRoute : bool
}.

(** A character kind is anything with a [Character] inside. *)
Class CharacterKind (A : Type) : Type := { base : A -> Character }.

#[export] Instance Character_kind : CharacterKind Character := {| base := fun c => c |}.
#[export] Instance Player_kind : CharacterKind Player := {| base := p_base |}.
#[export] Instance Monster_kind : CharacterKind Monster := {| base := m_base |}.
#[export] Instance NPC_kind : CharacterKind NPC := {| base := n_base |}.

Definition set_onRoute (b : bool) (m : Monster) : Monster :=
  {| m_base := m_base m; getMonsterType := getMonsterType m; getSpawn := getSpawn m;
     getOnRoute := b; lastTargetSeen := lastTargetSeen m;
     lastTargetPosition := lastTargetPosition m; enemyid := enemyid m;
     enemytype := enemytype m; GetItemAt := GetItemAt m |}.

Definition setSpawn (s : option nat) (m : Monster) : Monster :=
  {| m_base := m_base m; getMonsterType := getMonsterType m; getSpawn := s;
     getOnRoute := getOnRoute m; lastTargetSeen := lastTargetSeen m;
     lastTargetPosition := lastTargetPosition m; enemyid := enemyid m;
     enemytype := enemytype m; GetItemAt := GetItemAt m |}.

Definition set_lastTargetSeen (b : bool) (m : Monster) : Monster :=
  {| m_base := m_base m; getMonsterType := getMonsterType m; getSpawn := getSpawn m;
     getOnRoute := getOnRoute m; lastTargetSeen := b;
     lastTargetPosition := lastTargetPosition m; enemyid := enemyid m;
     enemytype := enemytype m; GetItemAt := GetItemAt m |}.

Definition set_lastTargetPosition (p : position) (m : Monster) : Monster :=
  {| m_base := m_base m; getMonsterType := getMonsterType m; getSpawn := getSpawn m;
     getOnRoute := getOnRoute m; lastTargetSeen := lastTargetSeen m;
     lastTargetPosition := p; enemyid := enemyid m;
     enemytype := enemytype m; GetItemAt := GetItemAt m |}.

Definition set_enemy (i : Z) (t : character_type) (m : Monster) : Monster :=
  {| m_base := m_base m; getMonsterType := getMonsterType m; getSpawn := getSpawn m;
     getOnRoute := getOnRoute m; lastTargetSeen := lastTargetSeen m;
     lastTargetPosition := lastTargetPosition m; enemyid := i;
     enemytype := t; GetItemAt := GetItemAt m |}.

Definition n_set_onRoute (b : bool) (n : NPC) : NPC :=
  {| n_base := n_base n; hasScript := hasScript n; n_getOnRoute := b |}.

(** ** Spawn points *)

Record SpawnPoint : Type := mkSpawnPoint {
  sp_pos : position;
  getRange : Z;              (* wander boundary *)
  sp_spawnrange : Z;
  sp_minspawntime : Z;
  sp_maxspawntime : Z;
  sp_spawnall : bool;
  sp_monsters : list Z       (* what [load] read for this spawn point *)
}.

Definition get_x (s : SpawnPoint) : Z := px (sp_pos s).
Definition get_y (s : SpawnPoint) : Z := py (sp_pos s).

(** ** The character registries

    The container [CharacterContainer] of the registries [Players], [Monsters]
    and [Npc] is declared outside the two files; the functions here stand for
    its members.  A registry is kept as the list of its entries under their
    identities, in the order of insertion. *)

Definition registry (A : Type) : Type := list (Z * A).

Section Registry.
Context {A : Type} `{CharacterKind A}.

Definition reg_ids (r : registry A) : list Z := map fst r.
Definition reg_values (r : registry A) : list A := map snd r.

(** The entity a pointer into the registry points to. *)
Fixpoint reg_find (i : Z) (r : registry A) : option A :=
  match r with
  | [] => None
  | (k, a) :: r' => if k =? i then Some a else reg_find i r'
  end.

Definition reg_has (i : Z) (r : registry A) : bool :=
  existsb (fun k => k =? i) (reg_ids r).

(** Modelled from the spec: [CharacterContainer::insert] is missing.  Section
    4.1, "insert(entity)": the entity is entered under its identity; an
    identity is entered once. *)
Definition reg_insert (a : A) (r : registry A) : registry A :=
  if reg_has (getId (base a)) r then r else r ++ [(getId (base a), a)].

(** Modelled from the spec: [CharacterContainer::erase] is missing.  Section
    4.1, "erase(id)": removal by identity. *)
Definition reg_erase (i : Z) (r : registry A) : registry A :=
  filter (fun e => negb (fst e =? i)) r.

(** Writing through a pointer to the entity registered under [i]. *)
Definition reg_store (i : Z) (a : A) (r : registry A) : registry A :=
  map (fun e => if fst e =? i then (fst e, a) else e) r.

(** Modelled from the spec: the range test of the registry's queries is
    missing.  Section 3, "Range: a query shape - radius (planar) and z-radius
    (vertical tile-layer reach)".  The planar distance is a parameter; the
    vertical part is the difference of the tile layers. *)
Definition inRange (planar : position -> position -> Z)
    (pos : position) (range : Range) (p : position) : bool :=
  (planar pos p <=? radius range) && (Z.abs (pz p - pz pos) <=? zRadius range).

(** Modelled from the spec: [CharacterContainer::findAllCharactersInRangeOf]
    is missing.  Section 4.1, "findAllInRange(position, Range) -> sequence of
    entity, alive-only or all": here, all. *)
Definition findAllCharactersInRangeOf (planar : position -> position -> Z)
    (r : registry A) (pos : position) (range : Range) : list A :=
  filter (fun a => inRange planar pos range (getPosition (base a))) (reg_values r).

(** Modelled from the spec: [CharacterContainer::findAllAliveCharactersInRangeOf]
    is missing.  Section 4.1, as above: here, alive-only. *)
Definition findAllAliveCharactersInRangeOf (planar : position -> position -> Z)
    (r : registry A) (pos : position) (range : Range) : list A :=
  filter (fun a => isAlive (base a))
         (findAllCharactersInRangeOf planar r pos range).

End Registry.

(** ** What leaves the world *)

Inductive LogLevel : Type := debug | info | notice | error | alert.

Inductive Event : Type :=
| Log (lvl : LogLevel) (msg : string)
| startTimer (name : string)
| stopTimer (name : string)
| IncreaseActionPoints (who : character_type) (id n : Z)
| IncreaseFightPoints (who : character_type) (id n : Z)
| ReceiveText (who : character_type) (id : Z) (tt : talk_type) (text : string) (from : Z)
| ShutdownSend (id : Z)                     (* LogOutTC(UNSTABLECONNECTION) *)
| RemovePlayerFromField (pos : position)    (* fieldAt(pos).removePlayer() *)
| OnLogout (id : Z)                         (* logoutScript->onLogout *)
| LogOutPlayer (id : Z)                     (* getLogOutPlayers().push_back *)
| SendRemoveChar (id : Z) (pos : position)
| Hook (name : string) (id : Z)             (* a script hook was invoked *)
| CharacterAttacks (id : Z)
| MoveStep (id : Z) (dir : direction)       (* monster.move(dir) *)
| KillMonster (id : Z)
| SendCharacterMove (id : Z)                (* NORMALMOVE to visible players *)
| SendSpin (id : Z).

(** ** The world *)

Record World : Type := mkWorld {
  timeStart : Z;
  usedAP : Z;
  ap : Z;
  Players : registry Player;
  Monsters : registry Monster;
  Npc : registry NPC;
  newMonsters : list Monster;
  SpawnList : list SpawnPoint;
  events : list Event
}.

Definition set_usedAP (v : Z) (w : World) : World :=
  {| timeStart := timeStart w; usedAP := v; ap := ap w; Players := Players w;
     Monsters := Monsters w; Npc := Npc w; newMonsters := newMonsters w;
     SpawnList := SpawnList w; events := events w |}.

Definition set_ap (v : Z) (w : World) : World :=
  {| timeStart := timeStart w; usedAP := usedAP w; ap := v; Players := Players w;
     Monsters := Monsters w; Npc := Npc w; newMonsters := newMonsters w;
     SpawnList := SpawnList w; events := events w |}.

Definition set_Players (v : registry Player) (w : World) : World :=
  {| timeStart := timeStart w; usedAP := usedAP w; ap := ap w; Players := v;
     Monsters := Monsters w; Npc := Npc w; newMonsters := newMonsters w;
     SpawnList := SpawnList w; events := events w |}.

Definition set_Monsters (v : registry Monster) (w : World) : World :=
  {| timeStart := timeStart w; usedAP := usedAP w; ap := ap w; Players := Players w;
     Monsters := v; Npc := Npc w; newMonsters := newMonsters w;
     SpawnList := SpawnList w; events := events w |}.

Definition set_Npc (v : registry NPC) (w : World) : World :=
  {| timeStart := timeStart w; usedAP := usedAP w; ap := ap w; Players := Players w;
     Monsters := Monsters w; Npc := v; newMonsters := newMonsters w;
     SpawnList := SpawnList w; events := events w |}.

Definition set_newMonsters (v : list Monster) (w : World) : World :=
  {| timeStart := timeStart w; usedAP := usedAP w; ap := ap w; Players := Players w;
     Monsters := Monsters w; Npc := Npc w; newMonsters := v;
     SpawnList := SpawnList w; events := events w |}.

Definition set_SpawnList (v : list SpawnPoint) (w : World) : World :=
  {| timeStart := timeStart w; usedAP := usedAP w; ap := ap w; Players := Players w;
     Monsters := Monsters w; Npc := Npc w; newMonsters := newMonsters w;
     SpawnList := v; events := events w |}.

(** Events are kept in the order in which they happen. *)
Definition emit (es : list Event) (w : World) : World :=
  {| timeStart := timeStart w; usedAP := usedAP w; ap := ap w; Players := Players w;
     Monsters := Monsters w; Npc := Npc w; newMonsters := newMonsters w;
     SpawnList := SpawnList w; events := events w ++ es |}.

(** ** Constants and types declared in headers *)

Record Tuning : Type := mkTuning {
  MIN_AP_UPDATE : Z;
  CLIENT_TIMEOUT : Z;
  MONSTERVIEWRANGE : Z;
  MAXHPS : Z;
  ap_type : Mach.int_type;      (* the declared type of the member [ap] *)
  Range_init : Range            (* a [Range] as its declaration leaves it *)
}.

(** ** Methods, tables and scripts defined in other translation units *)

Record CharacterMethods (A : Type) : Type := mkCharacterMethods {
  increaseActionPoints : Z -> A -> A;
  increaseFightPoints : Z -> A -> A;
  checkEffects : A -> A;        (* effects.checkEffects() *)
  canAct : A -> bool;
  makeMove : A -> bool * A      (* waypoints.makeMove() *)
}.
Arguments increaseActionPoints {A}.
Arguments increaseFightPoints {A}.
Arguments checkEffects {A}.
Arguments canAct {A}.
Arguments makeMove {A}.

Record MonsterScript : Type := mkMonsterScript {
  (* the value returned, and the target the call leaves in its last argument *)
  setTarget : Monster -> list Character -> bool * option Character;
  enemyNear : Monster -> Character -> bool;
  enemyOnSight : Monster -> Character -> bool
}.

Record MonsterStruct : Type := mkMonsterStruct {
  script : option MonsterScript;
  canselfheal : bool
}.

Record WeaponStruct : Type := mkWeaponStruct { ws_Range : Z }.

Record PlayerChatScript : Type := mkPlayerChatScript {
  beforeSendText : Character -> talk_type -> string -> string;
  (* the call's value is dropped by the caller; this is the text the call
     leaves in the message it was handed *)
  beforeReceiveText : Player -> talk_type -> string -> Character -> string
}.

Record Collaborators : Type := mkCollaborators {
  planar : position -> position -> Z;
  position_move : direction -> position -> position;   (* position::move *)
  of_player : CharacterMethods Player;
  workoutCommands : Player -> Player;
  checkFightMode : Player -> Player;
  checkAction : Player -> Player;            (* ltAction->checkAction() *)
  of_monster : CharacterMethods Monster;
  canAttack : Monster -> bool;
  canFight : Monster -> bool;
  turn : position -> Monster -> Monster;
  performStep : position -> Monster -> Monster;
  move : direction -> Monster -> Monster;
  heal : Monster -> Monster;
  Monster_remove : Monster -> Monster;
  of_npc : CharacterMethods NPC;
  increaseAttrib : string -> Z -> NPC -> NPC;
  monsterDescriptions : Z -> option MonsterStruct;
  WeaponItems : Z -> option WeaponStruct;
  standardFightingScript : Monster -> list Character -> option Character;
  characterAttacks : Monster -> bool;
  SpawnPoint_spawn : SpawnPoint -> SpawnPoint * list Monster;
  SpawnPoint_load : Z -> SpawnPoint -> SpawnPoint;
  deleteAllLostNPC : registry NPC -> registry NPC;
  playerChatScript : option PlayerChatScript;
  nls : Player -> string -> string -> string;
  alterSpokenMessage : NPC -> string -> Z -> string;
  getLanguageSkill : NPC -> Z -> Z
}.

(** What indexing [monsterDescriptions] gives for a type the table does not hold. *)
Definition no_MonsterStruct : MonsterStruct :=
  {| script := None; canselfheal := false |}.

(** ** What one tick reads from outside *)

Record timeb : Type := mkTimeb { tb_time : Z; millitm : Z }.

Record Env : Type := mkEnv {
  now : timeb;                       (* ftime(&now) *)
  tempkeepalive : Z;                 (* time(&tempkeepalive) *)
  monstertimer_next : bool;          (* monstertimer.next() *)
  isSpawnEnabled : bool;
  uniform_1_25 : Z -> Z;             (* the draw made for the monster with this id *)
  uniform_0_7 : Z -> direction
}.

(** ** [World::World] *)

(** The constructor leaves [ap] as it finds it: [ap0]. *)
Definition World_new (starttime : Z) (ap0 : Z) : World :=
  {| timeStart := Mach.ulong (starttime * 1000);
     usedAP := 0; ap := ap0;
     Players := []; Monsters := []; Npc := [];
     newMonsters := []; SpawnList := []; events := [] |}.

(** ** [World::getTargetsInRange] *)

Definition getTargetsInRange (T : Tuning) (C : Collaborators)
    (w : World) (pos : position) (r : Z) : list Character :=
  let range := Range_init T in
  let range := set_radius r range in
  let range := set_zRadius 0 range in
  let players := findAllAliveCharactersInRangeOf (planar C) (Players w) pos range in
  let monsters := findAllAliveCharactersInRangeOf (planar C) (Monsters w) pos range in
  let targets := map base players in
  targets ++
  map base (filter (fun m => negb (position_eqb pos (getPosition (base m)))) monsters).

(** ** [WorldIMPLTalk.cpp] *)

Definition languagePrefix (Language : Z) : string :=
  if Language =? 0 then ""
  else if Language =? 1 then "[Human] "
  else if Language =? 2 then "[Dwarf] "
  else if Language =? 3 then "[Elf] "
  else if Language =? 4 then "[Lizard] "
  else if Language =? 5 then "[Orc] "
  else if Language =? 6 then "[Halfing] "
  else if Language =? 7 then "[Ancient] "
  else "".

Definition getTalkRange (T : Tuning) (tt : talk_type) : Range :=
  let range := Range_init T in
  match tt with
  | tt_say => set_radius 14 range
  | tt_whisper => set_zRadius 0 (set_radius 2 range)
  | tt_yell => set_radius 30 range
  end.

Section Talk.
Variable T : Tuning.
Variable C : Collaborators.

(** One turn of the loop over the players in range: the message variable
    [tempMessage] is carried from one listener to the next. *)
Definition tellPlayer (german english : string) (is_same is_action : bool)
    (prefix : string) (tt : talk_type) (cc : Character)
    (st : string * list Event) (p : Player) : string * list Event :=
  let '(tempMessage, out) := st in
  if negb is_action && negb (getId (base p) =? getId cc) then
    let tempMessage :=
      match is_same, playerChatScript C with
      | true, Some s => beforeReceiveText s p tt tempMessage cc
      | _, _ => nls C p german english
      end in
    (tempMessage,
     out ++ [ReceiveText player (getId (base p)) tt (append prefix tempMessage) (getId cc)])
  else
    let tempMessage := if negb is_same then nls C p german english else tempMessage in
    if is_action then
      (tempMessage, out ++ [ReceiveText player (getId (base p)) tt tempMessage (getId cc)])
    else
      (tempMessage,
       out ++ [ReceiveText player (getId (base p)) tt (append prefix tempMessage) (getId cc)]).

Definition tellNpc (english prefix : string) (tt : talk_type) (cc : Character)
    (n : NPC) : Event :=
  let tempMessage :=
    append prefix (alterSpokenMessage C n english (getLanguageSkill C n (getActiveLanguage cc))) in
  ReceiveText npc (getId (base n)) tt tempMessage (getId cc).

Definition tellMonster (english : string) (tt : talk_type) (cc : Character)
    (m : Monster) : Event :=
  ReceiveText monster (getId (base m)) tt english (getId cc).

(** [sendMessageToAllCharsInRange(german, english, tt, cc)].  [is_same] is the
    comparison [&german == &english] of the two references: it holds when both
    name one string object, as in the overload that passes [message] twice. *)
Definition sendMessageToAllCharsInRange (german english : string) (is_same : bool)
    (tt : talk_type) (cc : Character) (w : World) : World :=
  let range := getTalkRange T tt in
  let tempMessage := "" in
  let is_action := String.eqb (substring 0 3 german) "#me" in
  let tempMessage :=
    if negb is_action then
      match character_type_eqb (getType cc) player && is_same, playerChatScript C with
      | true, Some s => beforeSendText s cc tt german
      | _, _ => tempMessage
      end
    else tempMessage in
  let prefix := languagePrefix (getActiveLanguage cc) in
  let '(_, told) :=
    fold_left (tellPlayer german english is_same is_action prefix tt cc)
      (findAllCharactersInRangeOf (planar C) (Players w) (getPosition cc) range)
      (tempMessage, []) in
  let w := emit told w in
  if character_type_eqb (getType cc) player then
    let w := emit (map (tellNpc english prefix tt cc)
                     (findAllCharactersInRangeOf (planar C) (Npc w) (getPosition cc) range)) w in
    emit (map (tellMonster english tt cc)
            (findAllCharactersInRangeOf (planar C) (Monsters w) (getPosition cc) range)) w
  else w.

(** The overload [sendMessageToAllCharsInRange(message, tt, cc)]. *)
Definition sendMessageToAllCharsInRange1 (message : string)
    (tt : talk_type) (cc : Character) (w : World) : World :=
  sendMessageToAllCharsInRange message message true tt cc w.

End Talk.

(** ** The spawn point table and [World::initRespawns] *)

Module Database.

(** What a statement of the [try] block comes to: a value, or a thrown
    [std::exception] with its [what()]. *)
Inductive outcome (A : Type) : Type :=
| ok (a : A)
| thrown (what : string).
Arguments ok {A} a.
Arguments thrown {A} what.

Definition bind {A B : Type} (o : outcome A) (k : A -> outcome B) : outcome B :=
  match o with
  | ok a => k a
  | thrown what => thrown what
  end.

(** A field of a result row: an integer, or NULL. *)
Definition field : Type := option Z.

(** [row[c].as<T>()]: the value when it is there and a [T] can hold it; the
    conversion throws on a null field and on a value out of the range of [T]. *)
Definition as_unsigned (w : Z) (f : field) : outcome Z :=
  match f with
  | Some v => if (0 <=? v) && (v <? 2 ^ w) then ok v else thrown "conversion overflow"
  | None => thrown "attempt to read null field"
  end.

Definition as_signed (w : Z) (f : field) : outcome Z :=
  match f with
  | Some v =>
      if (- 2 ^ (w - 1) <=? v) && (v <? 2 ^ (w - 1)) then ok v
      else thrown "conversion overflow"
  | None => thrown "attempt to read null field"
  end.

Definition as_bool (f : option bool) : outcome bool :=
  match f with
  | Some b => ok b
  | None => thrown "attempt to read null field"
  end.

Record row : Type := mkRow {
  spp_id : field;
  spp_x : field;
  spp_y : field;
  spp_z : field;
  spp_range : field;
  spp_spawnrange : field;
  spp_minspawntime : field;
  spp_maxspawntime : field;
  spp_spawnall : option bool
}.

End Database.

Notation "x <- o ;; k" := (Database.bind o (fun x => k))
  (at level 61, o at next level, right associativity).

Definition is_empty {A : Type} (l : list A) : bool :=
  match l with [] => true | _ :: _ => false end.

Section Respawns.
Variable C : Collaborators.

(** The conversions of one turn of the loop over the result rows, up to the
    constructed [SpawnPoint]. *)
Definition readRow (r : Database.row) : Database.outcome (Z * SpawnPoint) :=
  spawnId <- Database.as_unsigned 32 (Database.spp_id r) ;;
  x <- Database.as_signed 16 (Database.spp_x r) ;;
  y <- Database.as_signed 16 (Database.spp_y r) ;;
  z <- Database.as_signed 16 (Database.spp_z r) ;;
  range <- Database.as_signed 32 (Database.spp_range r) ;;
  spawnrange <- Database.as_unsigned 16 (Database.spp_spawnrange r) ;;
  minspawntime <- Database.as_unsigned 16 (Database.spp_minspawntime r) ;;
  maxspawntime <- Database.as_unsigned 16 (Database.spp_maxspawntime r) ;;
  spawnall <- Database.as_bool (Database.spp_spawnall r) ;;
  Database.ok (spawnId,
    {| sp_pos := mkPos x y z; getRange := range; sp_spawnrange := spawnrange;
       sp_minspawntime := minspawntime; sp_maxspawntime := maxspawntime;
       sp_spawnall := spawnall; sp_monsters := [] |}).

(** The loop over the rows.  It stops at the first row that throws and hands
    the exception to the [catch] of [initRespawns]. *)
Fixpoint loadRows (rows : list Database.row) (w : World) : World * option string :=
  match rows with
  | [] => (w, None)
  | r :: rest =>
      match readRow r with
      | Database.thrown what => (w, Some what)
      | Database.ok (spawnId, newSpawn) =>
          let w := emit [Log debug "load spawnpoint"] w in
          let newSpawn := SpawnPoint_load C spawnId newSpawn in
          let w := set_SpawnList (SpawnList w ++ [newSpawn]) w in
          let w := emit [Log debug "added spawnpoint"] w in
          loadRows rest w
      end
  end.

(** [query] is what [query.execute()] comes to. *)
Definition initRespawns (query : Database.outcome (list Database.row)) (w : World)
    : bool * World :=
  let w := set_Monsters
             (map (fun e => (fst e, setSpawn None (Monster_remove C (snd e)))) (Monsters w)) w in
  let w := set_SpawnList [] w in
  match query with
  | Database.ok results =>
      if negb (is_empty results) then
        match loadRows results w with
        | (w, None) => (true, w)
        | (w, Some what) =>
            (false, emit [Log error (append "got exception in load SpawnPoints: " what)] w)
        end
      else (false, w)
  | Database.thrown what =>
      (false, emit [Log error (append "got exception in load SpawnPoints: " what)] w)
  end.

End Respawns.

(** ** [World::checkPlayers] *)

Section Phases.
Variable T : Tuning.
Variable C : Collaborators.
Variable env : Env.

(** The lambda of [Players.for_each]: the player it leaves, what it emits, and
    whether it put the player on [lostPlayers]. *)
Definition checkPlayer (budget : Z) (i : Z) (pl : Player) : Player * list Event * bool :=
  if online pl then
    let temptime := Mach.int32 (tempkeepalive env - lastkeepalive pl) in
    if (temptime >=? 0) && (temptime <=? CLIENT_TIMEOUT T) then
      let pl := increaseActionPoints (of_player C) budget pl in
      let pl := increaseFightPoints (of_player C) budget pl in
      let pl := workoutCommands C pl in
      let pl := checkFightMode C pl in
      let pl := checkAction C pl in
      let pl := checkEffects (of_player C) pl in
      (pl, [IncreaseActionPoints player i budget; IncreaseFightPoints player i budget],
       false)
    else
      (pl, [Log info "timed out"; ShutdownSend (getId (base pl))], false)
  else
    let pos := getPosition (base pl) in
    (pl, [Log info "is offline"; RemovePlayerFromField pos; Log info "logout of";
          OnLogout (getId (base pl)); LogOutPlayer (getId (base pl));
          SendRemoveChar (getId (base pl)) pos], true).

Definition visitPlayer (st : World * list Z) (i : Z) : World * list Z :=
  let '(w, lostPlayers) := st in
  match reg_find i (Players w) with
  | Some pl =>
      let '(pl', out, lost) := checkPlayer (ap w) i pl in
      (emit out (set_Players (reg_store i pl' (Players w)) w),
       if lost then lostPlayers ++ [getId (base pl')] else lostPlayers)
  | None => st
  end.

Definition checkPlayers (w : World) : World :=
  let '(w, lostPlayers) := fold_left visitPlayer (reg_ids (Players w)) (w, []) in
  fold_left (fun w i => set_Players (reg_erase i (Players w)) w) lostPlayers w.

(** ** [World::checkMonsters] *)

(** Lines 368-377 and 544-553: the reach of the monster's weapon. *)
Definition weaponRange (mon : Monster) : Z :=
  let itl := GetItemAt mon LEFT_TOOL in
  let itr := GetItemAt mon RIGHT_TOOL in
  let range := 1 in
  match WeaponItems C (item_getId itr) with
  | Some ws => Mach.uint16 (ws_Range ws)
  | None =>
      match WeaponItems C (item_getId itl) with
      | Some ws => Mach.uint16 (ws_Range ws)
      | None => range
      end
  end.

(** The species script chooses the target when there is one and it says so;
    else the standard fighting script does. *)
Definition chooseTarget (monStruct : MonsterStruct) (mon : Monster)
    (temp : list Character) : option Character :=
  match script monStruct with
  | Some s =>
      let '(chosen, target) := setTarget s mon temp in
      if chosen then target else standardFightingScript C mon temp
  | None => standardFightingScript C mon temp
  end.

Definition mirror_x (dir : direction) : direction :=
  match dir with
  | dir_northeast => dir_northwest
  | dir_east => dir_west
  | dir_southeast => dir_southwest
  | dir_southwest => dir_southeast
  | dir_west => dir_east
  | dir_northwest => dir_northeast
  | _ => dir
  end.

Definition mirror_y (dir : direction) : direction :=
  match dir with
  | dir_north => dir_south
  | dir_northeast => dir_southeast
  | dir_southeast => dir_northeast
  | dir_south => dir_north
  | dir_southwest => dir_northwest
  | dir_northwest => dir_southwest
  | _ => dir
  end.

(** Lines 467-533: the drawn direction, mirrored at the border of the spawn
    area. *)
Definition stayInSpawnArea (spawn : SpawnPoint) (mon : Monster) (dir : direction)
    : direction :=
  let newpos := getPosition (base mon) in
  let newpos := position_move C dir newpos in
  let yoffs := get_y spawn - py newpos in
  let xoffs := get_x spawn - px newpos in
  let dir := if Z.abs xoffs >? getRange spawn then mirror_x dir else dir in
  let dir := if Z.abs yoffs >? getRange spawn then mirror_y dir else dir in
  dir.

Section MonsterTurn.
(** The world when the monster registered under [i] is visited. *)
Variable w : World.
Variable i : Z.

(** The registry holds the visited monster itself: what the lambda has done to
    it so far is what a query sees. *)
Definition seenWith (mon : Monster) : World :=
  set_Monsters (reg_store i mon (Monsters w)) w.

(** Lines 379-412.  [None]: the lambda returned; [Some has_attacked] else.
    [World::characterAttacks] (line 407) lives in another file: the embedding
    keeps that it was called and what it answers; what the attack does to its
    target is outside the embedding. *)
Definition attackInReach (foundMonster : bool) (monStruct : MonsterStruct)
    (mon : Monster) : Monster * list Event * option bool :=
  let temp := getTargetsInRange T C (seenWith mon) (getPosition (base mon)) (weaponRange mon) in
  if negb (is_empty temp) && canAttack C mon then
    match chooseTarget monStruct mon temp with
    | Some target =>
        let mon := set_enemy (getId target) (getType target) mon in
        let mon := set_lastTargetPosition (getPosition target) mon in
        let mon := set_lastTargetSeen true mon in
        let '(out, stop) :=
          if foundMonster then
            match script monStruct with
            | Some s => ([Hook "enemyNear" i], enemyNear s mon target)
            | None => ([], false)
            end
          else ([Log error "cant find a monster id for checking the script!"], false) in
        if stop then (mon, out, None)
        else
          let mon := turn C (getPosition target) mon in
          if canFight C mon then
            (mon, out ++ [CharacterAttacks i], Some (characterAttacks C mon))
          else (mon, out, Some true)
    | None => (mon, [], Some false)
    end
  else (mon, [], Some false).

(** Lines 415-447.  [None]: the lambda returned; [Some makeRandomStep] else. *)
Definition lookAround (foundMonster : bool) (monStruct : MonsterStruct)
    (mon : Monster) : Monster * list Event * option bool :=
  let temp :=
    getTargetsInRange T C (seenWith mon) (getPosition (base mon)) (MONSTERVIEWRANGE T) in
  if negb (is_empty temp) && canAttack C mon then
    match chooseTarget monStruct mon temp with
    | Some target =>
        let mon := set_lastTargetSeen true mon in
        let mon := set_lastTargetPosition (getPosition target) mon in
        if foundMonster then
          let '(out, stop) :=
            match script monStruct with
            | Some s => ([Hook "enemyOnSight" i], enemyOnSight s mon target)
            | None => ([], false)
            end in
          if stop then (mon, out, None)
          else (performStep C (getPosition target) mon, out, Some false)
        else
          (mon, [Log notice "cant find the monster id for calling a script!"], Some true)
    | None => (mon, [], Some true)
    end
  else if lastTargetSeen mon then
    (performStep C (lastTargetPosition mon) mon, [], Some false)
  else (mon, [], Some true).

(** Lines 449-541. *)
Definition randomStep (mon : Monster) : Monster * list Event :=
  let tempr := uniform_1_25 env i in
  let hasDefinition :=
    match monsterDescriptions C (getMonsterType mon) with Some _ => true | None => false end in
  let monsterdef :=
    match monsterDescriptions C (getMonsterType mon) with
    | Some d => d
    | None => no_MonsterStruct
    end in
  let out :=
    if negb hasDefinition
    then [Log error "Data for Healing not Found for monsterrace"] else [] in
  if (tempr <=? 5) && hasDefinition && canselfheal monsterdef then
    (heal C mon, out)
  else
    let spawn :=
      match getSpawn mon with
      | Some n => nth_error (SpawnList w) n
      | None => None
      end in
    let dir := uniform_0_7 env i in
    let dir :=
      match spawn with
      | Some spawn => stayInSpawnArea spawn mon dir
      | None => dir
      end in
    let mon := move C dir mon in
    let mon := increaseActionPoints (of_monster C) (-20) mon in
    (mon, out ++ [MoveStep i dir; IncreaseActionPoints monster i (-20)]).

(** Lines 544-597: a monster on a route. *)
Definition followRoute (foundMonster : bool) (monStruct : MonsterStruct)
    (mon : Monster) : Monster * list Event :=
  let scripted :=
    foundMonster && match script monStruct with Some _ => true | None => false end in
  let temp := getTargetsInRange T C (seenWith mon) (getPosition (base mon)) (weaponRange mon) in
  let out1 :=
    if negb (is_empty temp) then
      match chooseTarget monStruct mon temp with
      | Some target =>
          if scripted then [Hook "enemyNear" i]
          else [Log error "cant find a monster id for checking the script!"]
      | None => []
      end
    else [] in
  let temp2 :=
    getTargetsInRange T C (seenWith mon) (getPosition (base mon)) (MONSTERVIEWRANGE T) in
  let out2 :=
    if negb (is_empty temp2) then
      match chooseTarget monStruct mon temp2 with
      | Some target => if scripted then [Hook "enemyOnSight" i] else []
      | None => []
      end
    else [] in
  let '(moved, mon) := makeMove (of_monster C) mon in
  if negb moved then
    let mon := set_onRoute false mon in
    (mon, out1 ++ out2 ++
          (if scripted then [Hook "abortRoute" i]
           else [Log notice "cant find the monster id for calling a script!"]))
  else (mon, out1 ++ out2).

(** The lambda of [Monsters.for_each]: the monster it leaves, what it emits,
    and whether it put the monster on [deadMonsters]. *)
Definition checkMonster (mon : Monster) : Monster * list Event * bool :=
  if isAlive (base mon) then
    let mon := increaseActionPoints (of_monster C) (ap w) mon in
    let mon := increaseFightPoints (of_monster C) (ap w) mon in
    let mon := checkEffects (of_monster C) mon in
    let out := [IncreaseActionPoints monster i (ap w); IncreaseFightPoints monster i (ap w)] in
    let foundMonster :=
      match monsterDescriptions C (getMonsterType mon) with Some _ => true | None => false end in
    let monStruct :=
      match monsterDescriptions C (getMonsterType mon) with
      | Some d => d
      | None => no_MonsterStruct
      end in
    if canAct (of_monster C) mon then
      if negb (getOnRoute mon) then
        let mon :=
          if position_eqb (getPosition (base mon)) (lastTargetPosition mon)
          then set_lastTargetSeen false mon else mon in
        match attackInReach foundMonster monStruct mon with
        | (mon, out1, None) => (mon, out ++ out1, false)
        | (mon, out1, Some has_attacked) =>
            if negb has_attacked then
              match lookAround foundMonster monStruct mon with
              | (mon, out2, None) => (mon, out ++ out1 ++ out2, false)
              | (mon, out2, Some makeRandomStep) =>
                  if makeRandomStep then
                    let '(mon, out3) := randomStep mon in
                    (mon, out ++ out1 ++ out2 ++ out3, false)
                  else (mon, out ++ out1 ++ out2, false)
              end
            else (mon, out ++ out1, false)
        end
      else
        let '(mon, out1) := followRoute foundMonster monStruct mon in
        (mon, out ++ out1, false)
    else (mon, out, false)
  else (mon, [], true).

End MonsterTurn.

Definition visitMonster (st : World * list Z) (i : Z) : World * list Z :=
  let '(w, deadMonsters) := st in
  match reg_find i (Monsters w) with
  | Some mon =>
      let '(mon', out, dead) := checkMonster w i mon in
      (emit out (set_Monsters (reg_store i mon' (Monsters w)) w),
       if dead then deadMonsters ++ [getId (base mon')] else deadMonsters)
  | None => st
  end.

(** Modelled from the spec: [SpawnPoint::spawn] is missing.  Section 4.2,
    "Newly created monsters are buffered and only committed into the Spatial
    Entity Registry at a defined join point in the monster tick phase": what a
    spawn point creates is appended to [newMonsters]. *)
Definition spawnOne (st : World * list SpawnPoint) (spawn : SpawnPoint)
    : World * list SpawnPoint :=
  let '(w, done) := st in
  let '(spawn', created) := SpawnPoint_spawn C spawn in
  (set_newMonsters (newMonsters w ++ created) w, done ++ [spawn']).

(** Lines 335-343. *)
Definition spawnStage (w : World) : World :=
  if monstertimer_next env then
    if isSpawnEnabled env then
      let '(w, spawns) := fold_left spawnOne (SpawnList w) (w, []) in
      set_SpawnList spawns w
    else emit [Log info "World::checkMonsters() spawning disabled!"] w
  else w.

(** Lines 345-347. *)
Definition lowerAP (w : World) : World :=
  if ap w >? 1 then set_ap (ap w - 1) w else w.

(** Lines 349-603: the pass over the registry; the dead are only collected. *)
Definition monsterPass (w : World) : World * list Z :=
  fold_left visitMonster (reg_ids (Monsters w)) (w, []).

(** Modelled from the spec: [World::killMonster] is missing.  Section 4.4,
    step 4, "Dead monsters are collected and removed from the registry in a
    deferred pass": the monster is erased from the registry. *)
Definition killMonster (w : World) (i : Z) : World :=
  emit [KillMonster i] (set_Monsters (reg_erase i (Monsters w)) w).

(** Lines 605-607. *)
Definition buryDead (st : World * list Z) : World :=
  let '(w, deadMonsters) := st in fold_left killMonster deadMonsters w.

(** One turn of the loop of lines 609-622. *)
Definition commitOne (w : World) (mon : Monster) : World :=
  let w := set_Monsters (reg_insert mon (Monsters w)) w in
  let w := emit [SendCharacterMove (getId (base mon))] w in
  let monsterType := getMonsterType mon in
  match monsterDescriptions C monsterType with
  | Some monStruct =>
      match script monStruct with
      | Some _ => emit [Hook "onSpawn" (getId (base mon))] w
      | None => w
      end
  | None => w
  end.

(** Lines 609-624: the join point. *)
Definition commitNewMonsters (w : World) : World :=
  let w := fold_left commitOne (newMonsters w) w in
  set_newMonsters [] w.

Definition checkMonsters (w : World) : World :=
  commitNewMonsters (buryDead (monsterPass (lowerAP (spawnStage w)))).

(** ** [World::checkNPC] *)

Definition checkOneNPC (budget : Z) (i : Z) (n : NPC) : NPC * list Event :=
  if isAlive (base n) then
    let n := increaseActionPoints (of_npc C) budget n in
    let n := checkEffects (of_npc C) n in
    let out := [IncreaseActionPoints npc i budget] in
    if canAct (of_npc C) n && hasScript n then
      let out := out ++ [Hook "nextCycle" i] in
      if n_getOnRoute n then
        let '(moved, n) := makeMove (of_npc C) n in
        if negb moved then (n_set_onRoute false n, out ++ [Hook "abortRoute" i])
        else (n, out)
      else (n, out)
    else (n, out)
  else
    (increaseAttrib C "hitpoints" (MAXHPS T) n, [SendSpin i]).

Definition visitNPC (w : World) (i : Z) : World :=
  match reg_find i (Npc w) with
  | Some n =>
      let '(n', out) := checkOneNPC (ap w) i n in
      emit out (set_Npc (reg_store i n' (Npc w)) w)
  | None => w
  end.

Definition checkNPC (w : World) : World :=
  let w := set_Npc (deleteAllLostNPC C (Npc w)) w in
  fold_left visitNPC (reg_ids (Npc w)) w.

(** ** [World::turntheworld] *)

Definition timeNow : Z :=
  Mach.ulong (tb_time (now env) * 1000 + millitm (now env)).

(** The value line 181 assigns to [ap]. *)
Definition available (w : World) : Z :=
  Mach.to_int (ap_type T)
    (Mach.ulong
       (Mach.ulong (timeNow / MIN_AP_UPDATE T - timeStart w / MIN_AP_UPDATE T) - usedAP w)).

Definition turntheworld (w : World) : World :=
  let w := set_ap (available w) w in
  if ap w >? 0 then
    let w := set_usedAP (Mach.ulong (usedAP w + ap w)) w in
    let w := emit [startTimer "cycle player"] w in
    let w := checkPlayers w in
    let w := emit [stopTimer "cycle player"] w in
    let w := emit [startTimer "cycle monster"] w in
    let w := checkMonsters w in
    let w := emit [stopTimer "cycle monster"] w in
    let w := emit [startTimer "cycle npc"] w in
    let w := checkNPC w in
    let w := emit [stopTimer "cycle npc"] w in
    w
  else w.

End Phases.

(** ** Compass components of a direction *)

(** [1] for a direction with an eastern part, [-1] for one with a western
    part, [0] for north and south. *)
Definition eastward (dir : direction) : Z :=
  match dir with
  | dir_northeast | dir_east | dir_southeast => 1
  | dir_northwest | dir_west | dir_southwest => -1
  | dir_north | dir_south => 0
  end.

(** [1] for a direction with a northern part, [-1] for one with a southern
    part, [0] for east and west. *)
Definition northward (dir : direction) : Z :=
  match dir with
  | dir_north | dir_northeast | dir_northwest => 1
  | dir_south | dir_southeast | dir_southwest => -1
  | dir_east | dir_west => 0
  end.

(** ** The target query as section 4.4 of the specification words it

    "live players plus live monsters of a different allegiance at a different
    position": [allegiance] says which side a monster is on, [querier] is the
    monster that asks. *)
Definition targetsOfOtherAllegiance (allegiance : Monster -> Z) (querier : Monster)
    (T : Tuning) (C : Collaborators) (w : World) (pos : position) (r : Z)
    : list Character :=
  let range := mkRange r 0 in
  map base (findAllAliveCharactersInRangeOf (planar C) (Players w) pos range) ++
  map base
    (filter (fun m => negb (allegiance m =? allegiance querier)
                      && negb (position_eqb pos (getPosition (base m))))
       (findAllAliveCharactersInRangeOf (planar C) (Monsters w) pos range)).

(** ** A small world to run the functions on *)

Module Sample.

Definition tuning : Tuning :=
  {| MIN_AP_UPDATE := 100; CLIENT_TIMEOUT := 50; MONSTERVIEWRANGE := 11;
     MAXHPS := 10000; ap_type := Mach.t_short;
     Range_init := {| radius := 0; zRadius := 2 |} |}.

Definition idle (A : Type) : CharacterMethods A :=
  {| increaseActionPoints := fun _ a => a;
     increaseFightPoints := fun _ a => a;
     checkEffects := fun a => a;
     canAct := fun _ => true;
     makeMove := fun a => (true, a) |}.

(** Tiles are counted along both axes; north is towards smaller [y]. *)
Definition chebyshev (a b : position) : Z :=
  Z.max (Z.abs (px b - px a)) (Z.abs (py b - py a)).

Definition step (dir : direction) (p : position) : position :=
  mkPos (px p + eastward dir) (py p - northward dir) (pz p).

Definition bare (i : Z) (t : character_type) (p : position) (alive : bool) : Character :=
  {| getId := i; getType := t; getPosition := p; isAlive := alive; getActiveLanguage := 0 |}.

Definition wolf (i : Z) (p : position) (spawn : option nat) (left right : Z) : Monster :=
  {| m_base := bare i monster p true; getMonsterType := 3; getSpawn := spawn;
     getOnRoute := false; lastTargetSeen := false; lastTargetPosition := mkPos 99 99 0;
     enemyid := 0; enemytype := player;
     GetItemAt := fun s => match s with LEFT_TOOL => mkItem left | RIGHT_TOOL => mkItem right end |}.

(** Item 7 is a bow that reaches six tiles, item 8 a sword. *)
Definition weapons (i : Z) : option WeaponStruct :=
  if i =? 7 then Some {| ws_Range := 6 |}
  else if i =? 8 then Some {| ws_Range := 1 |}
  else None.

(** Every spawn point creates one wolf on its own tile; the wolf's identity is
    taken from the spawn point's column. *)
Definition breed (s : SpawnPoint) : SpawnPoint * list Monster :=
  (s, [wolf (1000 + get_x s) (sp_pos s) None 0 0]).

Definition collaborators : Collaborators :=
  {| planar := chebyshev;
     position_move := step;
     of_player := idle Player;
     workoutCommands := fun p => p;
     checkFightMode := fun p => p;
     checkAction := fun p => p;
     of_monster := idle Monster;
     canAttack := fun _ => true;
     canFight := fun _ => true;
     turn := fun _ m => m;
     performStep := fun _ m => m;
     move := fun _ m => m;
     heal := fun m => m;
     Monster_remove := fun m => m;
     of_npc := idle NPC;
     increaseAttrib := fun _ _ n => n;
     monsterDescriptions := fun _ => Some {| script := None; canselfheal := false |};
     WeaponItems := weapons;
     standardFightingScript := fun _ temp => hd_error temp;
     characterAttacks := fun _ => true;
     SpawnPoint_spawn := breed;
     SpawnPoint_load := fun _ s => s;
     deleteAllLostNPC := fun r => r;
     playerChatScript := None;
     nls := fun _ german english => english;
     alterSpokenMessage := fun _ text _ => text;
     getLanguageSkill := fun _ _ => 100 |}.

Definition origin : position := mkPos 0 0 0.

Definition den : SpawnPoint :=
  {| sp_pos := origin; getRange := 2; sp_spawnrange := 1; sp_minspawntime := 1;
     sp_maxspawntime := 2; sp_spawnall := false; sp_monsters := [3] |}.

Definition empty : World :=
  {| timeStart := 5000; usedAP := 0; ap := 0; Players := []; Monsters := []; Npc := [];
     newMonsters := []; SpawnList := [den]; events := [] |}.

(** Two wolves of one species, one tile apart. *)
Definition pack : World :=
  set_Monsters [(1, wolf 1 origin (Some 0%nat) 0 0); (2, wolf 2 (mkPos 1 0 0) (Some 0%nat) 0 0)]
    empty.

End Sample.

(** ** Reading a range test as a proposition *)

Definition withinReach (C : Collaborators) (pos : position) (range : Range)
    (p : position) : Prop :=
  planar C pos p <= radius range /\ Z.abs (pz p - pz pos) <= zRadius range.

Module Fixture.

Definition env : Env :=
  {| now := mkTimeb 5 230; tempkeepalive := 100; monstertimer_next := true;
     isSpawnEnabled := true; uniform_1_25 := fun _ => 25;
     uniform_0_7 := fun _ => dir_east |}.

(** A wolf on the eastern border of its spawn area. *)
Definition rim_wolf : Monster := Sample.wolf 4 (mkPos 2 0 0) (Some 0%nat) 0 0.

Definition rim : World := set_Monsters [(4, rim_wolf)] Sample.empty.

End Fixture.

Module Square.

(** A player, a scripted NPC and two wolves within a few tiles of each other. *)
Definition guard : NPC :=
  {| n_base := Sample.bare 20 npc (mkPos 1 0 0) true; hasScript := true;
     n_getOnRoute := false |}.

Definition walker : Player :=
  {| p_base := Sample.bare 10 player Sample.origin true; online := true;
     lastkeepalive := 90 |}.

Definition howler : Monster := Sample.wolf 30 (mkPos 0 1 0) None 0 0.

Definition world : World :=
  set_Npc [(20, guard)]
    (set_Players [(10, walker)]
       (set_Monsters [(30, howler); (31, Sample.wolf 31 (mkPos 1 1 0) None 0 0)]
          Sample.empty)).

End Square.

(** ** Reading the rows of the spawn point table, said directly *)

(** The spawn points of the rows before the first row that throws. *)
Fixpoint spawnsRead (C : Collaborators) (rows : list Database.row) : list SpawnPoint :=
  match rows with
  | [] => []
  | r :: rest =>
      match readRow r with
      | Database.ok (spawnId, newSpawn) =>
          SpawnPoint_load C spawnId newSpawn :: spawnsRead C rest
      | Database.thrown _ => []
      end
  end.

(** What the first row that throws, if any, throws. *)
Fixpoint firstFault (rows : list Database.row) : option string :=
  match rows with
  | [] => None
  | r :: rest =>
      match readRow r with
      | Database.ok _ => firstFault rest
      | Database.thrown what => Some what
      end
  end.

Module Table.

Definition good : Database.row :=
  {| Database.spp_id := Some 1; Database.spp_x := Some 10; Database.spp_y := Some 20;
     Database.spp_z := Some 0; Database.spp_range := Some 5;
     Database.spp_spawnrange := Some 2; Database.spp_minspawntime := Some 1;
     Database.spp_maxspawntime := Some 3; Database.spp_spawnall := Some false |}.

(** A row whose x column does not fit the 16-bit coordinate. *)
Definition bad : Database.row :=
  {| Database.spp_id := Some 2; Database.spp_x := Some 40000; Database.spp_y := Some 20;
     Database.spp_z := Some 0; Database.spp_range := Some 5;
     Database.spp_spawnrange := Some 2; Database.spp_minspawntime := Some 1;
     Database.spp_maxspawntime := Some 3; Database.spp_spawnall := Some false |}.

Definition lair : SpawnPoint :=
  {| sp_pos := mkPos 10 20 0; getRange := 5; sp_spawnrange := 2; sp_minspawntime := 1;
     sp_maxspawntime := 3; sp_spawnall := false; sp_monsters := [] |}.

End Table.

(** ** Stretches of a phase *)

(** [w'] comes from [w] by a stretch of a phase: the clock, the consumed
    counter and the budget are as before, and the events emitted on the way
    all satisfy [P], which may depend on the budget. *)
Definition advances (P : Z -> Event -> Prop) (w w' : World) : Prop :=
  timeStart w' = timeStart w /\ usedAP w' = usedAP w /\ ap w' = ap w /\
  exists E, events w' = events w ++ E /\ Forall (P (ap w)) E.

(** The events of a phase that grant points: a grant to a character of kind
    [who] of the amount [b], or the wander penalty of line 539. *)
Definition grantFor (who : character_type) (b : Z) (e : Event) : Prop :=
  match e with
  | IncreaseActionPoints who' _ n => who' = who /\ (n = b \/ (who = monster /\ n = -20))
  | IncreaseFightPoints who' _ n => who' = who /\ n = b
  | startTimer _ | stopTimer _ => False
  | _ => True
  end.

(** The events emitted between the worlds [w] and [w']. *)
Definition since (w w' : World) : list Event :=
  skipn (List.length (events w)) (events w').

(** ** The points of the monster phase before the join point

    The worlds that [checkMonsters] passes through before line 609: at entry,
    after the spawn points were run, after the budget was lowered, after each
    visit of the pass over the registry, and after each removal of a dead
    monster. *)
Inductive beforeCommit (T : Tuning) (C : Collaborators) (env : Env) (w : World)
    : World -> Prop :=
| at_entry : beforeCommit T C env w w
| at_spawned : beforeCommit T C env w (spawnStage C env w)
| at_lowered : beforeCommit T C env w (lowerAP (spawnStage C env w))
| at_visit (k : nat) :
    let w2 := lowerAP (spawnStage C env w) in
    beforeCommit T C env w
      (fst (fold_left (visitMonster T C env) (firstn k (reg_ids (Monsters w2))) (w2, [])))
| at_burial (k : nat) :
    let st := monsterPass T C env (lowerAP (spawnStage C env w)) in
    beforeCommit T C env w (fold_left killMonster (firstn k (snd st)) (fst st)).

(** ** Registries as the container keeps them *)

(** Every entry is registered under the identity of the character it holds. *)
Definition keyedById {A : Type} `{CharacterKind A} (r : registry A) : Prop :=
  forall k a, reg_find k r = Some a -> getId (base a) = k.

(** ** One visit of the player pass, read off the world the pass starts in *)

(** What the visit of the player registered under [k] emits. *)
Definition playerOut (T : Tuning) (C : Collaborators) (env : Env) (w : World) (k : Z)
    : list Event :=
  match reg_find k (Players w) with
  | Some p => snd (fst (checkPlayer T C env (ap w) k p))
  | None => []
  end.

(** What the visit of the player registered under [k] puts on [lostPlayers]. *)
Definition playerLost (T : Tuning) (C : Collaborators) (env : Env) (w : World) (k : Z)
    : list Z :=
  match reg_find k (Players w) with
  | Some p =>
      if snd (checkPlayer T C env (ap w) k p)
      then [getId (base (fst (fst (checkPlayer T C env (ap w) k p))))] else []
  | None => []
  end.

Module Lobby.

(** Three players: one inside the keep-alive window, one whose last
    keep-alive is 90 seconds old, one offline. *)
Definition player_at (i : Z) (p : position) (on : bool) (last : Z) : Player :=
  {| p_base := Sample.bare i player p true; online := on; lastkeepalive := last |}.

Definition world : World :=
  set_ap 2
    (set_Players [(10, player_at 10 Sample.origin true 90);
                  (11, player_at 11 (mkPos 1 0 0) true 10);
                  (12, player_at 12 (mkPos 2 0 0) false 95)]
       Sample.empty).

End Lobby.

(** Whether a player is inside the keep-alive window of line 216. *)
Definition inWindow (T : Tuning) (env : Env) (pl : Player) : Prop :=
  0 <= Mach.int32 (tempkeepalive env - lastkeepalive pl) <= CLIENT_TIMEOUT T.

(** What the visit of the NPC registered under [k] emits. *)
Definition npcOut (T : Tuning) (C : Collaborators) (w : World) (k : Z) : list Event :=
  match reg_find k (Npc w) with
  | Some n => snd (checkOneNPC T C (ap w) k n)
  | None => []
  end.

Module Yard.

(** A live NPC with a script and a dead one without. *)
Definition fallen : NPC :=
  {| n_base := Sample.bare 21 npc (mkPos 3 0 0) false; hasScript := false;
     n_getOnRoute := false |}.

Definition world : World :=
  set_ap 2 (set_Npc [(20, Square.guard); (21, fallen)] Sample.empty).

End Yard.

(** What the visit of the monster registered under [k] puts on
    [deadMonsters] (lines 354 and 601), [w] being the world that the visit
    finds. *)
Definition monsterDead (w : World) (k : Z) : list Z :=
  match reg_find k (Monsters w) with
  | Some m => if isAlive (base m) then [] else [getId (base m)]
  | None => []
  end.

(** The monsters that the pass over [ids] finds dead, from the world [w] on:
    each of them is judged in the world that the visits before its own have
    left. *)
Fixpoint foundDead (T : Tuning) (C : Collaborators) (env : Env) (w : World)
    (ids : list Z) : list Z :=
  match ids with
  | [] => []
  | k :: rest =>
      monsterDead w k ++ foundDead T C env (fst (visitMonster T C env (w, []) k)) rest
  end.

Module Graveyard.

(** A live wolf and a dead one. *)
Definition carcass : Monster :=
  {| m_base := Sample.bare 41 monster (mkPos 5 5 0) false; getMonsterType := 3;
     getSpawn := None; getOnRoute := false; lastTargetSeen := false;
     lastTargetPosition := mkPos 99 99 0; enemyid := 0; enemytype := player;
     GetItemAt := fun _ => mkItem 0 |}.

Definition world : World :=
  set_Monsters [(40, Sample.wolf 40 (mkPos 4 4 0) None 0 0); (41, carcass)] Sample.empty.

End Graveyard.

(** ** More of [WorldIMPLTalk.cpp] *)

Definition languageNumberToSkillName (languageNumber : Z) : string :=
  if languageNumber =? 0 then "common language"
  else if languageNumber =? 1 then "human language"
  else if languageNumber =? 2 then "dwarf language"
  else if languageNumber =? 3 then "elf language"
  else if languageNumber =? 4 then "lizard language"
  else if languageNumber =? 5 then "orc language"
  else if languageNumber =? 6 then "halfling language"
  else if languageNumber =? 7 then "ancient language"
  else "".

(** Who a text is delivered to, for the events that deliver one. *)
Definition receiver (e : Event) : option (character_type * Z) :=
  match e with
  | ReceiveText who i _ _ _ => Some (who, i)
  | _ => None
  end.

(** The text an event delivers. *)
Definition delivered (e : Event) : option string :=
  match e with
  | ReceiveText _ _ _ text _ => Some text
  | _ => None
  end.

(** ** [World::sendLanguageMessageToAllCharsInRange] *)

(** What the function reads of a character besides the fields of
    [Collaborators]: the language a player has chosen, and the two methods
    of [Character] that garble a text by a skill. *)
Record Speech : Type := mkSpeech {
  getPlayerLanguage : Player -> Z;
  speak : Character -> string -> Z -> string;      (* Character::alterSpokenMessage *)
  skill : Character -> Z -> Z                      (* Character::getLanguageSkill *)
}.

Definition sendLanguageMessageToAllCharsInRange (T : Tuning) (C : Collaborators)
    (S : Speech) (message : string) (tt : talk_type) (lang : Z) (cc : Character)
    (w : World) : World :=
  let range := getTalkRange T tt in
  let players := findAllCharactersInRangeOf (planar C) (Players w) (getPosition cc) range in
  let npcs := findAllCharactersInRangeOf (planar C) (Npc w) (getPosition cc) range in
  let monsters := findAllCharactersInRangeOf (planar C) (Monsters w) (getPosition cc) range in
  let spokenMessage := speak S cc message (skill S cc (getActiveLanguage cc)) in
  let toPlayers :=
    if String.eqb (substring 0 3 message) "#me" then
      flat_map
        (fun p : Player =>
           if getPlayerLanguage S p =? lang
           then [ReceiveText player (getId (base p)) tt message (getId cc)]
           else [])
        players
    else
      flat_map
        (fun p : Player =>
           if getPlayerLanguage S p =? lang then
             if negb (getId (base p) =? getId cc) then
               let tempMessage :=
                 append (languagePrefix (getActiveLanguage cc))
                   (speak S (base p) spokenMessage
                      (skill S (base p) (getActiveLanguage cc))) in
               [ReceiveText player (getId (base p)) tt tempMessage (getId cc)]
             else
               [ReceiveText player (getId (base p)) tt
                  (append (languagePrefix (getActiveLanguage cc)) message) (getId cc)]
           else [])
        players in
  let toOthers :=
    if character_type_eqb (getType cc) player then
      map (fun n : NPC =>
             let tempMessage :=
               append (languagePrefix (getActiveLanguage cc))
                 (speak S (base n) spokenMessage
                    (skill S (base n) (getActiveLanguage cc))) in
             ReceiveText npc (getId (base n)) tt tempMessage (getId cc))
          npcs
      ++ map (fun m : Monster => ReceiveText monster (getId (base m)) tt message (getId cc))
           monsters
    else [] in
  emit (toPlayers ++ toOthers) w.

(** ** [getNextIGDayTime] *)

(** Lines 696-702: what is left in [curr_unixtime], a [time_t], given the
    time read and the [tm_isdst] of its local time. *)
Definition nextIGDay (curr_unixtime tm_isdst : Z) : Z :=
  let curr_unixtime :=
    if tm_isdst =? 0 then curr_unixtime
    else Mach.to_int Mach.t_long (curr_unixtime + 3600) in
  let curr_unixtime := Mach.to_int Mach.t_long (curr_unixtime - 950742000) in
  let curr_unixtime :=
    Mach.to_int Mach.t_long (curr_unixtime - Z.rem curr_unixtime 28800) in
  Mach.to_int Mach.t_long (curr_unixtime + 28800).

(** Lines 704-709.  Both clocks count in one unit, [ticks] of them to the
    second, in 64 bits; [scheduler_ref] and [realtime_ref] are the readings of
    the steady clock and of the system clock. *)
Definition getNextIGDayTime (ticks curr_unixtime tm_isdst scheduler_ref realtime_ref : Z)
    : Z :=
  let from_time_t := Mach.to_int Mach.t_long (nextIGDay curr_unixtime tm_isdst * ticks) in
  let diff := Mach.to_int Mach.t_long (from_time_t - realtime_ref) in
  Mach.to_int Mach.t_long (scheduler_ref + diff).

(** ** [World::executeUserCommand] *)

(** The pattern of line 726 is matched against the whole input: an
    exclamation mark, a first group of one or more characters that are not
    spaces, an optional space, and an optional second group of any number of
    characters matched by the dot.  It is matched piece by piece and with the
    backtracking of the matcher: a greedy piece is tried at its longest
    first. *)

(** The dot matches every character but a line feed and a carriage return. *)
Definition line_terminator (c : ascii) : bool :=
  Ascii.eqb c "010"%char || Ascii.eqb c "013"%char.

(** The second group and the end of the pattern against all of [s]. *)
Fixpoint dot_star_end (s : string) : bool :=
  match s with
  | EmptyString => true
  | String c s' => negb (line_terminator c) && dot_star_end s'
  end.

(** The optional space and what follows it against all of [s]: what the
    second group captures. *)
Definition after_name (s : string) : option string :=
  match s with
  | String c s' =>
      if Ascii.eqb c " "%char && dot_star_end s' then Some s'
      else if dot_star_end s then Some s else None
  | EmptyString => Some EmptyString
  end.

(** The first group and what follows it against all of [s]: the two
    captures. *)
Fixpoint name_and_rest (s : string) : option (string * string) :=
  match s with
  | EmptyString => None
  | String c s' =>
      if Ascii.eqb c " "%char then None
      else
        match name_and_rest s' with
        | Some (name, rest) => Some (String c name, rest)
        | None =>
            match after_name s' with
            | Some rest => Some (String c EmptyString, rest)
            | None => None
            end
        end
  end.

Definition regex_match (input : string) : option (string * string) :=
  match input with
  | String c s => if Ascii.eqb c "!"%char then name_and_rest s else None
  | EmptyString => None
  end.

(** A command changes the world for a player and an argument string. *)
Definition CommandMap : Type := list (string * (Player -> string -> World -> World)).

Fixpoint find_command (name : string) (commands : CommandMap)
    : option (Player -> string -> World -> World) :=
  match commands with
  | [] => None
  | (key, command) :: rest =>
      if String.eqb key name then Some command else find_command name rest
  end.

Definition executeUserCommand (user : Player) (input : string) (commands : CommandMap)
    (w : World) : bool * World :=
  let found := false in
  match regex_match input with
  | Some (name, args) =>
      match find_command name commands with
      | Some command => (true, command user args w)
      | None => (found, w)
      end
  | None => (found, w)
  end.

(** No space in a string. *)
Fixpoint spaceless (s : string) : bool :=
  match s with
  | EmptyString => true
  | String c s' => negb (Ascii.eqb c " "%char) && spaceless s'
  end.

(** ** The ticks the scheduler makes *)

(** [turntheworld] is a recurring task (line 719): one call for each reading
    of the outside. *)
Definition ticks (T : Tuning) (C : Collaborators) (envs : list Env) (w : World) : World :=
  fold_left (fun w env => turntheworld T C env w) envs w.

(** The whole granularities between the start of the world and the clock. *)
Definition elapsedUnits (T : Tuning) (start : Z) (env : Env) : Z :=
  timeNow env / MIN_AP_UPDATE T - start / MIN_AP_UPDATE T.

(** The clock does not run backwards from tick to tick, and no gap between
    two ticks is wider than a budget can hold. *)
Fixpoint paced (T : Tuning) (start used : Z) (envs : list Env) : Prop :=
  match envs with
  | [] => True
  | env :: rest =>
      used <= elapsedUnits T start env /\
      Mach.fits (ap_type T) (elapsedUnits T start env - used) /\
      paced T start (elapsedUnits T start env) rest
  end.

(** ** Calls of [killMonster] *)

Definition killed (e : Event) : list Z :=
  match e with
  | KillMonster i => [i]
  | _ => []
  end.

(** ** What the turn of a monster emits *)

(** An event of the turn of the monster [i]: it grants points to [i], calls
    a script for [i], makes [i] attack or step, or writes to the log. *)
Definition turnOf (i : Z) (e : Event) : Prop :=
  match e with
  | IncreaseActionPoints who k _ | IncreaseFightPoints who k _ => who = monster /\ k = i
  | Hook _ k | CharacterAttacks k | MoveStep k _ => k = i
  | Log _ _ => True
  | _ => False
  end.

(** An event of lines 605-622: a dead monster is handed to [killMonster], or a
    new monster is announced and its script told. *)
Definition afterPass (e : Event) : Prop :=
  match e with
  | KillMonster _ | SendCharacterMove _ => True
  | Hook name _ => name = "onSpawn"
  | _ => False
  end.

(** * Properties *)

(** ** The functions on small inputs *)

Example signed_wraps : Mach.signed 16 40000 = -25536.
Proof. reflexivity. Qed.

Example languagePrefix_6 : languagePrefix 6 = "[Halfing] ".
Proof. reflexivity. Qed.

Example languagePrefix_8 : languagePrefix 8 = "".
Proof. reflexivity. Qed.

Example getTalkRange_whisper : getTalkRange Sample.tuning tt_whisper = mkRange 2 0.
Proof. reflexivity. Qed.

Example getTalkRange_yell : getTalkRange Sample.tuning tt_yell = mkRange 30 2.
Proof. reflexivity. Qed.

Example stayInSpawnArea_corner :
  stayInSpawnArea Sample.collaborators Sample.den
    (Sample.wolf 5 (mkPos 2 (-2) 0) (Some 0%nat) 0 0) dir_northeast = dir_southwest.
Proof. reflexivity. Qed.

Example stayInSpawnArea_inside :
  stayInSpawnArea Sample.collaborators Sample.den
    (Sample.wolf 5 (mkPos 1 1 0) (Some 0%nat) 0 0) dir_northeast = dir_northeast.
Proof. reflexivity. Qed.

Example available_after_230_ms :
  available Sample.tuning Fixture.env Sample.empty = 2.
Proof. reflexivity. Qed.

Example initRespawns_no_rows :
  fst (initRespawns Sample.collaborators (Database.ok []) Sample.empty) = false.
Proof. reflexivity. Qed.

Example initRespawns_one_row :
  let r := initRespawns Sample.collaborators (Database.ok [Table.good]) Sample.empty in
  fst r = true /\ SpawnList (snd r) = [Table.lair].
Proof. split; reflexivity. Qed.

(** ** Machine integers *)

Lemma wrap_small (w x : Z) : 0 <= x < 2 ^ w -> Mach.wrap w x = x.
Proof. intros Hx. unfold Mach.wrap. now apply Z.mod_small. Qed.

Lemma signed_small (w x : Z) :
  0 < w -> - 2 ^ (w - 1) <= x < 2 ^ (w - 1) -> Mach.signed w x = x.
Proof.
  intros Hw Hx. unfold Mach.signed, Mach.wrap.
  assert (Hpow : 2 ^ w = 2 * 2 ^ (w - 1)).
  { replace w with (Z.succ (w - 1)) at 1 by lia. apply Z.pow_succ_r. lia. }
  destruct (Z_lt_le_dec x 0) as [Hneg | Hpos].
  - assert (Hmod : x mod 2 ^ w = x + 2 ^ w).
    { symmetry. apply Z.mod_unique with (q := -1); lia. }
    rewrite Hmod.
    destruct (Z.ltb_spec (x + 2 ^ w) (2 ^ (w - 1))); lia.
  - rewrite Z.mod_small by lia.
    destruct (Z.ltb_spec x (2 ^ (w - 1))); lia.
Qed.

Lemma bits_pos (t : Mach.int_type) : 0 < Mach.bits t <= 64.
Proof. destruct t; simpl; lia. Qed.

Lemma to_int_fits (t : Mach.int_type) (x : Z) : Mach.fits t x -> Mach.to_int t x = x.
Proof.
  intros Hx. unfold Mach.to_int. apply signed_small; [apply bits_pos | exact Hx].
Qed.

(** ** The reach of a monster's weapon *)

(** C9.  The attack range of a monster is the range of the weapon-data entry of
    its right-tool item when there is one; else that of its left-tool item
    when there is one; else 1.  The table's ranges are taken to be values the
    16-bit variable [range] holds. *)
Theorem weaponRange_right_then_left_then_melee (C : Collaborators) (mon : Monster) :
  (forall i ws, WeaponItems C i = Some ws -> 0 <= ws_Range ws < 2 ^ 16) ->
  let right := WeaponItems C (item_getId (GetItemAt mon RIGHT_TOOL)) in
  let left := WeaponItems C (item_getId (GetItemAt mon LEFT_TOOL)) in
  (forall ws, right = Some ws -> weaponRange C mon = ws_Range ws) /\
  (right = None -> forall ws, left = Some ws -> weaponRange C mon = ws_Range ws) /\
  (right = None -> left = None -> weaponRange C mon = 1).
Proof.
  intros Htable right left. unfold weaponRange. fold right. fold left.
  repeat split.
  - intros ws Hr. rewrite Hr. apply wrap_small. apply (Htable _ _ Hr).
  - intros Hr ws Hl. rewrite Hr, Hl. apply wrap_small. apply (Htable _ _ Hl).
  - intros Hr Hl. now rewrite Hr, Hl.
Qed.

Lemma weaponRange_witness :
  (forall i ws, WeaponItems Sample.collaborators i = Some ws -> 0 <= ws_Range ws < 2 ^ 16) /\
  weaponRange Sample.collaborators (Sample.wolf 1 Sample.origin None 7 0) = 6 /\
  weaponRange Sample.collaborators (Sample.wolf 1 Sample.origin None 7 8) = 1 /\
  weaponRange Sample.collaborators (Sample.wolf 1 Sample.origin None 0 0) = 1.
Proof.
  assert (Htable : forall i ws,
             WeaponItems Sample.collaborators i = Some ws -> 0 <= ws_Range ws < 2 ^ 16).
  { intros i ws. simpl. unfold Sample.weapons.
    destruct (i =? 7); [intros [= <-]; simpl; lia |].
    destruct (i =? 8); [intros [= <-]; simpl; lia | discriminate]. }
  split; [exact Htable |].
  pose proof (weaponRange_right_then_left_then_melee Sample.collaborators
                (Sample.wolf 1 Sample.origin None 7 0) Htable) as [_ [Hleft _]].
  pose proof (weaponRange_right_then_left_then_melee Sample.collaborators
                (Sample.wolf 1 Sample.origin None 7 8) Htable) as [Hright _].
  pose proof (weaponRange_right_then_left_then_melee Sample.collaborators
                (Sample.wolf 1 Sample.origin None 0 0) Htable) as [_ [_ Hnone]].
  split; [| split].
  - exact (Hleft eq_refl _ eq_refl).
  - exact (Hright _ eq_refl).
  - exact (Hnone eq_refl eq_refl).
Defined.

(** ** Wandering inside the spawn area *)

Lemma mirror_x_components (dir : direction) :
  eastward (mirror_x dir) = - eastward dir /\ northward (mirror_x dir) = northward dir.
Proof. destruct dir; split; reflexivity. Qed.

Lemma mirror_y_components (dir : direction) :
  eastward (mirror_y dir) = eastward dir /\ northward (mirror_y dir) = - northward dir.
Proof. destruct dir; split; reflexivity. Qed.

(** A planar direction is known by its two components. *)
Lemma direction_by_components (a b : direction) :
  eastward a = eastward b -> northward a = northward b -> a = b.
Proof. destruct a, b; simpl; intros He Hn; try reflexivity; discriminate. Qed.

Lemma stayInSpawnArea_components (C : Collaborators) (spawn : SpawnPoint)
    (mon : Monster) (drawn : direction) :
  let newpos := position_move C drawn (getPosition (base mon)) in
  let dir := stayInSpawnArea C spawn mon drawn in
  eastward dir =
    (if Z.abs (get_x spawn - px newpos) >? getRange spawn
     then - eastward drawn else eastward drawn) /\
  northward dir =
    (if Z.abs (get_y spawn - py newpos) >? getRange spawn
     then - northward drawn else northward drawn).
Proof.
  intros newpos dir. subst dir. unfold stayInSpawnArea. fold newpos.
  destruct (Z.abs (get_x spawn - px newpos) >? getRange spawn);
    destruct (Z.abs (get_y spawn - py newpos) >? getRange spawn).
  - destruct (mirror_y_components (mirror_x drawn)) as [He Hn].
    destruct (mirror_x_components drawn) as [He' Hn']. split; congruence.
  - apply mirror_x_components.
  - apply mirror_y_components.
  - split; reflexivity.
Qed.

Lemma In_app_tail {A : Type} (x : A) (l tail : list A) :
  In x (l ++ tail) -> In x l \/ In x tail.
Proof. apply in_app_or. Qed.

(** C5.  A monster with a spawn point that takes a random step: the step is
    the drawn direction with its east-west part reversed when the tile the
    drawn direction leads to is further than the spawn radius from the spawn
    centre along x, and with its north-south part reversed when that tile is
    further than the radius along y.  The two tests look at the same tile; the
    second is applied to the direction the first has left.  A part that is
    zero stays zero, so north and south pass the x test unchanged and east and
    west pass the y test unchanged. *)
Theorem randomStep_mirrored_at_spawn_border (C : Collaborators)
    (env : Env) (w : World) (i : Z) (mon : Monster) (n : nat) (spawn : SpawnPoint) :
  getSpawn mon = Some n ->
  nth_error (SpawnList w) n = Some spawn ->
  forall dir, In (MoveStep i dir) (snd (randomStep C env w i mon)) ->
  let drawn := uniform_0_7 env i in
  let newpos := position_move C drawn (getPosition (base mon)) in
  fst (randomStep C env w i mon)
    = increaseActionPoints (of_monster C) (-20) (move C dir mon) /\
  eastward dir =
    (if Z.abs (get_x spawn - px newpos) >? getRange spawn
     then - eastward drawn else eastward drawn) /\
  northward dir =
    (if Z.abs (get_y spawn - py newpos) >? getRange spawn
     then - northward drawn else northward drawn).
Proof.
  intros Hspawn Hnth dir Hin drawn newpos.
  unfold randomStep in *. rewrite Hspawn, Hnth in *.
  set (out := if negb _ then _ else _) in *.
  assert (Hout : ~ In (MoveStep i dir) out).
  { subst out. destruct (negb _); simpl; intuition discriminate. }
  destruct (_ && _ && _).
  - simpl in Hin. contradiction.
  - simpl in Hin |- *. apply In_app_tail in Hin. destruct Hin as [Hin | Hin].
    + contradiction.
    + simpl in Hin. destruct Hin as [Heq | [Heq | []]]; [| discriminate].
      injection Heq as <-. split; [reflexivity |].
      apply stayInSpawnArea_components.
Qed.

Lemma randomStep_mirrored_witness :
  In (MoveStep 4 dir_west)
     (snd (randomStep Sample.collaborators Fixture.env Fixture.rim 4 Fixture.rim_wolf)) /\
  eastward dir_west = - eastward dir_east /\
  northward dir_west = northward dir_east.
Proof.
  assert (Hin : In (MoveStep 4 dir_west)
                  (snd (randomStep Sample.collaborators Fixture.env Fixture.rim 4
                          Fixture.rim_wolf))).
  { vm_compute. left. reflexivity. }
  split; [exact Hin |].
  destruct (randomStep_mirrored_at_spawn_border Sample.collaborators Fixture.env
              Fixture.rim 4 Fixture.rim_wolf 0%nat Sample.den eq_refl eq_refl
              dir_west Hin) as [_ [He Hn]].
  split; [exact He | exact Hn].
Defined.

(** ** The combat target query *)

Lemma position_eqb_eq (a b : position) : position_eqb a b = true <-> a = b.
Proof.
  unfold position_eqb. destruct a as [ax ay az], b as [bx b_y bz]. simpl.
  rewrite !andb_true_iff, !Z.eqb_eq. split.
  - intros [[-> ->] ->]. reflexivity.
  - intros [= -> -> ->]. auto.
Qed.

Lemma inRange_withinReach (C : Collaborators) (pos : position) (range : Range)
    (p : position) :
  inRange (planar C) pos range p = true <-> withinReach C pos range p.
Proof.
  unfold inRange, withinReach. rewrite andb_true_iff, !Z.leb_le. reflexivity.
Qed.

Section Queries.
Context {A : Type} `{CharacterKind A}.
Variable C : Collaborators.

Lemma findAllCharactersInRangeOf_In (r : registry A) (pos : position)
    (range : Range) (a : A) :
  In a (findAllCharactersInRangeOf (planar C) r pos range) <->
  In a (reg_values r) /\ withinReach C pos range (getPosition (base a)).
Proof.
  unfold findAllCharactersInRangeOf. rewrite filter_In, inRange_withinReach.
  reflexivity.
Qed.

Lemma findAllAliveCharactersInRangeOf_In (r : registry A) (pos : position)
    (range : Range) (a : A) :
  In a (findAllAliveCharactersInRangeOf (planar C) r pos range) <->
  In a (reg_values r) /\ isAlive (base a) = true /\
  withinReach C pos range (getPosition (base a)).
Proof.
  unfold findAllAliveCharactersInRangeOf.
  rewrite filter_In, findAllCharactersInRangeOf_In. tauto.
Qed.

End Queries.

(** Every target lies within the planar radius and the vertical reach 0. *)
Lemma getTargetsInRange_reach (T : Tuning) (C : Collaborators) (w : World)
    (pos : position) (r : Z) (c : Character) :
  In c (getTargetsInRange T C w pos r) ->
  withinReach C pos (mkRange r 0) (getPosition c).
Proof.
  unfold getTargetsInRange. cbn [set_radius set_zRadius radius zRadius].
  rewrite in_app_iff, !in_map_iff.
  intros [[pl [<- Hin]] | [mon [<- Hin]]].
  - apply findAllAliveCharactersInRangeOf_In in Hin. tauto.
  - apply filter_In in Hin. destruct Hin as [Hin _].
    apply findAllAliveCharactersInRangeOf_In in Hin. tauto.
Qed.

(** C3, as the code has it.  The combat target query returns exactly the live
    players within range together with the live monsters within range that
    stand at a different position from the query position; the range is the
    given planar radius with vertical reach 0, and no allegiance is looked
    at. *)
Theorem getTargetsInRange_members (T : Tuning) (C : Collaborators) (w : World)
    (pos : position) (r : Z) (c : Character) :
  In c (getTargetsInRange T C w pos r) <->
  (exists pl, In pl (reg_values (Players w)) /\ base pl = c /\
              isAlive c = true /\ withinReach C pos (mkRange r 0) (getPosition c)) \/
  (exists mon, In mon (reg_values (Monsters w)) /\ base mon = c /\
               isAlive c = true /\ withinReach C pos (mkRange r 0) (getPosition c) /\
               getPosition c <> pos).
Proof.
  unfold getTargetsInRange. cbn [set_radius set_zRadius radius zRadius].
  rewrite in_app_iff, !in_map_iff. split.
  - intros [[pl [Hbase Hin]] | [mon [Hbase Hin]]].
    + left. exists pl. apply findAllAliveCharactersInRangeOf_In in Hin.
      subst c. tauto.
    + right. exists mon. apply filter_In in Hin. destruct Hin as [Hin Hpos].
      apply findAllAliveCharactersInRangeOf_In in Hin. subst c.
      destruct Hin as [Hin [Halive Hreach]].
      split; [exact Hin |]. split; [reflexivity |]. split; [exact Halive |].
      split; [exact Hreach |].
      intros Heq. apply negb_true_iff in Hpos.
      assert (Ht : position_eqb pos (getPosition (base mon)) = true)
        by (apply position_eqb_eq; now symmetry).
      congruence.
  - intros [[pl [Hin [Hbase [Halive Hreach]]]] | [mon [Hin [Hbase [Halive [Hreach Hpos]]]]]].
    + left. exists pl. split; [exact Hbase |].
      apply findAllAliveCharactersInRangeOf_In. subst c. tauto.
    + right. exists mon. split; [exact Hbase |]. apply filter_In. subst c. split.
      * apply findAllAliveCharactersInRangeOf_In. tauto.
      * apply negb_true_iff. destruct (position_eqb pos (getPosition (base mon))) eqn:E;
          [| reflexivity].
        apply position_eqb_eq in E. congruence.
Qed.

(** C3, as the specification words it, fails: of two wolves of one species
    standing one tile apart, the query made at the first one's tile with
    radius 1 returns the second. *)
Lemma getTargetsInRange_ignores_allegiance :
  getTargetsInRange Sample.tuning Sample.collaborators Sample.pack Sample.origin 1
    = [Sample.bare 2 monster (mkPos 1 0 0) true] /\
  targetsOfOtherAllegiance getMonsterType (Sample.wolf 1 Sample.origin (Some 0%nat) 0 0)
    Sample.tuning Sample.collaborators Sample.pack Sample.origin 1 = [] /\
  getTargetsInRange Sample.tuning Sample.collaborators Sample.pack Sample.origin 1
    <> targetsOfOtherAllegiance getMonsterType (Sample.wolf 1 Sample.origin (Some 0%nat) 0 0)
         Sample.tuning Sample.collaborators Sample.pack Sample.origin 1.
Proof.
  split; [reflexivity |]. split; [reflexivity |]. vm_compute. discriminate.
Qed.

(** C10.  Whatever the planar radius, the range that the combat target query
    hands to the two registries has vertical reach 0, and every character it
    returns stands on the tile layer of the query position. *)
Theorem getTargetsInRange_same_layer (T : Tuning) (C : Collaborators) (w : World)
    (pos : position) (r : Z) :
  let range := set_zRadius 0 (set_radius r (Range_init T)) in
  zRadius range = 0 /\
  getTargetsInRange T C w pos r
    = map base (findAllAliveCharactersInRangeOf (planar C) (Players w) pos range) ++
      map base
        (filter (fun m => negb (position_eqb pos (getPosition (base m))))
           (findAllAliveCharactersInRangeOf (planar C) (Monsters w) pos range)) /\
  forall c, In c (getTargetsInRange T C w pos r) -> pz (getPosition c) = pz pos.
Proof.
  intros range. split; [reflexivity |]. split; [reflexivity |].
  intros c Hin. destruct (getTargetsInRange_reach T C w pos r c Hin) as [_ Hz].
  cbn [zRadius] in Hz. lia.
Qed.

(** ** Text broadcast *)

Section TalkFacts.
Variable T : Tuning.
Variable C : Collaborators.

Lemma tellPlayer_step (german english : string) (is_same is_action : bool)
    (prefix : string) (tt : talk_type) (cc : Character)
    (st : string * list Event) (p : Player) :
  exists text,
    snd (tellPlayer C german english is_same is_action prefix tt cc st p)
      = snd st ++ [ReceiveText player (getId (base p)) tt text (getId cc)].
Proof.
  destruct st as [tempMessage out]. unfold tellPlayer.
  destruct (negb is_action && negb (getId (base p) =? getId cc)).
  - eexists. reflexivity.
  - destruct is_action; eexists; reflexivity.
Qed.

Lemma tellPlayer_fold (german english : string) (is_same is_action : bool)
    (prefix : string) (tt : talk_type) (cc : Character) (listeners : list Player) :
  forall st, exists told,
    snd (fold_left (tellPlayer C german english is_same is_action prefix tt cc)
           listeners st) = snd st ++ told /\
    (forall p, In p listeners ->
       exists text, In (ReceiveText player (getId (base p)) tt text (getId cc)) told) /\
    (forall e, In e told ->
       exists p text,
         In p listeners /\ e = ReceiveText player (getId (base p)) tt text (getId cc)).
Proof.
  induction listeners as [| p rest IH]; intros st.
  - exists []. simpl. rewrite app_nil_r. repeat split; intros; contradiction.
  - simpl.
    destruct (tellPlayer_step german english is_same is_action prefix tt cc st p)
      as [text Hstep].
    destruct (IH (tellPlayer C german english is_same is_action prefix tt cc st p))
      as [told [Hsnd [Hall Honly]]].
    exists (ReceiveText player (getId (base p)) tt text (getId cc) :: told).
    split; [| split].
    + rewrite Hsnd, Hstep, <- app_assoc. reflexivity.
    + intros q [<- | Hq].
      * exists text. left. reflexivity.
      * destruct (Hall q Hq) as [text' Hin]. exists text'. right. exact Hin.
    + intros e [<- | He].
      * exists p, text. split; [now left | reflexivity].
      * destruct (Honly e He) as (q & text' & Hq & Heq).
        exists q, text'. split; [now right | exact Heq].
Qed.

(** C4, as the code has it.  A text broadcast reaches every player within the
    range of the talk type.  The NPCs and the monsters within that range
    receive a copy when the speaker is a player; when the speaker is not a
    player, nothing is sent but the copies of the players within range. *)
Theorem sendMessageToAllCharsInRange_listeners (german english : string)
    (is_same : bool) (tt : talk_type) (cc : Character) (w : World) :
  let range := getTalkRange T tt in
  exists told,
    events (sendMessageToAllCharsInRange T C german english is_same tt cc w)
      = events w ++ told /\
    (forall p, In p (findAllCharactersInRangeOf (planar C) (Players w) (getPosition cc) range) ->
       exists text, In (ReceiveText player (getId (base p)) tt text (getId cc)) told) /\
    (getType cc = player ->
       (forall n, In n (findAllCharactersInRangeOf (planar C) (Npc w) (getPosition cc) range) ->
          exists text, In (ReceiveText npc (getId (base n)) tt text (getId cc)) told) /\
       (forall m, In m (findAllCharactersInRangeOf (planar C) (Monsters w) (getPosition cc) range) ->
          In (ReceiveText monster (getId (base m)) tt english (getId cc)) told)) /\
    (getType cc <> player ->
       forall e, In e told ->
         exists p text,
           In p (findAllCharactersInRangeOf (planar C) (Players w) (getPosition cc) range) /\
           e = ReceiveText player (getId (base p)) tt text (getId cc)).
Proof.
  intros range. unfold sendMessageToAllCharsInRange. fold range.
  set (tempMessage := if negb _ then _ else _).
  set (prefix := languagePrefix _).
  set (is_action := String.eqb _ _).
  destruct (tellPlayer_fold german english is_same is_action prefix tt cc
              (findAllCharactersInRangeOf (planar C) (Players w) (getPosition cc) range)
              (tempMessage, [])) as [told [Hsnd [Hall Honly]]].
  destruct (fold_left _ _ _) as [last out]. simpl in Hsnd. subst out.
  destruct (character_type_eqb (getType cc) player) eqn:Etype.
  - exists (told ++
            map (tellNpc C english prefix tt cc)
              (findAllCharactersInRangeOf (planar C) (Npc w) (getPosition cc) range) ++
            map (tellMonster english tt cc)
              (findAllCharactersInRangeOf (planar C) (Monsters w) (getPosition cc) range)).
    split; [| split; [| split]].
    + simpl. rewrite <- !app_assoc. reflexivity.
    + intros p Hp. destruct (Hall p Hp) as [text Hin]. exists text.
      apply in_or_app. left. exact Hin.
    + intros _. split.
      * intros n Hn. eexists. apply in_or_app. right. apply in_or_app. left.
        apply in_map_iff. exists n. split; [reflexivity | exact Hn].
      * intros m Hm. apply in_or_app. right. apply in_or_app. right.
        apply in_map_iff. exists m. split; [reflexivity | exact Hm].
    + intros Hne. destruct (getType cc); simpl in Etype; try discriminate.
      now contradiction Hne.
  - exists told. split; [| split; [| split]].
    + reflexivity.
    + exact Hall.
    + intros Heq. rewrite Heq in Etype. discriminate.
    + intros _ e Hin. exact (Honly e Hin).
Qed.

End TalkFacts.

(** C4, as the specification words it, fails: a wolf speaks, an NPC stands
    one tile away and another wolf next to it, and the only copy sent is the
    player's. *)
Lemma sendMessageToAllCharsInRange_skips_npcs :
  let cc := base Square.howler in
  let range := getTalkRange Sample.tuning tt_say in
  getType cc <> player /\
  In Square.guard
    (findAllCharactersInRangeOf Sample.chebyshev (Npc Square.world) (getPosition cc) range) /\
  In (Sample.wolf 31 (mkPos 1 1 0) None 0 0)
    (findAllCharactersInRangeOf Sample.chebyshev (Monsters Square.world) (getPosition cc) range) /\
  events (sendMessageToAllCharsInRange1 Sample.tuning Sample.collaborators
            "hello" tt_say cc Square.world)
    = [ReceiveText player 10 tt_say "hello" 30].
Proof.
  split; [discriminate |]. split; [vm_compute; auto |]. split; [vm_compute; auto |].
  vm_compute. reflexivity.
Qed.

(** ** Loading the spawn points *)

Section RespawnFacts.
Variable C : Collaborators.

Lemma loadRows_result (rows : list Database.row) :
  forall w,
    SpawnList (fst (loadRows C rows w)) = SpawnList w ++ spawnsRead C rows /\
    snd (loadRows C rows w) = firstFault rows /\
    (forall lvl msg, In (Log lvl msg) (events (fst (loadRows C rows w))) ->
       In (Log lvl msg) (events w) \/ lvl = debug).
Proof.
  induction rows as [| r rest IH]; intros w; simpl.
  - rewrite app_nil_r. auto.
  - destruct (readRow r) as [[spawnId newSpawn] | what]; simpl.
    + match goal with |- context [loadRows C rest ?w1] =>
        destruct (IH w1) as [Hlist [Hfault Hlog]] end.
      rewrite Hlist, Hfault. simpl. rewrite <- app_assoc. simpl.
      split; [reflexivity |]. split; [reflexivity |].
      intros lvl msg Hin. destruct (Hlog lvl msg Hin) as [Hold | Hdebug]; [| now right].
      simpl in Hold. rewrite !in_app_iff in Hold. simpl in Hold.
      destruct Hold as [[Hold | [Heq | []]] | [Heq | []]];
        [now left | right; congruence | right; congruence].
    + rewrite app_nil_r. auto.
Qed.

(** C6, as the code has it.  [initRespawns] empties the spawn list first.  With
    no rows it returns failure, logs no error and leaves the list empty.  When
    the query throws it logs the error, returns failure and leaves the list
    empty.  When a row throws while it is read it logs the error, returns
    failure and leaves in the list the spawn points of the rows read before
    that row.  When no row throws it returns success with the spawn points of
    all rows.  The list from before the call is not kept. *)
Theorem initRespawns_outcome (query : Database.outcome (list Database.row))
    (w : World) :
  let r := initRespawns C query w in
  match query with
  | Database.thrown what =>
      fst r = false /\ SpawnList (snd r) = [] /\
      events (snd r)
        = events w ++ [Log error (append "got exception in load SpawnPoints: " what)]
  | Database.ok [] =>
      fst r = false /\ SpawnList (snd r) = [] /\ events (snd r) = events w
  | Database.ok rows =>
      SpawnList (snd r) = spawnsRead C rows /\
      match firstFault rows with
      | Some what =>
          fst r = false /\
          In (Log error (append "got exception in load SpawnPoints: " what)) (events (snd r))
      | None =>
          fst r = true /\ forall msg, In (Log error msg) (events (snd r)) ->
                                      In (Log error msg) (events w)
      end
  end.
Proof.
  intros r. subst r. unfold initRespawns.
  destruct query as [[| r0 rest] | what].
  - simpl. auto.
  - cbn [is_empty negb].
    match goal with |- context [loadRows C ?rows ?w1] =>
      destruct (loadRows_result rows w1) as [Hlist [Hfault Hlog]];
      destruct (loadRows C rows w1) as [w2 fault] end.
    set (fault' := firstFault (r0 :: rest)) in *.
    set (read := spawnsRead C (r0 :: rest)) in *.
    cbn [fst snd SpawnList set_SpawnList set_Monsters events app] in Hlist, Hfault, Hlog.
    subst fault. destruct fault' as [what |]; cbn [fst snd SpawnList emit events].
    + split; [exact Hlist |]. split; [reflexivity |].
      apply in_or_app. right. left. reflexivity.
    + split; [exact Hlist |]. split; [reflexivity |].
      intros msg Hin. destruct (Hlog error msg Hin) as [Hold | Hdebug];
        [exact Hold | discriminate].
  - simpl. auto.
Qed.

End RespawnFacts.

(** C6, as the specification words it, fails: with a table of two rows, the
    second of which does not convert, the load returns failure and leaves one
    spawn point in the list, which is neither empty nor the list from before
    the call. *)
Lemma initRespawns_partial_list :
  let r := initRespawns Sample.collaborators (Database.ok [Table.good; Table.bad])
             Sample.empty in
  fst r = false /\
  SpawnList (snd r) = [Table.lair] /\
  SpawnList (snd r) <> [] /\
  SpawnList (snd r) <> SpawnList Sample.empty /\
  In (Log error "got exception in load SpawnPoints: conversion overflow") (events (snd r)).
Proof.
  split; [reflexivity |]. split; [reflexivity |].
  split; [discriminate |]. split; [discriminate |].
  vm_compute. auto.
Qed.

(** ** What a phase leaves alone *)

Lemma fold_left_rel {S X : Type} (R : S -> S -> Prop) (f : S -> X -> S) :
  (forall s, R s s) ->
  (forall a b c, R a b -> R b c -> R a c) ->
  (forall s x, R s (f s x)) ->
  forall l s, R s (fold_left f l s).
Proof.
  intros Hrefl Htrans Hstep l. induction l as [| x l IH]; intros s; simpl.
  - apply Hrefl.
  - eapply Htrans; [apply Hstep | apply IH].
Qed.

Lemma advances_refl (P : Z -> Event -> Prop) (w : World) : advances P w w.
Proof.
  repeat split. exists []. split; [now rewrite app_nil_r | constructor].
Qed.

Lemma advances_trans (P : Z -> Event -> Prop) (a b c : World) :
  advances P a b -> advances P b c -> advances P a c.
Proof.
  intros (Ht & Hu & Ha & E & He & HE) (Ht' & Hu' & Ha' & E' & He' & HE').
  repeat split; try congruence.
  exists (E ++ E'). split.
  - rewrite He', He, app_assoc. reflexivity.
  - apply Forall_app. split; [exact HE |]. rewrite Ha in HE'. exact HE'.
Qed.

Lemma advances_weaken (P Q : Z -> Event -> Prop) (w w' : World) :
  (forall b e, P b e -> Q b e) -> advances P w w' -> advances Q w w'.
Proof.
  intros HPQ (Ht & Hu & Ha & E & He & HE). repeat split; try assumption.
  exists E. split; [exact He |]. eapply Forall_impl; [apply HPQ | exact HE].
Qed.

Lemma advances_emit (P : Z -> Event -> Prop) (w : World) (out : list Event) :
  Forall (P (ap w)) out -> advances P w (emit out w).
Proof. intros Hout. repeat split. exists out. split; [reflexivity | exact Hout]. Qed.

Lemma advances_set_Monsters (P : Z -> Event -> Prop) (w : World) (v : registry Monster) :
  advances P w (set_Monsters v w).
Proof. repeat split. exists []. cbn. rewrite app_nil_r. auto. Qed.

Lemma advances_set_Npc (P : Z -> Event -> Prop) (w : World) (v : registry NPC) :
  advances P w (set_Npc v w).
Proof. repeat split. exists []. cbn. rewrite app_nil_r. auto. Qed.

Lemma since_app (w w' : World) (E : list Event) :
  events w' = events w ++ E -> since w w' = E.
Proof.
  intros He. unfold since. rewrite He.
  rewrite skipn_app, skipn_all, Nat.sub_diag. reflexivity.
Qed.

Lemma advances_since (P : Z -> Event -> Prop) (w w' : World) :
  advances P w w' ->
  events w' = events w ++ since w w' /\ Forall (P (ap w)) (since w w').
Proof.
  intros (_ & _ & _ & E & He & HE). rewrite (since_app _ _ _ He). auto.
Qed.

Lemma since_trans (P : Z -> Event -> Prop) (a b c : World) :
  advances P a b -> advances P b c -> since a c = since a b ++ since b c.
Proof.
  intros Hab Hbc.
  destruct (advances_since _ _ _ Hab) as [Eab _].
  destruct (advances_since _ _ _ Hbc) as [Ebc _].
  apply since_app. rewrite Ebc, Eab at 1. rewrite app_assoc. reflexivity.
Qed.

(** Destructs the innermost scrutinee of the goal. *)
Ltac break_match :=
  match goal with
  | |- context [match ?x with _ => _ end] =>
      lazymatch x with
      | context [match _ with _ => _ end] => fail
      | _ => destruct x eqn:?
      end
  end.

Ltac grants :=
  cbn [fst snd app]; repeat (apply Forall_cons || apply Forall_nil);
  cbn [grantFor]; auto.

(** ** Registries *)

Section RegistryFacts.
Context {A : Type} `{CharacterKind A}.

Lemma reg_ids_store (i : Z) (a : A) (r : registry A) :
  reg_ids (reg_store i a r) = reg_ids r.
Proof.
  unfold reg_ids, reg_store. rewrite map_map. apply map_ext.
  intros [k b]. simpl. destruct (k =? i); reflexivity.
Qed.

Lemma reg_find_store_other (i j : Z) (a : A) (r : registry A) :
  i <> j -> reg_find i (reg_store j a r) = reg_find i r.
Proof.
  intros Hij. induction r as [| [k b] r IH]; simpl; [reflexivity |].
  destruct (Z.eqb_spec k j) as [-> | Hkj]; simpl.
  - destruct (Z.eqb_spec j i); [congruence | exact IH].
  - rewrite IH. reflexivity.
Qed.

Lemma reg_find_ids (i : Z) (a : A) (r : registry A) :
  reg_find i r = Some a -> In i (reg_ids r).
Proof.
  induction r as [| [k b] r IH]; simpl; [discriminate |].
  destruct (Z.eqb_spec k i) as [-> | Hki]; [now left | right; auto].
Qed.

Lemma reg_has_true (i : Z) (r : registry A) :
  reg_has i r = true <-> In i (reg_ids r).
Proof.
  unfold reg_has. rewrite existsb_exists. split.
  - intros [k [Hin Hk]]. apply Z.eqb_eq in Hk. now subst.
  - intros Hin. exists i. split; [exact Hin | apply Z.eqb_refl].
Qed.

Lemma reg_has_false (i : Z) (r : registry A) :
  reg_has i r = false <-> ~ In i (reg_ids r).
Proof.
  rewrite <- reg_has_true. destruct (reg_has i r); split; intros; congruence.
Qed.

Lemma reg_ids_erase (i j : Z) (r : registry A) :
  In i (reg_ids (reg_erase j r)) -> In i (reg_ids r).
Proof.
  unfold reg_ids, reg_erase. rewrite !in_map_iff.
  intros [e [He Hin]]. apply filter_In in Hin. exists e. tauto.
Qed.

Lemma reg_ids_insert (i : Z) (a : A) (r : registry A) :
  In i (reg_ids (reg_insert a r)) <-> In i (reg_ids r) \/ i = getId (base a).
Proof.
  unfold reg_insert. destruct (reg_has (getId (base a)) r) eqn:E.
  - apply reg_has_true in E. split; [now left | intros [Hin | ->]; assumption].
  - unfold reg_ids. rewrite map_app, in_app_iff. simpl. intuition.
Qed.

End RegistryFacts.

Arguments reg_ids : simpl never.
Arguments reg_store : simpl never.
Arguments reg_erase : simpl never.
Arguments reg_insert : simpl never.
Arguments reg_has : simpl never.

(** ** The player phase *)

Section PlayerPhase.
Variable T : Tuning.
Variable C : Collaborators.
Variable env : Env.

Lemma checkPlayer_grants (budget i : Z) (pl : Player) :
  Forall (grantFor player budget) (snd (fst (checkPlayer T C env budget i pl))).
Proof. unfold checkPlayer. repeat break_match; grants. Qed.

Lemma visitPlayer_advances (st : World * list Z) (i : Z) :
  advances (grantFor player) (fst st) (fst (visitPlayer T C env st i)).
Proof.
  destruct st as [w lost]. unfold visitPlayer.
  destruct (reg_find i (Players w)) as [pl |]; [| apply advances_refl].
  pose proof (checkPlayer_grants (ap w) i pl) as Hout.
  destruct (checkPlayer T C env (ap w) i pl) as [[pl' out] gone].
  cbn [fst snd] in *. repeat split. exists out. auto.
Qed.

Lemma visitPlayers_advance (ids : list Z) (st : World * list Z) :
  advances (grantFor player) (fst st) (fst (fold_left (visitPlayer T C env) ids st)).
Proof.
  apply (fold_left_rel (fun a b => advances (grantFor player) (fst a) (fst b))).
  - intros s. apply advances_refl.
  - intros a b c. apply advances_trans.
  - apply visitPlayer_advances.
Qed.

Lemma erasePlayers_advance (lost : list Z) (w : World) :
  advances (grantFor player) w
    (fold_left (fun w i => set_Players (reg_erase i (Players w)) w) lost w).
Proof.
  apply (fold_left_rel (advances (grantFor player))).
  - apply advances_refl.
  - apply advances_trans.
  - intros s x. repeat split. exists []. cbn. rewrite app_nil_r. auto.
Qed.

Lemma erasePlayers_events (lost : list Z) (w : World) :
  events (fold_left (fun w i => set_Players (reg_erase i (Players w)) w) lost w) = events w.
Proof.
  revert w. induction lost as [| i lost IH]; intros w; simpl; [reflexivity |].
  rewrite IH. reflexivity.
Qed.

Lemma checkPlayers_advances (w : World) :
  advances (grantFor player) w (checkPlayers T C env w).
Proof.
  unfold checkPlayers.
  pose proof (visitPlayers_advance (reg_ids (Players w)) (w, [])) as Hpass.
  destruct (fold_left (visitPlayer T C env) (reg_ids (Players w)) (w, [])) as [w1 lost].
  cbn [fst] in Hpass. eapply advances_trans; [exact Hpass | apply erasePlayers_advance].
Qed.

(** The player phase touches no registry but the players'. *)
Lemma checkPlayers_frame (w : World) :
  Monsters (checkPlayers T C env w) = Monsters w /\
  Npc (checkPlayers T C env w) = Npc w /\
  newMonsters (checkPlayers T C env w) = newMonsters w /\
  SpawnList (checkPlayers T C env w) = SpawnList w.
Proof.
  unfold checkPlayers.
  set (R := fun a b : World =>
              Monsters b = Monsters a /\ Npc b = Npc a /\
              newMonsters b = newMonsters a /\ SpawnList b = SpawnList a).
  assert (Hrefl : forall a, R a a) by (intros a; repeat split).
  assert (Htrans : forall a b c, R a b -> R b c -> R a c).
  { intros a b c (H1 & H2 & H3 & H4) (H1' & H2' & H3' & H4'). repeat split; congruence. }
  assert (Hpass : R w (fst (fold_left (visitPlayer T C env) (reg_ids (Players w)) (w, [])))).
  { apply (fold_left_rel (fun a b => R (fst a) (fst b)) (visitPlayer T C env)
             (fun s => Hrefl (fst s)) (fun a b c => Htrans (fst a) (fst b) (fst c))).
    intros [w0 lost] i. unfold visitPlayer.
    destruct (reg_find i (Players w0)); [| apply Hrefl].
    destruct (checkPlayer T C env (ap w0) i p) as [[pl' out] gone].
    repeat split. }
  destruct (fold_left (visitPlayer T C env) (reg_ids (Players w)) (w, [])) as [w1 lost].
  cbn [fst] in Hpass. apply (Htrans _ _ _ Hpass).
  apply (fold_left_rel R); [exact Hrefl | exact Htrans |]. intros s x. repeat split.
Qed.

(** A registered player who is online and within the keep-alive window is
    granted the budget in the pass. *)
Lemma visitPlayers_grant (ids : list Z) :
  forall (st : World * list Z) (i : Z) (pl : Player),
    In i ids ->
    reg_find i (Players (fst st)) = Some pl ->
    online pl = true ->
    0 <= Mach.int32 (tempkeepalive env - lastkeepalive pl) <= CLIENT_TIMEOUT T ->
    In (IncreaseActionPoints player i (ap (fst st)))
       (since (fst st) (fst (fold_left (visitPlayer T C env) ids st))).
Proof.
  induction ids as [| j rest IH]; intros st i pl Hin Hfind Honline Htime; [contradiction |].
  cbn [fold_left].
  rewrite (since_trans _ _ _ _ (visitPlayer_advances st j)
             (visitPlayers_advance rest (visitPlayer T C env st j))).
  apply in_or_app.
  destruct (Z.eq_dec j i) as [-> | Hji].
  - left. destruct st as [w lost]. cbn [fst] in *. unfold visitPlayer. rewrite Hfind.
    unfold checkPlayer. rewrite Honline.
    replace (_ && _) with true.
    + cbn [fst]. erewrite since_app by reflexivity. left. reflexivity.
    + symmetry. apply andb_true_iff. split; [apply Z.geb_le | apply Z.leb_le]; lia.
  - right.
    assert (Hin' : In i rest) by (destruct Hin; [congruence | assumption]).
    destruct (visitPlayer_advances st j) as (_ & _ & Hap & _).
    rewrite <- Hap. apply (IH _ i pl Hin'); try assumption.
    destruct st as [w lost]. cbn [fst] in *. unfold visitPlayer.
    destruct (reg_find j (Players w)) as [pj |]; [| exact Hfind].
    destruct (checkPlayer T C env (ap w) j pj) as [[pl' out] gone].
    cbn [fst emit set_Players Players]. rewrite reg_find_store_other by congruence.
    exact Hfind.
Qed.

Lemma checkPlayers_grant (w : World) (i : Z) (pl : Player) :
  reg_find i (Players w) = Some pl ->
  online pl = true ->
  0 <= Mach.int32 (tempkeepalive env - lastkeepalive pl) <= CLIENT_TIMEOUT T ->
  In (IncreaseActionPoints player i (ap w)) (since w (checkPlayers T C env w)).
Proof.
  intros Hfind Honline Htime.
  pose proof (visitPlayers_grant (reg_ids (Players w)) (w, []) i pl
                (reg_find_ids _ _ _ Hfind) Hfind Honline Htime) as Hin.
  pose proof (visitPlayers_advance (reg_ids (Players w)) (w, [])) as Hadv.
  unfold checkPlayers.
  destruct (fold_left (visitPlayer T C env) (reg_ids (Players w)) (w, [])) as [w1 lost].
  cbn [fst] in *.
  rewrite (since_trans _ _ _ _ Hadv (erasePlayers_advance lost w1)).
  apply in_or_app. left. exact Hin.
Qed.

End PlayerPhase.

Lemma fold_left_keeps {S X V : Type} (g : S -> V) (f : S -> X -> S) :
  (forall s x, g (f s x) = g s) -> forall l s, g (fold_left f l s) = g s.
Proof.
  intros Hstep l. induction l as [| x l IH]; intros s; simpl; [reflexivity |].
  rewrite IH. apply Hstep.
Qed.

Ltac break_all := repeat (cbn beta iota zeta; break_match).

(** ** The monster phase *)

Section MonsterPhase.
Variable T : Tuning.
Variable C : Collaborators.
Variable env : Env.

Lemma attackInReach_grants (w : World) (i : Z) (found : bool) (ms : MonsterStruct)
    (mon : Monster) (b : Z) :
  Forall (grantFor monster b) (snd (fst (attackInReach T C w i found ms mon))).
Proof. unfold attackInReach. break_all; grants. Qed.

Lemma lookAround_grants (w : World) (i : Z) (found : bool) (ms : MonsterStruct)
    (mon : Monster) (b : Z) :
  Forall (grantFor monster b) (snd (fst (lookAround T C w i found ms mon))).
Proof. unfold lookAround. break_all; grants. Qed.

Lemma randomStep_grants (w : World) (i : Z) (mon : Monster) (b : Z) :
  Forall (grantFor monster b) (snd (randomStep C env w i mon)).
Proof.
  unfold randomStep. break_all; cbn [fst snd]; try (apply Forall_app; split); grants.
Qed.

Lemma followRoute_grants (w : World) (i : Z) (found : bool) (ms : MonsterStruct)
    (mon : Monster) (b : Z) :
  Forall (grantFor monster b) (snd (followRoute T C w i found ms mon)).
Proof.
  unfold followRoute. break_all; cbn [fst snd];
    repeat (apply Forall_app; split); grants.
Qed.

Lemma checkMonster_grants (w : World) (i : Z) (mon : Monster) :
  Forall (grantFor monster (ap w)) (snd (fst (checkMonster T C env w i mon))).
Proof.
  unfold checkMonster. destruct (isAlive (base mon)); [| grants]. cbv zeta.
  set (mon1 := checkEffects _ _).
  set (found := match monsterDescriptions C (getMonsterType mon1) with
                | Some _ => true | None => false end).
  set (ms := match monsterDescriptions C (getMonsterType mon1) with
             | Some d => d | None => no_MonsterStruct end).
  destruct (canAct (of_monster C) mon1); [| grants].
  destruct (negb (getOnRoute mon1)).
  - set (mon2 := if position_eqb _ _ then _ else _).
    pose proof (attackInReach_grants w i found ms mon2 (ap w)) as H1.
    destruct (attackInReach T C w i found ms mon2) as [[mon3 out1] [attacked |]];
      cbn [fst snd] in H1 |- *.
    + destruct (negb attacked).
      * pose proof (lookAround_grants w i found ms mon3 (ap w)) as H2.
        destruct (lookAround T C w i found ms mon3) as [[mon4 out2] [wander |]];
          cbn [fst snd] in H2 |- *.
        -- destruct wander.
           ++ pose proof (randomStep_grants w i mon4 (ap w)) as H3.
              destruct (randomStep C env w i mon4) as [mon5 out3].
              cbn [fst snd] in H3 |- *.
              repeat (apply Forall_app; split); try assumption; grants.
           ++ cbn [fst snd]. repeat (apply Forall_app; split); try assumption; grants.
        -- repeat (apply Forall_app; split); try assumption; grants.
      * cbn [fst snd]. repeat (apply Forall_app; split); try assumption; grants.
    + repeat (apply Forall_app; split); try assumption; grants.
  - pose proof (followRoute_grants w i found ms mon1 (ap w)) as H1.
    destruct (followRoute T C w i found ms mon1) as [mon2 out1].
    cbn [fst snd] in H1 |- *.
    repeat (apply Forall_app; split); try assumption; grants.
Qed.

(** A live monster is granted the budget first of all. *)
Lemma checkMonster_grant (w : World) (i : Z) (mon : Monster) :
  isAlive (base mon) = true ->
  exists rest,
    snd (fst (checkMonster T C env w i mon))
      = IncreaseActionPoints monster i (ap w) :: IncreaseFightPoints monster i (ap w) :: rest.
Proof.
  intros Halive. unfold checkMonster. rewrite Halive. cbv zeta.
  break_all; cbn [fst snd app]; eexists; reflexivity.
Qed.

Lemma visitMonster_advances (st : World * list Z) (i : Z) :
  advances (grantFor monster) (fst st) (fst (visitMonster T C env st i)).
Proof.
  destruct st as [w dead]. unfold visitMonster.
  destruct (reg_find i (Monsters w)) as [mon |]; [| apply advances_refl].
  pose proof (checkMonster_grants w i mon) as Hout.
  destruct (checkMonster T C env w i mon) as [[mon' out] gone].
  cbn [fst snd] in *. repeat split. exists out. auto.
Qed.

Lemma visitMonsters_advance (ids : list Z) (st : World * list Z) :
  advances (grantFor monster) (fst st) (fst (fold_left (visitMonster T C env) ids st)).
Proof.
  apply (fold_left_rel (fun a b => advances (grantFor monster) (fst a) (fst b))).
  - intros s. apply advances_refl.
  - intros a b c. apply advances_trans.
  - apply visitMonster_advances.
Qed.

End MonsterPhase.

Section MonsterStages.
Variable T : Tuning.
Variable C : Collaborators.
Variable env : Env.

(** *** The spawn points are run *)

Lemma spawnOne_fold_world (spawns : list SpawnPoint) :
  forall st,
    let w' := fst (fold_left (spawnOne C) spawns st) in
    timeStart w' = timeStart (fst st) /\ usedAP w' = usedAP (fst st) /\
    ap w' = ap (fst st) /\ events w' = events (fst st) /\
    Players w' = Players (fst st) /\ Monsters w' = Monsters (fst st) /\
    Npc w' = Npc (fst st) /\
    (forall mon, In mon (newMonsters (fst st)) -> In mon (newMonsters w')) /\
    (forall spawn mon, In spawn spawns -> In mon (snd (SpawnPoint_spawn C spawn)) ->
                       In mon (newMonsters w')).
Proof.
  induction spawns as [| s rest IH]; intros st; cbn [fold_left].
  - repeat split; auto. intros spawn mon [].
  - destruct (IH (spawnOne C st s)) as (H1 & H2 & H3 & H4 & H5 & H6 & H7 & H8 & H9).
    assert (Hone : fst (spawnOne C st s)
                   = set_newMonsters
                       (newMonsters (fst st) ++ snd (SpawnPoint_spawn C s)) (fst st)).
    { destruct st as [w done]. unfold spawnOne.
      destruct (SpawnPoint_spawn C s) as [s' created]. reflexivity. }
    rewrite Hone in *. cbn [set_newMonsters timeStart usedAP ap events Players Monsters
                             Npc newMonsters] in *.
    repeat split; try assumption.
    + intros mon Hin. apply H8. apply in_or_app. now left.
    + intros spawn mon [<- | Hin] Hmon.
      * apply H8. apply in_or_app. now right.
      * eapply H9; eassumption.
Qed.

Lemma spawnStage_world (w : World) :
  let w' := spawnStage C env w in
  timeStart w' = timeStart w /\ usedAP w' = usedAP w /\ ap w' = ap w /\
  Players w' = Players w /\ Monsters w' = Monsters w /\ Npc w' = Npc w /\
  (exists E, events w' = events w ++ E /\
             Forall (fun e => exists lvl msg, e = Log lvl msg) E) /\
  (forall mon, In mon (newMonsters w) -> In mon (newMonsters w')) /\
  (monstertimer_next env = true -> isSpawnEnabled env = true ->
   forall spawn mon, In spawn (SpawnList w) -> In mon (snd (SpawnPoint_spawn C spawn)) ->
                     In mon (newMonsters w')).
Proof.
  unfold spawnStage.
  destruct (monstertimer_next env); [destruct (isSpawnEnabled env) |].
  - destruct (spawnOne_fold_world (SpawnList w) (w, []))
      as (H1 & H2 & H3 & H4 & H5 & H6 & H7 & H8 & H9).
    destruct (fold_left (spawnOne C) (SpawnList w) (w, [])) as [w1 spawns].
    cbn [fst] in *. cbn. repeat split; try assumption.
    + exists []. rewrite app_nil_r. auto.
    + intros _ _. exact H9.
  - cbn. repeat split; auto.
    + eexists. split; [reflexivity |]. repeat constructor. eauto.
    + discriminate.
  - cbn. repeat split; auto.
    + exists []. rewrite app_nil_r. auto.
    + discriminate.
Qed.

(** *** The pass over the registry *)

Lemma visitMonster_frame (st : World * list Z) (i : Z) :
  let w' := fst (visitMonster T C env st i) in
  reg_ids (Monsters w') = reg_ids (Monsters (fst st)) /\
  newMonsters w' = newMonsters (fst st) /\
  Players w' = Players (fst st) /\ Npc w' = Npc (fst st).
Proof.
  destruct st as [w dead]. unfold visitMonster.
  destruct (reg_find i (Monsters w)) as [mon |]; [| cbn; auto].
  destruct (checkMonster T C env w i mon) as [[mon' out] gone].
  cbn. rewrite reg_ids_store. auto.
Qed.

Lemma visitMonsters_frame (ids : list Z) (st : World * list Z) :
  let w' := fst (fold_left (visitMonster T C env) ids st) in
  reg_ids (Monsters w') = reg_ids (Monsters (fst st)) /\
  newMonsters w' = newMonsters (fst st) /\
  Players w' = Players (fst st) /\ Npc w' = Npc (fst st).
Proof.
  cbv zeta.
  apply (fold_left_rel
           (fun a b : World * list Z =>
              reg_ids (Monsters (fst b)) = reg_ids (Monsters (fst a)) /\
              newMonsters (fst b) = newMonsters (fst a) /\
              Players (fst b) = Players (fst a) /\ Npc (fst b) = Npc (fst a))).
  - intros s. auto.
  - intros a b c (H1 & H2 & H3 & H4) (H1' & H2' & H3' & H4'). repeat split; congruence.
  - intros s x. apply visitMonster_frame.
Qed.

Lemma visitMonsters_grant (ids : list Z) :
  forall (st : World * list Z) (i : Z) (mon : Monster),
    In i ids ->
    reg_find i (Monsters (fst st)) = Some mon ->
    isAlive (base mon) = true ->
    In (IncreaseActionPoints monster i (ap (fst st)))
       (since (fst st) (fst (fold_left (visitMonster T C env) ids st))).
Proof.
  induction ids as [| j rest IH]; intros st i mon Hin Hfind Halive; [contradiction |].
  cbn [fold_left].
  rewrite (since_trans _ _ _ _ (visitMonster_advances T C env st j)
             (visitMonsters_advance T C env rest (visitMonster T C env st j))).
  apply in_or_app.
  destruct (Z.eq_dec j i) as [-> | Hji].
  - left. destruct st as [w dead]. cbn [fst] in *. unfold visitMonster. rewrite Hfind.
    destruct (checkMonster_grant T C env w i mon Halive) as [more Hout].
    destruct (checkMonster T C env w i mon) as [[mon' out] gone].
    cbn [fst snd] in *. subst out.
    erewrite since_app by reflexivity. left. reflexivity.
  - right.
    assert (Hin' : In i rest) by (destruct Hin; [congruence | assumption]).
    destruct (visitMonster_advances T C env st j) as (_ & _ & Hap & _).
    rewrite <- Hap. apply (IH _ i mon Hin'); try assumption.
    destruct st as [w dead]. cbn [fst] in *. unfold visitMonster.
    destruct (reg_find j (Monsters w)) as [mj |]; [| exact Hfind].
    destruct (checkMonster T C env w j mj) as [[mon' out] gone].
    cbn [fst emit set_Monsters Monsters]. rewrite reg_find_store_other by congruence.
    exact Hfind.
Qed.

(** *** The dead are removed *)

Lemma killMonster_advances (w : World) (i : Z) :
  advances (grantFor monster) w (killMonster w i).
Proof. repeat split. exists [KillMonster i]. split; [reflexivity | grants]. Qed.

Lemma killMonsters_advance (dead : list Z) (w : World) :
  advances (grantFor monster) w (fold_left killMonster dead w).
Proof.
  apply (fold_left_rel (advances (grantFor monster))).
  - apply advances_refl.
  - apply advances_trans.
  - apply killMonster_advances.
Qed.

Lemma killMonsters_frame (dead : list Z) (w : World) :
  let w' := fold_left killMonster dead w in
  (forall i, In i (reg_ids (Monsters w')) -> In i (reg_ids (Monsters w))) /\
  newMonsters w' = newMonsters w /\ Players w' = Players w /\ Npc w' = Npc w.
Proof.
  cbv zeta.
  apply (fold_left_rel
           (fun a b : World =>
              (forall i, In i (reg_ids (Monsters b)) -> In i (reg_ids (Monsters a))) /\
              newMonsters b = newMonsters a /\ Players b = Players a /\ Npc b = Npc a)).
  - intros s. auto.
  - intros a b c (H1 & H2 & H3 & H4) (H1' & H2' & H3' & H4').
    repeat split; try congruence. auto.
  - intros s x. cbn. repeat split. intros i. apply reg_ids_erase.
Qed.

(** *** The join point *)

Lemma commitOne_advances (w : World) (mon : Monster) :
  advances (grantFor monster) w (commitOne C w mon).
Proof.
  unfold commitOne.
  break_all;
    repeat first
      [ apply advances_set_Monsters
      | eapply advances_trans; [| apply advances_emit; grants] ].
Qed.

Lemma commitOne_frame (w : World) (mon : Monster) :
  Monsters (commitOne C w mon) = reg_insert mon (Monsters w) /\
  Players (commitOne C w mon) = Players w /\ Npc (commitOne C w mon) = Npc w.
Proof. unfold commitOne. break_all; cbn; auto. Qed.

Lemma commit_fold_registers (buffer : list Monster) :
  forall w i,
    In i (reg_ids (Monsters (fold_left (commitOne C) buffer w))) <->
    In i (reg_ids (Monsters w)) \/ In i (map (fun m => getId (base m)) buffer).
Proof.
  induction buffer as [| mon rest IH]; intros w i; cbn [fold_left map].
  - simpl. tauto.
  - rewrite IH. destruct (commitOne_frame w mon) as [-> _].
    rewrite reg_ids_insert. simpl. intuition.
Qed.

Lemma commitNewMonsters_world (w : World) :
  let w' := commitNewMonsters C w in
  advances (grantFor monster) w w' /\
  newMonsters w' = [] /\ Players w' = Players w /\ Npc w' = Npc w /\
  (forall i, In i (reg_ids (Monsters w')) <->
             In i (reg_ids (Monsters w)) \/
             In i (map (fun m => getId (base m)) (newMonsters w))).
Proof.
  unfold commitNewMonsters. cbv zeta.
  assert (Hadv : advances (grantFor monster) w (fold_left (commitOne C) (newMonsters w) w)).
  { apply (fold_left_rel (advances (grantFor monster)));
      [apply advances_refl | apply advances_trans | apply commitOne_advances]. }
  split; [| split; [| split; [| split]]].
  - destruct Hadv as (H1 & H2 & H3 & H4). repeat split; assumption.
  - reflexivity.
  - cbn. apply (fold_left_keeps Players). intros s x. apply commitOne_frame.
  - cbn. apply (fold_left_keeps Npc). intros s x. apply commitOne_frame.
  - intros i. cbn. apply commit_fold_registers.
Qed.

End MonsterStages.

(** ** What an insertion leaves to be found *)

Section RegistryInsert.
Context {A : Type} `{CharacterKind A}.

Lemma reg_find_app (i : Z) (a : A) (r l : registry A) :
  reg_find i r = Some a -> reg_find i (r ++ l) = Some a.
Proof.
  induction r as [| [k b] r IH]; cbn [reg_find app]; [discriminate |].
  destruct (k =? i); auto.
Qed.

Lemma reg_find_app_new (i : Z) (a : A) (r : registry A) :
  ~ In i (reg_ids r) -> reg_find i (r ++ [(i, a)]) = Some a.
Proof.
  unfold reg_ids. induction r as [| [k b] r IH]; cbn [reg_find app map fst]; intros Hnew.
  - now rewrite Z.eqb_refl.
  - destruct (Z.eqb_spec k i) as [-> | Hki].
    + exfalso. apply Hnew. now left.
    + apply IH. intros Hin. apply Hnew. now right.
Qed.

(** An entry that is found stays the entry found, whatever is inserted. *)
Lemma reg_find_insert_found (i : Z) (a b : A) (r : registry A) :
  reg_find i r = Some a -> reg_find i (reg_insert b r) = Some a.
Proof.
  intros Hfound. unfold reg_insert.
  destruct (reg_has (getId (base b)) r); [exact Hfound |].
  apply reg_find_app. exact Hfound.
Qed.

(** An entity whose identity is not registered is the entry found after its
    insertion. *)
Lemma reg_find_insert_new (a : A) (r : registry A) :
  ~ In (getId (base a)) (reg_ids r) ->
  reg_find (getId (base a)) (reg_insert a r) = Some a.
Proof.
  intros Hnew. unfold reg_insert.
  rewrite (proj2 (reg_has_false (getId (base a)) r) Hnew).
  apply reg_find_app_new. exact Hnew.
Qed.

End RegistryInsert.

(** ** New monsters enter the registry at the join point *)

Section JoinPoint.
Variable T : Tuning.
Variable C : Collaborators.
Variable env : Env.

(** Before the join point the registry holds no identity that it did not hold
    when the phase began. *)
Lemma beforeCommit_ids (w s : World) :
  beforeCommit T C env w s ->
  forall i, In i (reg_ids (Monsters s)) -> In i (reg_ids (Monsters w)).
Proof.
  destruct (spawnStage_world C env w) as (_ & _ & _ & _ & Hmon & _).
  assert (Hlow : Monsters (lowerAP (spawnStage C env w)) = Monsters w).
  { unfold lowerAP. destruct (ap (spawnStage C env w) >? 1); cbn; exact Hmon. }
  intros Hs i. destruct Hs as [| | | k w2 | k st].
  - auto.
  - rewrite Hmon. auto.
  - rewrite Hlow. auto.
  - destruct (visitMonsters_frame T C env (firstn k (reg_ids (Monsters w2))) (w2, []))
      as [Hids _].
    rewrite Hids. cbn [fst]. subst w2. rewrite Hlow. auto.
  - intros Hin.
    destruct (killMonsters_frame (firstn k (snd st)) (fst st)) as [Hsub _].
    apply Hsub in Hin. subst st. unfold monsterPass in Hin.
    destruct (visitMonsters_frame T C env
                (reg_ids (Monsters (lowerAP (spawnStage C env w))))
                (lowerAP (spawnStage C env w), [])) as [Hids _].
    rewrite Hids in Hin. cbn [fst] in Hin. rewrite Hlow in Hin. exact Hin.
Qed.

(** What waits in the buffer after the spawn points were run is registered
    when the phase ends, and the buffer is empty then. *)
Lemma checkMonsters_registers_buffer (w : World) (mon : Monster) :
  In mon (newMonsters (spawnStage C env w)) ->
  reg_has (getId (base mon)) (Monsters (checkMonsters T C env w)) = true /\
  newMonsters (checkMonsters T C env w) = [].
Proof.
  intros Hbuf. unfold checkMonsters.
  set (w2 := lowerAP (spawnStage C env w)).
  assert (Hbuf2 : In mon (newMonsters w2)).
  { subst w2. unfold lowerAP. destruct (ap (spawnStage C env w) >? 1); cbn; exact Hbuf. }
  unfold monsterPass.
  destruct (visitMonsters_frame T C env (reg_ids (Monsters w2)) (w2, []))
    as (_ & Hnew3 & _).
  destruct (fold_left (visitMonster T C env) (reg_ids (Monsters w2)) (w2, []))
    as [w3 dead].
  cbn [fst buryDead] in *.
  destruct (killMonsters_frame dead w3) as (_ & Hnew4 & _).
  destruct (commitNewMonsters_world C (fold_left killMonster dead w3))
    as (_ & Hempty & _ & _ & Hids).
  split; [| exact Hempty].
  apply reg_has_true. apply Hids. right. rewrite Hnew4, Hnew3.
  apply in_map_iff. exists mon. auto.
Qed.

(** The commit loop enters each monster of the buffer under its identity: a
    monster whose identity the registry does not hold, and that no other
    monster of the buffer shares, is the entry found under it afterwards. *)
Lemma commit_fold_keeps (buffer : list Monster) :
  forall (w : World) (i : Z) (mon : Monster),
    reg_find i (Monsters w) = Some mon ->
    reg_find i (Monsters (fold_left (commitOne C) buffer w)) = Some mon.
Proof.
  induction buffer as [| m rest IH]; intros w i mon Hfound; cbn [fold_left].
  - exact Hfound.
  - apply IH. destruct (commitOne_frame C w m) as [-> _].
    apply reg_find_insert_found. exact Hfound.
Qed.

Lemma commit_fold_finds (buffer : list Monster) :
  forall (w : World) (mon : Monster),
    In mon buffer ->
    ~ In (getId (base mon)) (reg_ids (Monsters w)) ->
    (forall other, In other buffer ->
                   getId (base other) = getId (base mon) -> other = mon) ->
    reg_find (getId (base mon)) (Monsters (fold_left (commitOne C) buffer w)) = Some mon.
Proof.
  induction buffer as [| m rest IH]; intros w mon Hin Hnew Hone; [contradiction |].
  cbn [fold_left].
  destruct (Z.eq_dec (getId (base m)) (getId (base mon))) as [Hsame | Hother].
  - assert (Hm : m = mon) by (apply Hone; [now left | exact Hsame]). subst m.
    apply commit_fold_keeps. destruct (commitOne_frame C w mon) as [-> _].
    apply reg_find_insert_new. exact Hnew.
  - apply IH.
    + destruct Hin as [-> | Hin]; [congruence | exact Hin].
    + destruct (commitOne_frame C w m) as [-> _]. rewrite reg_ids_insert.
      intros [Hold | Heq]; [contradiction | congruence].
    + intros other Hother_in. apply Hone. now right.
Qed.

(** What waits in the buffer after the spawn points were run, under an
    identity that the registry does not hold and that it shares with no other
    monster of the buffer, is the monster found under that identity when the
    phase ends. *)
Lemma checkMonsters_finds_buffer (w : World) (mon : Monster) :
  In mon (newMonsters (spawnStage C env w)) ->
  ~ In (getId (base mon)) (reg_ids (Monsters w)) ->
  (forall other, In other (newMonsters (spawnStage C env w)) ->
                 getId (base other) = getId (base mon) -> other = mon) ->
  reg_find (getId (base mon)) (Monsters (checkMonsters T C env w)) = Some mon.
Proof.
  intros Hbuf Hnew Hone.
  pose proof (beforeCommit_ids w _
                (at_burial T C env w
                   (List.length (snd (monsterPass T C env (lowerAP (spawnStage C env w)))))))
    as Hids.
  cbv zeta in Hids. rewrite firstn_all in Hids.
  unfold checkMonsters.
  set (w2 := lowerAP (spawnStage C env w)) in *.
  assert (Hn2 : newMonsters w2 = newMonsters (spawnStage C env w)).
  { subst w2. unfold lowerAP. destruct (ap (spawnStage C env w) >? 1); reflexivity. }
  unfold monsterPass in *.
  destruct (visitMonsters_frame T C env (reg_ids (Monsters w2)) (w2, []))
    as (_ & Hnew3 & _).
  destruct (fold_left (visitMonster T C env) (reg_ids (Monsters w2)) (w2, []))
    as [w3 dead].
  cbn [fst snd buryDead] in *.
  destruct (killMonsters_frame dead w3) as (_ & Hnew4 & _).
  unfold commitNewMonsters. cbv zeta. cbn [Monsters set_newMonsters].
  rewrite Hnew4, Hnew3, Hn2.
  apply commit_fold_finds; [exact Hbuf | | exact Hone].
  intros Hin. apply Hnew. apply Hids. exact Hin.
Qed.

(** C7.  A monster that a spawn point creates while the monster phase runs
    its spawn points (or that waits in the buffer when the phase begins), and
    whose identity the registry does not hold when the phase begins, is in the
    registry at no point of the phase before the join point; when the phase
    has passed its join point its identity is registered and the buffer is
    empty, and the entry registered under the identity is that very monster,
    no other monster of the buffer carrying its identity. *)
Theorem checkMonsters_commits_new_monsters (w : World) (mon : Monster) :
  (monstertimer_next env = true /\ isSpawnEnabled env = true /\
   exists spawn, In spawn (SpawnList w) /\ In mon (snd (SpawnPoint_spawn C spawn)))
  \/ In mon (newMonsters w) ->
  reg_has (getId (base mon)) (Monsters w) = false ->
  (forall s, beforeCommit T C env w s -> reg_has (getId (base mon)) (Monsters s) = false) /\
  reg_has (getId (base mon)) (Monsters (checkMonsters T C env w)) = true /\
  newMonsters (checkMonsters T C env w) = [] /\
  ((forall other, In other (newMonsters (spawnStage C env w)) ->
                  getId (base other) = getId (base mon) -> other = mon) ->
   reg_find (getId (base mon)) (Monsters (checkMonsters T C env w)) = Some mon).
Proof.
  intros Hbuffered Hfresh.
  assert (Hbuf : In mon (newMonsters (spawnStage C env w))).
  { destruct (spawnStage_world C env w) as (_ & _ & _ & _ & _ & _ & _ & Hold & Hnew).
    destruct Hbuffered as [(Htimer & Henabled & spawn & Hspawn & Hcreated) | Hwaiting].
    - apply (Hnew Htimer Henabled spawn mon Hspawn Hcreated).
    - apply Hold. exact Hwaiting. }
  split.
  - intros s Hs. apply reg_has_false. intros Hin.
    apply (beforeCommit_ids w s Hs) in Hin.
    apply reg_has_false in Hfresh. contradiction.
  - destruct (checkMonsters_registers_buffer w mon Hbuf) as [Hreg Hempty].
    split; [exact Hreg |]. split; [exact Hempty |].
    intros Hone. apply checkMonsters_finds_buffer; [exact Hbuf | | exact Hone].
    apply reg_has_false. exact Hfresh.
Qed.

End JoinPoint.

Lemma checkMonsters_commit_witness :
  reg_has 1000 (Monsters Sample.pack) = false /\
  reg_has 1000 (Monsters (spawnStage Sample.collaborators Fixture.env Sample.pack)) = false /\
  reg_find 1000
    (Monsters (checkMonsters Sample.tuning Sample.collaborators Fixture.env Sample.pack))
    = Some (Sample.wolf 1000 Sample.origin None 0 0).
Proof.
  pose (cub := Sample.wolf 1000 Sample.origin None 0 0).
  assert (Hfresh : reg_has (getId (base cub)) (Monsters Sample.pack) = false)
    by reflexivity.
  assert (Hcreated :
            (monstertimer_next Fixture.env = true /\ isSpawnEnabled Fixture.env = true /\
             exists spawn, In spawn (SpawnList Sample.pack) /\
                           In cub (snd (SpawnPoint_spawn Sample.collaborators spawn)))
            \/ In cub (newMonsters Sample.pack)).
  { left. split; [reflexivity |]. split; [reflexivity |].
    exists Sample.den. split; left; reflexivity. }
  destruct (checkMonsters_commits_new_monsters Sample.tuning Sample.collaborators
              Fixture.env Sample.pack cub Hcreated Hfresh)
    as [Hbefore [_ [_ Hfound]]].
  split; [exact Hfresh |]. split; [apply (Hbefore _ (at_spawned _ _ _ _)) |].
  apply Hfound. intros other Hin _.
  vm_compute in Hin. destruct Hin as [<- | []]. reflexivity.
Defined.

(** ** The NPC phase *)

Section NpcPhase.
Variable T : Tuning.
Variable C : Collaborators.

Lemma checkOneNPC_grants (b i : Z) (n : NPC) :
  Forall (grantFor npc b) (snd (checkOneNPC T C b i n)).
Proof.
  unfold checkOneNPC. break_all; cbn [fst snd];
    repeat (apply Forall_app; split); grants.
Qed.

Lemma checkOneNPC_grant (b i : Z) (n : NPC) :
  isAlive (base n) = true ->
  exists rest, snd (checkOneNPC T C b i n) = IncreaseActionPoints npc i b :: rest.
Proof.
  intros Halive. unfold checkOneNPC. rewrite Halive.
  break_all; cbn [fst snd app]; eexists; reflexivity.
Qed.

Lemma visitNPC_advances (w : World) (i : Z) :
  advances (grantFor npc) w (visitNPC T C w i).
Proof.
  unfold visitNPC. destruct (reg_find i (Npc w)) as [n |]; [| apply advances_refl].
  pose proof (checkOneNPC_grants (ap w) i n) as Hout.
  destruct (checkOneNPC T C (ap w) i n) as [n' out].
  cbn [snd] in Hout. repeat split. exists out. auto.
Qed.

Lemma visitNPCs_advance (ids : list Z) (w : World) :
  advances (grantFor npc) w (fold_left (visitNPC T C) ids w).
Proof.
  apply (fold_left_rel (advances (grantFor npc)));
    [apply advances_refl | apply advances_trans | apply visitNPC_advances].
Qed.

Lemma visitNPCs_grant (ids : list Z) :
  forall (w : World) (i : Z) (n : NPC),
    In i ids ->
    reg_find i (Npc w) = Some n ->
    isAlive (base n) = true ->
    In (IncreaseActionPoints npc i (ap w)) (since w (fold_left (visitNPC T C) ids w)).
Proof.
  induction ids as [| j rest IH]; intros w i n Hin Hfind Halive; [contradiction |].
  cbn [fold_left].
  rewrite (since_trans _ _ _ _ (visitNPC_advances w j)
             (visitNPCs_advance rest (visitNPC T C w j))).
  apply in_or_app.
  destruct (Z.eq_dec j i) as [-> | Hji].
  - left. unfold visitNPC. rewrite Hfind.
    destruct (checkOneNPC_grant (ap w) i n Halive) as [more Hout].
    destruct (checkOneNPC T C (ap w) i n) as [n' out]. cbn [snd] in Hout. subst out.
    erewrite since_app by reflexivity. left. reflexivity.
  - right.
    assert (Hin' : In i rest) by (destruct Hin; [congruence | assumption]).
    destruct (visitNPC_advances w j) as (_ & _ & Hap & _).
    rewrite <- Hap. apply (IH _ i n Hin'); try assumption.
    unfold visitNPC. destruct (reg_find j (Npc w)) as [nj |]; [| exact Hfind].
    destruct (checkOneNPC T C (ap w) j nj) as [n' out].
    cbn [emit set_Npc Npc]. rewrite reg_find_store_other by congruence. exact Hfind.
Qed.

Lemma checkNPC_advances (w : World) : advances (grantFor npc) w (checkNPC T C w).
Proof.
  unfold checkNPC. cbv zeta.
  eapply advances_trans; [apply advances_set_Npc | apply visitNPCs_advance].
Qed.

(** A live NPC that [deleteAllLostNPC] leaves in the registry is granted the
    budget. *)
Lemma checkNPC_grant (w : World) (i : Z) (n : NPC) :
  reg_find i (deleteAllLostNPC C (Npc w)) = Some n ->
  isAlive (base n) = true ->
  In (IncreaseActionPoints npc i (ap w)) (since w (checkNPC T C w)).
Proof.
  intros Hfind Halive. unfold checkNPC. cbv zeta.
  set (w1 := set_Npc (deleteAllLostNPC C (Npc w)) w).
  rewrite (since_trans _ _ _ _ (advances_set_Npc (grantFor npc) w _)
             (visitNPCs_advance (reg_ids (Npc w1)) w1)).
  apply in_or_app. right.
  apply (visitNPCs_grant (reg_ids (Npc w1)) w1 i n);
    [apply (reg_find_ids _ _ _ Hfind) | exact Hfind | exact Halive].
Qed.

End NpcPhase.

(** ** The monster phase as a whole *)

Section MonsterPhaseWhole.
Variable T : Tuning.
Variable C : Collaborators.
Variable env : Env.

Lemma checkMonsters_world (w : World) :
  let w' := checkMonsters T C env w in
  let lowered := if ap w >? 1 then ap w - 1 else ap w in
  timeStart w' = timeStart w /\ usedAP w' = usedAP w /\ ap w' = lowered /\
  Players w' = Players w /\ Npc w' = Npc w /\
  exists E, events w' = events w ++ E /\
            Forall (grantFor monster lowered) E /\
            (forall i mon, reg_find i (Monsters w) = Some mon ->
                           isAlive (base mon) = true ->
                           In (IncreaseActionPoints monster i lowered) E).
Proof.
  cbv zeta. unfold checkMonsters.
  destruct (spawnStage_world C env w)
    as (Ht1 & Hu1 & Ha1 & Hp1 & Hm1 & Hn1 & (E1 & He1 & HE1) & _ & _).
  set (w1 := spawnStage C env w) in *.
  set (w2 := lowerAP w1).
  assert (H2 : timeStart w2 = timeStart w1 /\ usedAP w2 = usedAP w1 /\
               ap w2 = (if ap w >? 1 then ap w - 1 else ap w) /\
               Players w2 = Players w1 /\ Monsters w2 = Monsters w1 /\
               Npc w2 = Npc w1 /\ events w2 = events w1).
  { subst w2. unfold lowerAP. rewrite Ha1. destruct (ap w >? 1); cbn; auto 10. }
  destruct H2 as (Ht2 & Hu2 & Ha2 & Hp2 & Hm2 & Hn2 & He2).
  unfold monsterPass.
  pose proof (visitMonsters_advance T C env (reg_ids (Monsters w2)) (w2, [])) as Hpass.
  destruct (visitMonsters_frame T C env (reg_ids (Monsters w2)) (w2, []))
    as (_ & _ & Hp3 & Hn3).
  pose proof (fun i mon Hfind =>
                visitMonsters_grant T C env (reg_ids (Monsters w2)) (w2, []) i mon
                  (reg_find_ids _ _ _ Hfind) Hfind) as Hgrant.
  destruct (fold_left (visitMonster T C env) (reg_ids (Monsters w2)) (w2, []))
    as [w3 dead].
  cbn [fst buryDead] in *.
  pose proof (killMonsters_advance dead w3) as Hbury.
  destruct (killMonsters_frame dead w3) as (_ & _ & Hp4 & Hn4).
  set (w4 := fold_left killMonster dead w3) in *.
  destruct (commitNewMonsters_world C w4) as (Hjoin & _ & Hp5 & Hn5 & _).
  set (w5 := commitNewMonsters C w4) in *.
  pose proof (advances_trans _ _ _ _ Hbury Hjoin) as Hrest.
  pose proof (advances_trans _ _ _ _ Hpass Hrest) as Hall.
  destruct Hall as (Ht5 & Hu5 & Ha5 & _).
  destruct (advances_since _ _ _ (advances_trans _ _ _ _ Hpass Hrest)) as [He5 HE5].
  repeat split; try congruence.
  exists (E1 ++ since w2 w5). split; [| split].
  - rewrite He5, He2, He1, app_assoc. reflexivity.
  - apply Forall_app. split.
    + eapply Forall_impl; [| exact HE1]. intros e (lvl & msg & ->). exact I.
    + rewrite <- Ha2. exact HE5.
  - intros i mon Hfind Halive. apply in_or_app. right.
    rewrite (since_trans _ _ _ _ Hpass Hrest). apply in_or_app. left.
    rewrite <- Ha2. apply (Hgrant i mon); [| exact Halive].
    rewrite Hm2, Hm1. exact Hfind.
Qed.

End MonsterPhaseWhole.

(** ** The tick governor *)

Lemma wrap_congr (w x : Z) : exists k, Mach.wrap w x = x + 2 ^ w * k.
Proof.
  unfold Mach.wrap. exists (- (x / 2 ^ w)).
  destruct (Z.eq_dec (2 ^ w) 0) as [E | E].
  - rewrite E. rewrite Z.mod_0_r. lia.
  - rewrite (Z.mod_eq x (2 ^ w)) by exact E. lia.
Qed.

Lemma signed_congr (w x : Z) : exists k, Mach.signed w x = x + 2 ^ w * k.
Proof.
  unfold Mach.signed. destruct (wrap_congr w x) as [k Hk]. cbv zeta. rewrite Hk.
  destruct (x + 2 ^ w * k <? 2 ^ (w - 1)).
  - exists k. reflexivity.
  - exists (k - 1). lia.
Qed.

Lemma signed_multiple (w k : Z) : 0 < w -> Mach.signed w (2 ^ w * k) = 0.
Proof.
  intros Hw. unfold Mach.signed, Mach.wrap.
  assert (Hpos : 0 < 2 ^ (w - 1)) by (apply Z.pow_pos_nonneg; lia).
  rewrite Z.mul_comm, Z.mod_mul by (apply Z.pow_nonzero; lia).
  destruct (Z.ltb_spec 0 (2 ^ (w - 1))); lia.
Qed.

(** [2 ^ 64] is a multiple of the modulus of each counter type. *)
Lemma bits_divide (t : Mach.int_type) : exists c, 2 ^ 64 = 2 ^ Mach.bits t * c.
Proof.
  destruct t; simpl.
  - exists (2 ^ 48). reflexivity.
  - exists (2 ^ 32). reflexivity.
  - exists 1. reflexivity.
Qed.

Lemma to_int_multiple (t : Mach.int_type) (x k : Z) :
  x = 2 ^ Mach.bits t * k -> Mach.to_int t x = 0.
Proof.
  intros ->. unfold Mach.to_int. apply signed_multiple. apply bits_pos.
Qed.

Lemma to_int_ulong (t : Mach.int_type) (x : Z) :
  Mach.to_int t (Mach.ulong x) = Mach.to_int t x.
Proof.
  unfold Mach.to_int, Mach.signed, Mach.ulong, Mach.wrap.
  destruct (bits_divide t) as [c Hc].
  assert (Hmod : (x mod 2 ^ 64) mod 2 ^ Mach.bits t = x mod 2 ^ Mach.bits t).
  { apply Z.mod_mod_divide. exists c. lia. }
  cbv zeta. rewrite Hmod. reflexivity.
Qed.

Section Governor.
Variable T : Tuning.
Variable C : Collaborators.
Variable env : Env.

(** With no budget the tick only records the computed value in [ap]. *)
Lemma turntheworld_idle (w : World) :
  available T env w <= 0 -> turntheworld T C env w = set_ap (available T env w) w.
Proof.
  intros Hb. unfold turntheworld. cbv zeta. cbn [ap set_ap].
  destruct (Z.gtb_spec (available T env w) 0); [lia | reflexivity].
Qed.

(** The world in which the three phases run. *)
Lemma turntheworld_phases (w : World) :
  0 < available T env w ->
  turntheworld T C env w =
    emit [stopTimer "cycle npc"]
      (checkNPC T C
         (emit [startTimer "cycle npc"]
            (emit [stopTimer "cycle monster"]
               (checkMonsters T C env
                  (emit [startTimer "cycle monster"]
                     (emit [stopTimer "cycle player"]
                        (checkPlayers T C env
                           (emit [startTimer "cycle player"]
                              (set_usedAP (Mach.ulong (usedAP w + available T env w))
                                 (set_ap (available T env w) w)))))))))).
Proof.
  intros Hb. unfold turntheworld. cbv zeta. cbn [ap set_ap].
  destruct (Z.gtb_spec (available T env w) 0); [reflexivity | lia].
Qed.

(** The tick never moves the start of the world, and adds to the consumed
    counter what it hands out. *)
Lemma turntheworld_counters (w : World) :
  timeStart (turntheworld T C env w) = timeStart w /\
  usedAP (turntheworld T C env w) =
    (if 0 <? available T env w
     then Mach.ulong (usedAP w + available T env w) else usedAP w).
Proof.
  destruct (Z.ltb_spec 0 (available T env w)) as [Hpos | Hle].
  - rewrite (turntheworld_phases w Hpos).
    match goal with |- context [checkPlayers T C env ?w0] =>
      destruct (checkPlayers_advances T C env w0) as (Ht1 & Hu1 & _);
      set (wp := checkPlayers T C env w0) in * end.
    match goal with |- context [checkMonsters T C env ?w0] =>
      destruct (checkMonsters_world T C env w0) as (Ht2 & Hu2 & _);
      set (wm := checkMonsters T C env w0) in * end.
    match goal with |- context [checkNPC T C ?w0] =>
      destruct (checkNPC_advances T C w0) as (Ht3 & Hu3 & _);
      set (wn := checkNPC T C w0) in * end.
    cbn [timeStart usedAP emit set_usedAP set_ap] in *. split; congruence.
  - rewrite (turntheworld_idle w Hle). split; reflexivity.
Qed.

End Governor.

(** The start of the world is a whole number of tick granularities when the
    granularity divides 1000, and no tick moves it. *)
Lemma World_new_granular (T : Tuning) (starttime ap0 : Z) :
  (MIN_AP_UPDATE T | 1000) ->
  0 <= starttime * 1000 < 2 ^ 64 ->
  (MIN_AP_UPDATE T | timeStart (World_new starttime ap0)).
Proof.
  intros Hdiv Hrange. cbn [timeStart World_new]. unfold Mach.ulong.
  rewrite wrap_small by exact Hrange. apply Z.divide_mul_r. exact Hdiv.
Qed.

Lemma turntheworld_keeps_timeStart (T : Tuning) (C : Collaborators) (env : Env)
    (w : World) :
  timeStart (turntheworld T C env w) = timeStart w.
Proof. apply turntheworld_counters. Qed.

(** The budget is read through the variable that holds it: the difference
    of line 181 is taken in [unsigned long] and stored in [ap], so what is
    left of it is its value in the width of [ap]. *)
Lemma to_int_ulong_minus (t : Mach.int_type) (x u : Z) :
  Mach.to_int t (Mach.ulong x - u) = Mach.to_int t (x - u).
Proof.
  unfold Mach.to_int, Mach.signed, Mach.ulong, Mach.wrap.
  destruct (bits_divide t) as [c Hc].
  assert (Hmod : (x mod 2 ^ 64 - u) mod 2 ^ Mach.bits t = (x - u) mod 2 ^ Mach.bits t).
  { rewrite (Zminus_mod (x mod 2 ^ 64)), (Zminus_mod x).
    rewrite (Z.mod_mod_divide x (2 ^ 64) (2 ^ Mach.bits t)) by (exists c; lia).
    reflexivity. }
  cbv zeta. rewrite Hmod. reflexivity.
Qed.

Lemma available_wraps (T : Tuning) (env : Env) (w : World) :
  let wall := tb_time (now env) * 1000 + millitm (now env) in
  let granularity := MIN_AP_UPDATE T in
  0 < granularity ->
  (granularity | timeStart w) ->
  0 <= wall < 2 ^ 64 ->
  available T env w
  = Mach.to_int (ap_type T) ((wall - timeStart w) / granularity - usedAP w).
Proof.
  intros wall granularity Hg [k Hk] Hwall.
  assert (Hsplit : wall / granularity - timeStart w / granularity
                   = (wall - timeStart w) / granularity).
  { rewrite Hk. rewrite Z.div_mul by lia.
    replace wall with ((wall - k * granularity) + k * granularity) at 1 by lia.
    rewrite Z.div_add by lia. lia. }
  unfold available. rewrite to_int_ulong, to_int_ulong_minus.
  unfold timeNow, Mach.ulong. fold wall. fold granularity.
  rewrite (wrap_small 64 wall) by lia. rewrite Hsplit. reflexivity.
Qed.

(** C1, as amended.  In every call of the tick governor in which the whole
    number of tick granularities in the milliseconds elapsed since the start
    of the world, less the consumed counter, is a value that the budget
    variable [ap] holds, the budget computed is exactly that value.  A
    positive budget is added to the consumed counter; with a budget that is
    not positive the call leaves the world as it was, no phase running, but
    for the value recorded in [ap].  The start of the world is a whole number
    of granularities (it is a whole number of seconds, and the granularity
    divides 1000), and the clock is a value its variable holds. *)
Theorem turntheworld_budget (T : Tuning) (C : Collaborators) (env : Env) (w : World) :
  let wall := tb_time (now env) * 1000 + millitm (now env) in
  let granularity := MIN_AP_UPDATE T in
  let budget := (wall - timeStart w) / granularity - usedAP w in
  0 < granularity ->
  (granularity | timeStart w) ->
  0 <= timeStart w ->
  0 <= wall < 2 ^ 64 ->
  0 <= usedAP w ->
  Mach.fits (ap_type T) budget ->
  available T env w = budget /\
  (0 < budget -> usedAP (turntheworld T C env w) = usedAP w + budget) /\
  (budget <= 0 -> turntheworld T C env w = set_ap budget w).
Proof.
  intros wall granularity budget Hg Hdiv Hstart Hwall Hused Hfits.
  assert (Havail : available T env w = budget).
  { rewrite (available_wraps T env w Hg Hdiv Hwall). apply to_int_fits. exact Hfits. }
  split; [exact Havail |]. split.
  - intros Hpos. destruct (turntheworld_counters T C env w) as [_ Hu].
    rewrite Hu, Havail. destruct (Z.ltb_spec 0 budget); [| lia].
    apply wrap_small. subst budget.
    assert (Hq : 0 < (wall - timeStart w) / granularity) by lia.
    assert (Helapsed : 0 <= wall - timeStart w).
    { destruct (Z.lt_ge_cases (wall - timeStart w) 0) as [Hneg | Hok]; [| exact Hok].
      pose proof (Z.div_lt_upper_bound (wall - timeStart w) granularity 0 Hg
                    ltac:(lia)). lia. }
    pose proof (Z.mul_div_le (wall - timeStart w) granularity Hg). nia.
  - intros Hle. rewrite <- Havail. apply turntheworld_idle. lia.
Qed.

Lemma turntheworld_budget_witness :
  available Sample.tuning Fixture.env Square.world = 2 /\
  usedAP (turntheworld Sample.tuning Sample.collaborators Fixture.env Square.world) = 2.
Proof.
  assert (Hdiv : (MIN_AP_UPDATE Sample.tuning | timeStart Square.world))
    by (exists 50; reflexivity).
  assert (Hfits : Mach.fits (ap_type Sample.tuning) 2)
    by (vm_compute; split; (reflexivity || discriminate)).
  destruct (turntheworld_budget Sample.tuning Sample.collaborators Fixture.env
              Square.world) as [Havail [Hused _]];
    [ reflexivity | exact Hdiv
    | vm_compute; discriminate
    | vm_compute; split; [discriminate | reflexivity]
    | vm_compute; discriminate
    | exact Hfits | ].
  split; [exact Havail | apply Hused; reflexivity].
Defined.

(** Whatever the width of the budget variable is, there is a call whose
    value it does not hold: with a granularity of one millisecond, a world
    that started at 0 and has consumed nothing computes at the clock
    [2 ^ (w - 1)] the budget [- 2 ^ (w - 1)]. *)
Lemma available_overflows_any_width (t : Mach.int_type) :
  let T := {| MIN_AP_UPDATE := 1; CLIENT_TIMEOUT := 50; MONSTERVIEWRANGE := 11;
              MAXHPS := 10000; ap_type := t; Range_init := mkRange 0 2 |} in
  let env := {| now := mkTimeb (2 ^ (Mach.bits t - 1) / 1000)
                               (2 ^ (Mach.bits t - 1) mod 1000);
                tempkeepalive := 0; monstertimer_next := false;
                isSpawnEnabled := false; uniform_1_25 := fun _ => 1;
                uniform_0_7 := fun _ => dir_north |} in
  let w := World_new 0 0 in
  (tb_time (now env) * 1000 + millitm (now env) - timeStart w) / MIN_AP_UPDATE T
  - usedAP w = 2 ^ (Mach.bits t - 1) /\
  available T env w = - 2 ^ (Mach.bits t - 1).
Proof. destruct t; split; vm_compute; reflexivity. Qed.

(** C1, as the specification words it, fails where the value does not fit the
    budget variable.  With a budget variable of 16 bits and 4000 seconds
    between the start of the world and the call, the elapsed granularities
    less the consumed counter are 40000; the budget computed is -25536, and
    no phase runs and the consumed counter stays 0.  With the clock at the
    start of the world and a consumed counter of 40000 the value is -40000;
    the budget computed is 25536, the phases run with it and it is added to
    the consumed counter. *)
Lemma turntheworld_budget_overflows :
  let late :=
    {| now := mkTimeb 4005 0; tempkeepalive := 100; monstertimer_next := false;
       isSpawnEnabled := true; uniform_1_25 := fun _ => 25;
       uniform_0_7 := fun _ => dir_east |} in
  let early :=
    {| now := mkTimeb 5 0; tempkeepalive := 100; monstertimer_next := false;
       isSpawnEnabled := true; uniform_1_25 := fun _ => 25;
       uniform_0_7 := fun _ => dir_east |} in
  let spent := set_usedAP 40000 Square.world in
  ((4005 * 1000 + 0 - timeStart Square.world) / MIN_AP_UPDATE Sample.tuning
   - usedAP Square.world = 40000 /\
   available Sample.tuning late Square.world = -25536 /\
   turntheworld Sample.tuning Sample.collaborators late Square.world
   = set_ap (-25536) Square.world) /\
  ((5 * 1000 + 0 - timeStart spent) / MIN_AP_UPDATE Sample.tuning - usedAP spent
   = -40000 /\
   available Sample.tuning early spent = 25536 /\
   usedAP (turntheworld Sample.tuning Sample.collaborators early spent) = 65536 /\
   In (IncreaseActionPoints player 10 25536)
      (events (turntheworld Sample.tuning Sample.collaborators early spent))).
Proof.
  split; [split; [reflexivity | split; [reflexivity | vm_compute; reflexivity]] |].
  split; [reflexivity | split; [reflexivity | split; [vm_compute; reflexivity |]]].
  vm_compute. right. left. reflexivity.
Qed.

(** C8.  A call of the tick governor made at the instant of the call before
    it computes a budget that is not positive, and changes nothing but the
    value recorded in [ap]: no phase runs, no event is emitted, and the
    consumed counter and the registries stay as they are. *)
Theorem turntheworld_again_is_idle (T : Tuning) (C : Collaborators) (env : Env)
    (w : World) :
  let w1 := turntheworld T C env w in
  let w2 := turntheworld T C env w1 in
  available T env w1 <= 0 /\
  w2 = set_ap (available T env w1) w1 /\
  usedAP w2 = usedAP w1 /\ events w2 = events w1 /\
  Players w2 = Players w1 /\ Monsters w2 = Monsters w1 /\ Npc w2 = Npc w1.
Proof.
  intros w1 w2.
  assert (Hidle : available T env w1 <= 0).
  { destruct (turntheworld_counters T C env w) as [Ht Hu]. fold w1 in Ht, Hu.
    destruct (Z.ltb_spec 0 (available T env w)) as [Hpos | Hle].
    - unfold available at 1. rewrite Ht, Hu. rewrite to_int_ulong.
      set (q := Mach.ulong (timeNow env / MIN_AP_UPDATE T - timeStart w / MIN_AP_UPDATE T)).
      assert (Hb : exists k, available T env w = q - usedAP w + 2 ^ Mach.bits (ap_type T) * k).
      { unfold available. fold q. rewrite to_int_ulong. apply signed_congr. }
      destruct Hb as [k1 Hb].
      destruct (wrap_congr 64 (usedAP w + available T env w)) as [k3 Hk3].
      destruct (bits_divide (ap_type T)) as [c Hc].
      unfold Mach.ulong at 1. rewrite Hk3, Hb, Hc.
      rewrite (to_int_multiple (ap_type T) _ (- k1 - c * k3)); [lia | ring].
    - subst w1. rewrite (turntheworld_idle T C env w Hle).
      replace (available T env (set_ap (available T env w) w)) with (available T env w)
        by reflexivity.
      exact Hle. }
  assert (Hw2 : w2 = set_ap (available T env w1) w1)
    by (apply turntheworld_idle; exact Hidle).
  split; [exact Hidle |]. split; [exact Hw2 |]. rewrite Hw2. repeat split.
Qed.

(** C2, as the code has it.  A tick with a positive budget runs the player
    phase, the monster phase and the NPC phase in this order.  The player
    phase grants the budget to every player that is online and within the
    keep-alive window.  The monster phase first lowers the budget by one when
    it is above 1; the lowered budget is what it grants to every live monster
    and what the NPC phase after it grants to every live NPC.  No phase grants
    any other amount, but for the wander penalty of 20 action points that the
    monster phase takes from a monster it steps at random. *)
Theorem turntheworld_phase_budgets (T : Tuning) (C : Collaborators) (env : Env)
    (w : World) :
  let budget := available T env w in
  let lowered := if budget >? 1 then budget - 1 else budget in
  0 < budget ->
  exists Ep Em En,
    events (turntheworld T C env w)
      = events w ++ [startTimer "cycle player"] ++ Ep
          ++ [stopTimer "cycle player"; startTimer "cycle monster"] ++ Em
          ++ [stopTimer "cycle monster"; startTimer "cycle npc"] ++ En
          ++ [stopTimer "cycle npc"] /\
    Forall (grantFor player budget) Ep /\
    (forall i pl,
       reg_find i (Players w) = Some pl ->
       online pl = true ->
       0 <= Mach.int32 (tempkeepalive env - lastkeepalive pl) <= CLIENT_TIMEOUT T ->
       In (IncreaseActionPoints player i budget) Ep) /\
    Forall (grantFor monster lowered) Em /\
    (forall i mon,
       reg_find i (Monsters w) = Some mon ->
       isAlive (base mon) = true ->
       In (IncreaseActionPoints monster i lowered) Em) /\
    Forall (grantFor npc lowered) En /\
    (forall i n,
       reg_find i (deleteAllLostNPC C (Npc w)) = Some n ->
       isAlive (base n) = true ->
       In (IncreaseActionPoints npc i lowered) En).
Proof.
  intros budget lowered Hpos. rewrite (turntheworld_phases T C env w Hpos). fold budget.
  set (wa := emit [startTimer "cycle player"]
               (set_usedAP (Mach.ulong (usedAP w + budget)) (set_ap budget w))).
  (* the player phase *)
  pose proof (checkPlayers_advances T C env wa) as Hp.
  destruct (checkPlayers_frame T C env wa) as (Hpm & Hpn & _).
  pose proof (checkPlayers_grant T C env wa) as Hpg.
  destruct (advances_since _ _ _ Hp) as [Hpe HpE].
  destruct Hp as (_ & _ & Hpa & _).
  set (wb := checkPlayers T C env wa) in *.
  (* the monster phase *)
  set (wd := emit [startTimer "cycle monster"] (emit [stopTimer "cycle player"] wb)).
  destruct (checkMonsters_world T C env wd)
    as (_ & _ & Hma & _ & Hmn & Em & Hme & HmE & Hmg).
  set (we := checkMonsters T C env wd) in *.
  (* the NPC phase *)
  set (wg := emit [startTimer "cycle npc"] (emit [stopTimer "cycle monster"] we)).
  pose proof (checkNPC_advances T C wg) as Hn.
  pose proof (checkNPC_grant T C wg) as Hng.
  destruct (advances_since _ _ _ Hn) as [Hne HnE].
  set (wh := checkNPC T C wg) in *.
  assert (Hbudget : ap wd = budget) by (cbn [ap emit wd]; rewrite Hpa; reflexivity).
  rewrite Hbudget in *. fold lowered in Hma, HmE, Hmg.
  assert (Hlowered : ap wg = lowered) by (cbn [ap emit wg]; exact Hma).
  rewrite Hlowered in *.
  exists (since wa wb), Em, (since wg wh).
  split; [| split; [| split; [| split; [| split; [| split]]]]].
  - cbn [events emit]. rewrite Hne. cbn [events emit wg]. rewrite Hme.
    cbn [events emit wd]. rewrite Hpe. cbn [events emit wa set_usedAP set_ap].
    rewrite <- !app_assoc. reflexivity.
  - exact HpE.
  - intros i pl Hfind Honline Htime. apply (Hpg i pl); assumption.
  - exact HmE.
  - intros i mon Hfind Halive. apply (Hmg i mon); [| exact Halive].
    cbn [Monsters emit wd]. rewrite Hpm. exact Hfind.
  - exact HnE.
  - intros i n Hfind Halive. apply (Hng i n); [| exact Halive].
    cbn [Npc emit wg]. rewrite Hmn. cbn [Npc emit wd]. rewrite Hpn. exact Hfind.
Qed.

Lemma turntheworld_phase_budgets_witness :
  0 < available Sample.tuning Fixture.env Square.world /\
  exists Ep Em En,
    events (turntheworld Sample.tuning Sample.collaborators Fixture.env Square.world)
      = [startTimer "cycle player"] ++ Ep
          ++ [stopTimer "cycle player"; startTimer "cycle monster"] ++ Em
          ++ [stopTimer "cycle monster"; startTimer "cycle npc"] ++ En
          ++ [stopTimer "cycle npc"] /\
    In (IncreaseActionPoints player 10 2) Ep /\
    In (IncreaseActionPoints monster 30 1) Em /\
    In (IncreaseActionPoints npc 20 1) En.
Proof.
  assert (Hpos : 0 < available Sample.tuning Fixture.env Square.world) by reflexivity.
  split; [exact Hpos |].
  destruct (turntheworld_phase_budgets Sample.tuning Sample.collaborators Fixture.env
              Square.world Hpos)
    as (Ep & Em & En & Hev & _ & Hp & _ & Hm & _ & Hn).
  exists Ep, Em, En. split; [exact Hev |]. split; [| split].
  - apply (Hp 10 Square.walker eq_refl eq_refl). vm_compute. split; discriminate.
  - apply (Hm 30 Square.howler eq_refl eq_refl).
  - apply (Hn 20 Square.guard eq_refl eq_refl).
Defined.

(** C2, as the specification words it, fails: in a tick with budget 2 the
    player is granted 2 action points, and the monsters and the NPC are
    granted 1. *)
Lemma turntheworld_lowers_budget_after_players :
  let ticked := turntheworld Sample.tuning Sample.collaborators Fixture.env Square.world in
  available Sample.tuning Fixture.env Square.world = 2 /\
  events ticked =
    [ startTimer "cycle player";
      IncreaseActionPoints player 10 2; IncreaseFightPoints player 10 2;
      stopTimer "cycle player";
      startTimer "cycle monster";
      IncreaseActionPoints monster 30 1; IncreaseFightPoints monster 30 1;
      CharacterAttacks 30;
      IncreaseActionPoints monster 31 1; IncreaseFightPoints monster 31 1;
      CharacterAttacks 31;
      SendCharacterMove 1000;
      stopTimer "cycle monster";
      startTimer "cycle npc";
      IncreaseActionPoints npc 20 1; Hook "nextCycle" 20;
      stopTimer "cycle npc" ] /\
  ~ In (IncreaseActionPoints monster 30 2) (events ticked) /\
  ~ In (IncreaseActionPoints npc 20 2) (events ticked).
Proof.
  split; [reflexivity |]. split; [vm_compute; reflexivity |].
  split; vm_compute; intuition discriminate.
Qed.

(** * Further properties of the two files *)

(** ** More on registries *)

Section RegistryMore.
Context {A : Type} `{CharacterKind A}.

Lemma reg_find_store_same (i : Z) (a : A) (r : registry A) :
  reg_find i (reg_store i a r)
    = match reg_find i r with Some _ => Some a | None => None end.
Proof.
  unfold reg_store. induction r as [| [k b] r IH]; simpl; [reflexivity |].
  destruct (Z.eqb_spec k i) as [-> | Hki]; simpl.
  - rewrite Z.eqb_refl. reflexivity.
  - destruct (Z.eqb_spec k i); [contradiction | exact IH].
Qed.

Lemma reg_find_erase_other (i j : Z) (r : registry A) :
  i <> j -> reg_find i (reg_erase j r) = reg_find i r.
Proof.
  intros Hij. unfold reg_erase. induction r as [| [k b] r IH]; simpl; [reflexivity |].
  destruct (Z.eqb_spec k j) as [-> | Hkj]; simpl.
  - destruct (Z.eqb_spec j i); [congruence | exact IH].
  - rewrite IH. reflexivity.
Qed.

Lemma reg_ids_erase_iff (i j : Z) (r : registry A) :
  In i (reg_ids (reg_erase j r)) <-> In i (reg_ids r) /\ i <> j.
Proof.
  unfold reg_ids, reg_erase. rewrite !in_map_iff. split.
  - intros [e [He Hin]]. apply filter_In in Hin. destruct Hin as [Hin Hne].
    apply negb_true_iff, Z.eqb_neq in Hne. split; [exists e; auto | congruence].
  - intros [[e [He Hin]] Hne]. exists e. split; [exact He |].
    apply filter_In. split; [exact Hin |].
    apply negb_true_iff, Z.eqb_neq. congruence.
Qed.

Lemma reg_find_none (i : Z) (r : registry A) :
  reg_find i r = None <-> ~ In i (reg_ids r).
Proof.
  unfold reg_ids. induction r as [| [k b] r IH]; simpl; [tauto |].
  destruct (Z.eqb_spec k i) as [-> | Hki].
  - split; [discriminate | intros Hn; exfalso; apply Hn; now left].
  - rewrite IH. tauto.
Qed.

End RegistryMore.

Lemma flat_map_ext_in {X Y : Type} (f g : X -> list Y) (l : list X) :
  (forall x, In x l -> f x = g x) -> flat_map f l = flat_map g l.
Proof.
  induction l as [| x l IH]; intros Hfg; simpl; [reflexivity |].
  rewrite (Hfg x (or_introl eq_refl)), IH; [reflexivity |].
  intros y Hy. apply Hfg. now right.
Qed.

(** ** The player pass, visit by visit *)

Section PlayerPass.
Variable T : Tuning.
Variable C : Collaborators.
Variable env : Env.

Lemma visitPlayer_found (w : World) (lost : list Z) (i : Z) (p : Player) :
  reg_find i (Players w) = Some p ->
  let r := checkPlayer T C env (ap w) i p in
  visitPlayer T C env (w, lost) i
    = (emit (snd (fst r)) (set_Players (reg_store i (fst (fst r)) (Players w)) w),
       if snd r then lost ++ [getId (base (fst (fst r)))] else lost).
Proof.
  intros Hfind r. subst r. unfold visitPlayer. rewrite Hfind.
  destruct (checkPlayer T C env (ap w) i p) as [[p' out] gone]. reflexivity.
Qed.

(** With every identity visited once, the pass is the sum of its visits, each
    as if it were the first. *)
Lemma visitPlayers_pass (ids : list Z) :
  NoDup ids ->
  forall (w : World) (lost : list Z),
    let st := fold_left (visitPlayer T C env) ids (w, lost) in
    since w (fst st) = flat_map (playerOut T C env w) ids /\
    snd st = lost ++ flat_map (playerLost T C env w) ids /\
    (forall k, ~ In k ids -> reg_find k (Players (fst st)) = reg_find k (Players w)) /\
    (forall k p, In k ids -> reg_find k (Players w) = Some p ->
       reg_find k (Players (fst st))
         = Some (fst (fst (checkPlayer T C env (ap w) k p)))).
Proof.
  induction ids as [| j rest IH]; intros Hnodup w lost; cbn [fold_left flat_map].
  - cbv zeta. cbn [fst snd]. rewrite app_nil_r.
    split; [apply since_app; now rewrite app_nil_r |].
    split; [reflexivity |]. split; [reflexivity | intros k p []].
  - inversion Hnodup as [| j' rest' Hj Hrest]; subst.
    cbv zeta.
    pose proof (visitPlayer_advances T C env (w, lost) j) as Hadv1.
    pose proof (visitPlayers_advance T C env rest (visitPlayer T C env (w, lost) j))
      as Hadv2.
    pose proof (since_trans _ _ _ _ Hadv1 Hadv2) as Hsplit.
    cbn [fst] in Hsplit. rewrite Hsplit. clear Hsplit Hadv1 Hadv2.
    unfold playerOut at 1, playerLost at 1.
    destruct (reg_find j (Players w)) as [pj |] eqn:Hfind.
    + rewrite (visitPlayer_found w lost j pj Hfind) in *.
      set (r := checkPlayer T C env (ap w) j pj) in *. cbv zeta in *.
      set (w1 := emit (snd (fst r)) (set_Players (reg_store j (fst (fst r)) (Players w)) w))
        in *.
      set (lost1 := if snd r then lost ++ [getId (base (fst (fst r)))] else lost) in *.
      destruct (IH Hrest w1 lost1) as (Hev & Hlost & Hout & Hin). cbv zeta in *.
      cbn [fst] in *.
      assert (Hother : forall k, k <> j -> reg_find k (Players w1) = reg_find k (Players w)).
      { intros k Hk. subst w1. cbn [Players emit set_Players].
        apply reg_find_store_other. exact Hk. }
      assert (Hsame : forall k, In k rest ->
                playerOut T C env w1 k = playerOut T C env w k /\
                playerLost T C env w1 k = playerLost T C env w k).
      { intros k Hk. unfold playerOut, playerLost.
        rewrite Hother by (intros ->; contradiction). split; reflexivity. }
      split; [| split; [| split]].
      * rewrite Hev. f_equal.
        -- apply since_app. reflexivity.
        -- apply flat_map_ext_in. intros k Hk. apply Hsame. exact Hk.
      * rewrite Hlost.
        rewrite (flat_map_ext_in (playerLost T C env w1) (playerLost T C env w) rest)
          by (intros k Hk; apply Hsame; exact Hk).
        subst lost1. destruct (snd r); [rewrite <- app_assoc |]; reflexivity.
      * intros k Hk. rewrite Hout by (intros Hin'; apply Hk; now right).
        apply Hother. intros ->. apply Hk. now left.
      * intros k p [<- | Hk] Hp.
        -- rewrite Hout by exact Hj. subst w1. cbn [Players emit set_Players].
           rewrite reg_find_store_same, Hfind. subst r. congruence.
        -- assert (Hkj : k <> j) by (intros ->; contradiction).
           apply Hin; [exact Hk | rewrite Hother by exact Hkj; exact Hp].
    + assert (Hskip : visitPlayer T C env (w, lost) j = (w, lost)).
      { unfold visitPlayer. rewrite Hfind. reflexivity. }
      rewrite Hskip in *.
      destruct (IH Hrest w lost) as (Hev & Hlost & Hout & Hin). cbv zeta in *.
      cbn [fst app] in *.
      split; [| split; [| split]].
      * rewrite Hev. replace (since w w) with (@nil Event); [reflexivity |].
        symmetry. apply since_app. now rewrite app_nil_r.
      * exact Hlost.
      * intros k Hk. apply Hout. intros Hin'. apply Hk. now right.
      * intros k p [<- | Hk] Hp; [congruence | apply Hin; assumption].
Qed.

End PlayerPass.

Section PlayerFacts.
Variable T : Tuning.
Variable C : Collaborators.
Variable env : Env.

Lemma checkPlayer_lost (b k : Z) (p : Player) :
  snd (checkPlayer T C env b k p) = negb (online p) /\
  (online p = false -> fst (fst (checkPlayer T C env b k p)) = p).
Proof.
  unfold checkPlayer. destruct (online p); cbv zeta.
  - destruct (_ && _); split; (reflexivity || discriminate).
  - split; [reflexivity | intros _; reflexivity].
Qed.

Lemma checkPlayer_timed_out (b k : Z) (p : Player) :
  online p = true -> ~ inWindow T env p ->
  checkPlayer T C env b k p
    = (p, [Log info "timed out"; ShutdownSend (getId (base p))], false).
Proof.
  intros Hon Hout. unfold checkPlayer. rewrite Hon. cbv zeta.
  destruct (_ && _) eqn:E; [| reflexivity].
  apply andb_true_iff in E. destruct E as [E1 E2].
  apply Z.geb_le in E1. apply Z.leb_le in E2. exfalso. apply Hout. split; assumption.
Qed.

Lemma checkPlayer_in_window (b k : Z) (p : Player) :
  online p = true -> inWindow T env p ->
  snd (fst (checkPlayer T C env b k p))
    = [IncreaseActionPoints player k b; IncreaseFightPoints player k b].
Proof.
  intros Hon [H1 H2]. unfold checkPlayer. rewrite Hon. cbv zeta.
  replace (_ && _) with true; [reflexivity |].
  symmetry. apply andb_true_iff. split; [apply Z.geb_le | apply Z.leb_le]; assumption.
Qed.

Lemma inWindow_dec (p : Player) : inWindow T env p \/ ~ inWindow T env p.
Proof. unfold inWindow. lia. Qed.

Lemma erasePlayers_registry (lost : list Z) :
  forall w,
    let w' := fold_left (fun w i => set_Players (reg_erase i (Players w)) w) lost w in
    (forall i, In i (reg_ids (Players w')) <-> In i (reg_ids (Players w)) /\ ~ In i lost) /\
    (forall i, ~ In i lost -> reg_find i (Players w') = reg_find i (Players w)).
Proof.
  induction lost as [| j lost IH]; intros w; cbn [fold_left].
  - cbv zeta. split; [intros i; simpl; tauto | reflexivity].
  - destruct (IH (set_Players (reg_erase j (Players w)) w)) as [Hids Hfind].
    cbv zeta in *. cbn [Players set_Players] in *. split.
    + intros i. rewrite Hids, reg_ids_erase_iff. simpl. intuition.
    + intros i Hi. rewrite Hfind by (intros Hin; apply Hi; now right).
      apply reg_find_erase_other. intros ->. apply Hi. now left.
Qed.

Lemma checkPlayers_since (w : World) :
  NoDup (reg_ids (Players w)) ->
  since w (checkPlayers T C env w)
    = flat_map (playerOut T C env w) (reg_ids (Players w)).
Proof.
  intros Hnodup. unfold checkPlayers.
  destruct (fold_left (visitPlayer T C env) (reg_ids (Players w)) (w, [])) as [w1 lost] eqn:E.
  unfold since. rewrite erasePlayers_events. fold (since w w1).
  replace w1 with (fst (fold_left (visitPlayer T C env) (reg_ids (Players w)) (w, [])))
    by (rewrite E; reflexivity).
  apply (visitPlayers_pass T C env _ Hnodup w []).
Qed.

End PlayerFacts.

Lemma reg_find_some {A : Type} `{CharacterKind A} (i : Z) (r : registry A) :
  In i (reg_ids r) -> exists a, reg_find i r = Some a.
Proof.
  intros Hin. destruct (reg_find i r) as [a |] eqn:E; [eauto |].
  apply reg_find_none in E. contradiction.
Qed.

Section PlayerRemoval.
Variable T : Tuning.
Variable C : Collaborators.
Variable env : Env.

(** What the pass puts on [lostPlayers]: the identities of the offline
    players. *)
Lemma playerLost_offline (w : World) (k x : Z) :
  keyedById (Players w) ->
  (In x (playerLost T C env w k) <->
   x = k /\ exists p, reg_find k (Players w) = Some p /\ online p = false).
Proof.
  intros Hkeyed. unfold playerLost.
  destruct (reg_find k (Players w)) as [p |] eqn:Hfind.
  - destruct (checkPlayer_lost T C env (ap w) k p) as [Hgone Hsame]. rewrite Hgone.
    destruct (online p) eqn:Hon; cbn [negb].
    + simpl. split; [tauto |]. intros [_ [q [Hq Hoff]]]. congruence.
    + rewrite (Hsame eq_refl). rewrite (Hkeyed k p Hfind). simpl. split.
      * intros [<- | []]. split; [reflexivity | eauto].
      * intros [-> _]. now left.
  - simpl. split; [tauto |]. intros [_ [q [Hq _]]]. discriminate.
Qed.

(** X1.  With every identity registered once and under its own identity, the
    player phase leaves in the registry exactly the players that were online
    when it began: it erases every offline player and no other. *)
Theorem checkPlayers_erases_the_offline (w : World) (i : Z) (pl : Player) :
  NoDup (reg_ids (Players w)) ->
  keyedById (Players w) ->
  reg_find i (Players w) = Some pl ->
  reg_has i (Players (checkPlayers T C env w)) = online pl.
Proof.
  intros Hnodup Hkeyed Hfind. unfold checkPlayers.
  destruct (visitPlayers_pass T C env (reg_ids (Players w)) Hnodup w [])
    as (_ & Hlost & Hout & Hin).
  destruct (fold_left (visitPlayer T C env) (reg_ids (Players w)) (w, [])) as [w1 lost].
  cbv zeta in *. cbn [fst snd app] in *.
  destruct (erasePlayers_registry lost w1) as [Hids _]. cbv zeta in Hids.
  assert (Hreg : In i (reg_ids (Players w1))).
  { destruct (reg_find i (Players w1)) eqn:E; [apply (reg_find_ids _ _ _ E) |].
    rewrite (Hin i pl (reg_find_ids _ _ _ Hfind) Hfind) in E. discriminate. }
  assert (Hmember : In i lost <-> online pl = false).
  { rewrite Hlost, in_flat_map. split.
    - intros [k [_ Hk]]. apply (playerLost_offline w k i Hkeyed) in Hk.
      destruct Hk as [-> [p [Hp Hoff]]]. congruence.
    - intros Hoff. exists i. split; [apply (reg_find_ids _ _ _ Hfind) |].
      apply (playerLost_offline w i i Hkeyed). split; [reflexivity | eauto]. }
  destruct (online pl).
  - apply reg_has_true. apply Hids. split; [exact Hreg |].
    intros Hl. apply Hmember in Hl. discriminate.
  - apply reg_has_false. intros Hl. apply Hids in Hl. destruct Hl as [_ Hl].
    apply Hl. apply Hmember. reflexivity.
Qed.

(** X2.  With every identity registered once and under its own identity, a
    registered player is sent the forced log-out exactly when it is online
    and its last keep-alive lies outside the window from 0 to the client
    timeout, and is granted the budget exactly when it is online and
    inside the window.  A player that is logged out this way is left in the
    registry as it was. *)
Theorem checkPlayers_logs_out_the_silent (w : World) (i : Z) (pl : Player) :
  NoDup (reg_ids (Players w)) ->
  keyedById (Players w) ->
  reg_find i (Players w) = Some pl ->
  let emitted := since w (checkPlayers T C env w) in
  (In (ShutdownSend i) emitted <-> online pl = true /\ ~ inWindow T env pl) /\
  (In (IncreaseActionPoints player i (ap w)) emitted
     <-> online pl = true /\ inWindow T env pl) /\
  (online pl = true -> ~ inWindow T env pl ->
   reg_find i (Players (checkPlayers T C env w)) = Some pl).
Proof.
  intros Hnodup Hkeyed Hfind emitted. subst emitted.
  rewrite (checkPlayers_since T C env w Hnodup).
  assert (Hown : playerOut T C env w i
                 = snd (fst (checkPlayer T C env (ap w) i pl))).
  { unfold playerOut. rewrite Hfind. reflexivity. }
  assert (Hi : In i (reg_ids (Players w))) by (apply (reg_find_ids _ _ _ Hfind)).
  (* every event that names [i] comes from the visit of [i] *)
  assert (Honly : forall e,
            (e = ShutdownSend i \/ e = IncreaseActionPoints player i (ap w)) ->
            In e (flat_map (playerOut T C env w) (reg_ids (Players w))) ->
            In e (snd (fst (checkPlayer T C env (ap w) i pl)))).
  { intros e He Hin. apply in_flat_map in Hin. destruct Hin as [k [Hk Hin]].
    unfold playerOut in Hin. destruct (reg_find k (Players w)) as [p |] eqn:Hp;
      [| contradiction].
    assert (Hki : k = i).
    { pose proof (Hkeyed k p Hp) as Hid. simpl in Hid. revert Hin. unfold checkPlayer.
      break_all; cbn [fst snd]; simpl; destruct He as [-> | ->]; intros Hin;
        repeat (destruct Hin as [Hin | Hin]; try discriminate);
        try contradiction; congruence. }
    subst k. rewrite Hp in Hfind. injection Hfind as <-. exact Hin. }
  split; [| split].
  - split.
    + intros Hin. apply (Honly _ (or_introl eq_refl)) in Hin.
      destruct (online pl) eqn:Hon.
      * split; [reflexivity |]. intros Hw.
        rewrite (checkPlayer_in_window T C env (ap w) i pl Hon Hw) in Hin.
        simpl in Hin. intuition discriminate.
      * revert Hin. unfold checkPlayer. rewrite Hon. simpl. intuition discriminate.
    + intros [Hon Hout]. apply in_flat_map. exists i. split; [exact Hi |].
      rewrite Hown, (checkPlayer_timed_out T C env (ap w) i pl Hon Hout).
      rewrite (Hkeyed i pl Hfind). simpl. auto.
  - split.
    + intros Hin. apply (Honly _ (or_intror eq_refl)) in Hin.
      destruct (online pl) eqn:Hon.
      * split; [reflexivity |]. destruct (inWindow_dec T env pl) as [Hw | Hout];
          [exact Hw |].
        rewrite (checkPlayer_timed_out T C env (ap w) i pl Hon Hout) in Hin.
        simpl in Hin. intuition discriminate.
      * revert Hin. unfold checkPlayer. rewrite Hon. simpl. intuition discriminate.
    + intros [Hon Hw]. apply in_flat_map. exists i. split; [exact Hi |].
      rewrite Hown, (checkPlayer_in_window T C env (ap w) i pl Hon Hw). now left.
  - intros Hon Hout. unfold checkPlayers.
    destruct (visitPlayers_pass T C env (reg_ids (Players w)) Hnodup w [])
      as (_ & Hlost & _ & Hin).
    destruct (fold_left (visitPlayer T C env) (reg_ids (Players w)) (w, [])) as [w1 lost].
    cbv zeta in *. cbn [fst snd app] in *.
    destruct (erasePlayers_registry lost w1) as [_ Hkeep]. cbv zeta in Hkeep.
    rewrite Hkeep.
    + rewrite (Hin i pl Hi Hfind).
      rewrite (checkPlayer_timed_out T C env (ap w) i pl Hon Hout). reflexivity.
    + rewrite Hlost, in_flat_map. intros [k [_ Hk]].
      apply (playerLost_offline w k i Hkeyed) in Hk.
      destruct Hk as [-> [p [Hp Hoff]]]. congruence.
Qed.

End PlayerRemoval.

(** A registry whose entries pass the test is keyed by identity. *)
Lemma keyedById_check {A : Type} `{CharacterKind A} (r : registry A) :
  forallb (fun e => fst e =? getId (base (snd e))) r = true -> keyedById r.
Proof.
  intros Hall k a. induction r as [| [j b] r IH]; simpl; [discriminate |].
  simpl in Hall. apply andb_true_iff in Hall. destruct Hall as [Hj Hall].
  destruct (Z.eqb_spec j k) as [-> | Hjk].
  - intros [= <-]. apply Z.eqb_eq in Hj. symmetry. exact Hj.
  - apply IH. exact Hall.
Qed.

Lemma Lobby_registered_once : NoDup (reg_ids (Players Lobby.world)).
Proof. vm_compute. repeat constructor; simpl; intuition discriminate. Qed.

Lemma Lobby_keyed : keyedById (Players Lobby.world).
Proof. apply keyedById_check. reflexivity. Qed.

Lemma checkPlayers_erases_witness :
  reg_has 12 (Players (checkPlayers Sample.tuning Sample.collaborators Fixture.env
                         Lobby.world)) = false /\
  reg_has 11 (Players (checkPlayers Sample.tuning Sample.collaborators Fixture.env
                         Lobby.world)) = true.
Proof.
  split.
  - exact (checkPlayers_erases_the_offline Sample.tuning Sample.collaborators Fixture.env
             Lobby.world 12 (Lobby.player_at 12 (mkPos 2 0 0) false 95)
             Lobby_registered_once Lobby_keyed eq_refl).
  - exact (checkPlayers_erases_the_offline Sample.tuning Sample.collaborators Fixture.env
             Lobby.world 11 (Lobby.player_at 11 (mkPos 1 0 0) true 10)
             Lobby_registered_once Lobby_keyed eq_refl).
Defined.

Lemma checkPlayers_logs_out_witness :
  In (ShutdownSend 11)
     (since Lobby.world
        (checkPlayers Sample.tuning Sample.collaborators Fixture.env Lobby.world)) /\
  In (IncreaseActionPoints player 10 2)
     (since Lobby.world
        (checkPlayers Sample.tuning Sample.collaborators Fixture.env Lobby.world)).
Proof.
  assert (Hsilent : ~ inWindow Sample.tuning Fixture.env
                      (Lobby.player_at 11 (mkPos 1 0 0) true 10)).
  { vm_compute. intros [_ H]. apply H. reflexivity. }
  assert (Hheard : inWindow Sample.tuning Fixture.env
                     (Lobby.player_at 10 Sample.origin true 90)).
  { vm_compute. split; discriminate. }
  destruct (checkPlayers_logs_out_the_silent Sample.tuning Sample.collaborators
              Fixture.env Lobby.world 11 (Lobby.player_at 11 (mkPos 1 0 0) true 10)
              Lobby_registered_once Lobby_keyed eq_refl) as [[_ H11] _].
  destruct (checkPlayers_logs_out_the_silent Sample.tuning Sample.collaborators
              Fixture.env Lobby.world 10 (Lobby.player_at 10 Sample.origin true 90)
              Lobby_registered_once Lobby_keyed eq_refl) as [_ [[_ H10] _]].
  split; [apply H11 | apply H10]; split; (reflexivity || assumption).
Defined.

(** ** The NPC pass, visit by visit *)

Section NpcPass.
Variable T : Tuning.
Variable C : Collaborators.

Lemma visitNPC_found (w : World) (i : Z) (n : NPC) :
  reg_find i (Npc w) = Some n ->
  visitNPC T C w i
    = emit (snd (checkOneNPC T C (ap w) i n))
        (set_Npc (reg_store i (fst (checkOneNPC T C (ap w) i n)) (Npc w)) w).
Proof.
  intros Hfind. unfold visitNPC. rewrite Hfind.
  destruct (checkOneNPC T C (ap w) i n) as [n' out]. reflexivity.
Qed.

Lemma visitNPCs_pass (ids : list Z) :
  NoDup ids ->
  forall w : World,
    let w' := fold_left (visitNPC T C) ids w in
    since w w' = flat_map (npcOut T C w) ids /\
    (forall k, ~ In k ids -> reg_find k (Npc w') = reg_find k (Npc w)) /\
    (forall k n, In k ids -> reg_find k (Npc w) = Some n ->
       reg_find k (Npc w') = Some (fst (checkOneNPC T C (ap w) k n))).
Proof.
  induction ids as [| j rest IH]; intros Hnodup w; cbn [fold_left flat_map].
  - cbv zeta. split; [apply since_app; now rewrite app_nil_r |].
    split; [reflexivity | intros k n []].
  - inversion Hnodup as [| j' rest' Hj Hrest]; subst. cbv zeta.
    rewrite (since_trans _ _ _ _ (visitNPC_advances T C w j)
               (visitNPCs_advance T C rest (visitNPC T C w j))).
    unfold npcOut at 1.
    destruct (reg_find j (Npc w)) as [nj |] eqn:Hfind.
    + rewrite (visitNPC_found w j nj Hfind) in *.
      set (r := checkOneNPC T C (ap w) j nj) in *.
      set (w1 := emit (snd r) (set_Npc (reg_store j (fst r) (Npc w)) w)) in *.
      destruct (IH Hrest w1) as (Hev & Hout & Hin). cbv zeta in *.
      assert (Hother : forall k, k <> j -> reg_find k (Npc w1) = reg_find k (Npc w)).
      { intros k Hk. subst w1. cbn [Npc emit set_Npc].
        apply reg_find_store_other. exact Hk. }
      split; [| split].
      * rewrite Hev. f_equal.
        -- apply since_app. reflexivity.
        -- apply flat_map_ext_in. intros k Hk. unfold npcOut.
           rewrite Hother by (intros ->; contradiction). reflexivity.
      * intros k Hk. rewrite Hout by (intros Hin'; apply Hk; now right).
        apply Hother. intros ->. apply Hk. now left.
      * intros k n [<- | Hk] Hn.
        -- rewrite Hout by exact Hj. subst w1. cbn [Npc emit set_Npc].
           rewrite reg_find_store_same, Hfind. subst r. congruence.
        -- assert (Hkj : k <> j) by (intros ->; contradiction).
           apply Hin; [exact Hk | rewrite Hother by exact Hkj; exact Hn].
    + assert (Hskip : visitNPC T C w j = w).
      { unfold visitNPC. rewrite Hfind. reflexivity. }
      rewrite Hskip in *.
      destruct (IH Hrest w) as (Hev & Hout & Hin). cbv zeta in *. cbn [app].
      split; [| split].
      * rewrite Hev. replace (since w w) with (@nil Event); [reflexivity |].
        symmetry. apply since_app. now rewrite app_nil_r.
      * intros k Hk. apply Hout. intros Hin'. apply Hk. now right.
      * intros k n [<- | Hk] Hn; [congruence | apply Hin; assumption].
Qed.

(** Every event that the visit of an NPC emits carries the identity it is
    registered under. *)
Lemma checkOneNPC_names_itself (b k : Z) (n : NPC) (e : Event) :
  In e (snd (checkOneNPC T C b k n)) ->
  e = IncreaseActionPoints npc k b \/ e = Hook "nextCycle" k \/
  e = Hook "abortRoute" k \/ e = SendSpin k.
Proof.
  unfold checkOneNPC. break_all; cbn [fst snd app In]; intuition.
Qed.

(** X3.  The NPC phase removes no NPC: the registry holds after it the
    identities that [deleteAllLostNPC] left.  An NPC that is dead when the
    phase begins is not granted any action points; it has its hit points
    raised by [MAXHPS] and a spin is sent for it. *)
Theorem checkNPC_revives_the_dead (w : World) :
  reg_ids (Npc (checkNPC T C w)) = reg_ids (deleteAllLostNPC C (Npc w)) /\
  (NoDup (reg_ids (deleteAllLostNPC C (Npc w))) ->
   forall i n,
     reg_find i (deleteAllLostNPC C (Npc w)) = Some n ->
     isAlive (base n) = false ->
     reg_find i (Npc (checkNPC T C w))
       = Some (increaseAttrib C "hitpoints" (MAXHPS T) n) /\
     In (SendSpin i) (since w (checkNPC T C w)) /\
     forall b, ~ In (IncreaseActionPoints npc i b) (since w (checkNPC T C w))).
Proof.
  unfold checkNPC. cbv zeta.
  set (w1 := set_Npc (deleteAllLostNPC C (Npc w)) w).
  change (deleteAllLostNPC C (Npc w)) with (Npc w1).
  split.
  - apply (fold_left_keeps (fun s => reg_ids (Npc s))). intros s k. unfold visitNPC.
    destruct (reg_find k (Npc s)) as [n |]; [| reflexivity].
    destruct (checkOneNPC T C (ap s) k n) as [n' out].
    cbn [Npc emit set_Npc]. apply reg_ids_store.
  - intros Hnodup i n Hfind Hdead.
    destruct (visitNPCs_pass (reg_ids (Npc w1)) Hnodup w1) as (Hev & _ & Hin).
    cbv zeta in *.
    assert (Hsince : since w (fold_left (visitNPC T C) (reg_ids (Npc w1)) w1)
                     = flat_map (npcOut T C w1) (reg_ids (Npc w1))).
    { rewrite <- Hev. unfold since. reflexivity. }
    assert (Hdoes : checkOneNPC T C (ap w1) i n
                    = (increaseAttrib C "hitpoints" (MAXHPS T) n, [SendSpin i])).
    { unfold checkOneNPC. rewrite Hdead. reflexivity. }
    assert (Hi : In i (reg_ids (Npc w1))) by (apply (reg_find_ids _ _ _ Hfind)).
    split; [| split].
    + rewrite (Hin i n Hi Hfind), Hdoes. reflexivity.
    + rewrite Hsince. apply in_flat_map. exists i. split; [exact Hi |].
      unfold npcOut. rewrite Hfind, Hdoes. now left.
    + intros b. rewrite Hsince, in_flat_map. intros [k [Hk Hev']].
      unfold npcOut in Hev'. destruct (reg_find k (Npc w1)) as [m |] eqn:Hm;
        [| contradiction].
      pose proof (checkOneNPC_names_itself _ _ _ _ Hev') as Hname.
      assert (Hki : k = i)
        by (destruct Hname as [H | [H | [H | H]]]; try discriminate; congruence).
      subst k. rewrite Hm in Hfind. injection Hfind as ->.
      rewrite Hdoes in Hev'. simpl in Hev'. intuition discriminate.
Qed.

End NpcPass.

Lemma checkNPC_revives_witness :
  reg_ids (Npc (checkNPC Sample.tuning Sample.collaborators Yard.world)) = [20; 21] /\
  In (SendSpin 21) (since Yard.world (checkNPC Sample.tuning Sample.collaborators Yard.world)).
Proof.
  destruct (checkNPC_revives_the_dead Sample.tuning Sample.collaborators Yard.world)
    as [Hids Hdead].
  split; [exact Hids |].
  assert (Hnodup : NoDup (reg_ids (deleteAllLostNPC Sample.collaborators (Npc Yard.world))))
    by (vm_compute; repeat constructor; simpl; intuition discriminate).
  destruct (Hdead Hnodup 21 Yard.fallen eq_refl eq_refl) as [_ [Hspin _]].
  exact Hspin.
Defined.

(** ** What the pass over the monsters collects *)

Section MonsterRemoval.
Variable T : Tuning.
Variable C : Collaborators.
Variable env : Env.

Lemma checkMonster_dead (w : World) (i : Z) (mon : Monster) :
  snd (checkMonster T C env w i mon) = negb (isAlive (base mon)) /\
  (isAlive (base mon) = false -> fst (fst (checkMonster T C env w i mon)) = mon).
Proof.
  unfold checkMonster. destruct (isAlive (base mon)).
  - split; [| discriminate]. break_all; reflexivity.
  - split; [reflexivity | intros _; reflexivity].
Qed.

(** A visit leaves the world that it leaves whatever the list of the dead
    holds, and appends to the list the monster it finds dead. *)
Lemma visitMonster_split (w : World) (dead : list Z) (k : Z) :
  visitMonster T C env (w, dead) k
  = (fst (visitMonster T C env (w, []) k), dead ++ monsterDead w k).
Proof.
  unfold visitMonster, monsterDead.
  destruct (reg_find k (Monsters w)) as [mon |]; [| cbn; now rewrite app_nil_r].
  destruct (checkMonster_dead w k mon) as [Hgone Hsame].
  destruct (checkMonster T C env w k mon) as [[mon' out] gone].
  cbn [fst snd] in *. subst gone. destruct (isAlive (base mon)); cbn [negb].
  - now rewrite app_nil_r.
  - rewrite (Hsame eq_refl). reflexivity.
Qed.

Lemma visitMonsters_found (ids : list Z) :
  forall (w : World) (dead : list Z),
    snd (fold_left (visitMonster T C env) ids (w, dead))
    = dead ++ foundDead T C env w ids.
Proof.
  induction ids as [| k rest IH]; intros w dead; cbn [fold_left foundDead].
  - cbn [snd]. now rewrite app_nil_r.
  - rewrite visitMonster_split, IH, <- app_assoc. reflexivity.
Qed.

Lemma killMonsters_registry (dead : list Z) :
  forall w i,
    In i (reg_ids (Monsters (fold_left killMonster dead w)))
    <-> In i (reg_ids (Monsters w)) /\ ~ In i dead.
Proof.
  induction dead as [| j dead IH]; intros w i; cbn [fold_left].
  - simpl. tauto.
  - rewrite IH. unfold killMonster. cbn [Monsters emit set_Monsters].
    rewrite reg_ids_erase_iff. simpl. intuition.
Qed.

(** X4.  With [killMonster] erasing from the registry the monster it is
    handed, the registry holds after the monster phase the identities that it
    held when the phase began, less those of the monsters that the pass found
    dead (each judged in the world that its visit found), and the identities
    of the monsters that waited in the buffer of new monsters at the join
    point: no turn of a monster adds to the registry or takes from it. *)
Theorem checkMonsters_buries_the_dead (w : World) (i : Z) :
  let w2 := lowerAP (spawnStage C env w) in
  In i (reg_ids (Monsters (checkMonsters T C env w))) <->
  (In i (reg_ids (Monsters w)) /\
   ~ In i (foundDead T C env w2 (reg_ids (Monsters w2))))
  \/ In i (map (fun m => getId (base m)) (newMonsters (spawnStage C env w))).
Proof.
  cbv zeta. unfold checkMonsters.
  destruct (spawnStage_world C env w) as (_ & _ & _ & _ & Hmon & _).
  set (w2 := lowerAP (spawnStage C env w)).
  assert (Hm2 : Monsters w2 = Monsters w).
  { subst w2. unfold lowerAP. destruct (ap (spawnStage C env w) >? 1); cbn; exact Hmon. }
  assert (Hn2 : newMonsters w2 = newMonsters (spawnStage C env w)).
  { subst w2. unfold lowerAP. destruct (ap (spawnStage C env w) >? 1); reflexivity. }
  unfold monsterPass.
  pose proof (visitMonsters_found (reg_ids (Monsters w2)) w2 []) as Hdead.
  destruct (visitMonsters_frame T C env (reg_ids (Monsters w2)) (w2, []))
    as (Hids3 & Hnew3 & _).
  destruct (fold_left (visitMonster T C env) (reg_ids (Monsters w2)) (w2, []))
    as [w3 dead].
  cbn [fst snd app buryDead] in *. subst dead.
  set (found := foundDead T C env w2 (reg_ids (Monsters w2))).
  destruct (commitNewMonsters_world C (fold_left killMonster found w3))
    as (_ & _ & _ & _ & Hjoin).
  destruct (killMonsters_frame found w3) as (_ & Hnew4 & _).
  rewrite Hjoin, killMonsters_registry, Hnew4, Hnew3, Hn2, Hids3, Hm2. reflexivity.
Qed.

End MonsterRemoval.

(** Of a live wolf and a carcass the wolf stays in the registry. *)
Example checkMonsters_buries_the_carcass :
  reg_ids (Monsters (checkMonsters Sample.tuning Sample.collaborators Fixture.env
                       Graveyard.world)) = [40; 1000].
Proof. vm_compute. reflexivity. Qed.

(** ** Wandering never leaves the spawn area *)

Lemma compass_range (dir : direction) :
  -1 <= eastward dir <= 1 /\ -1 <= northward dir <= 1.
Proof. destruct dir; simpl; lia. Qed.

(** X5.  Where a step moves a tile by the compass parts of its direction, a
    monster that stands within the radius of its spawn point on both axes, the
    radius being at least 1, is led by the direction of its random step to a
    tile that is again within the radius on both axes, on the same layer. *)
Theorem randomStep_stays_in_spawn_area (C : Collaborators) (env : Env) (w : World)
    (i : Z) (mon : Monster) (n : nat) (spawn : SpawnPoint) (south : Z) :
  south = 1 \/ south = -1 ->
  (forall d p,
     position_move C d p = mkPos (px p + eastward d) (py p - south * northward d) (pz p)) ->
  getSpawn mon = Some n ->
  nth_error (SpawnList w) n = Some spawn ->
  1 <= getRange spawn ->
  Z.abs (get_x spawn - px (getPosition (base mon))) <= getRange spawn ->
  Z.abs (get_y spawn - py (getPosition (base mon))) <= getRange spawn ->
  forall dir, In (MoveStep i dir) (snd (randomStep C env w i mon)) ->
  let landing := position_move C dir (getPosition (base mon)) in
  Z.abs (get_x spawn - px landing) <= getRange spawn /\
  Z.abs (get_y spawn - py landing) <= getRange spawn /\
  pz landing = pz (getPosition (base mon)).
Proof.
  intros Hsouth Hmove Hspawn Hnth Hrange Hx Hy dir Hin landing.
  assert (Hdir : dir = stayInSpawnArea C spawn mon (uniform_0_7 env i)).
  { unfold randomStep in Hin. rewrite Hspawn, Hnth in Hin.
    set (out := if negb _ then _ else _) in Hin.
    assert (Hout : ~ In (MoveStep i dir) out)
      by (subst out; destruct (negb _); simpl; intuition discriminate).
    destruct (_ && _ && _); cbn [snd] in Hin; [contradiction |].
    apply in_app_or in Hin. destruct Hin as [Hin | Hin]; [contradiction |].
    simpl in Hin. destruct Hin as [Heq | [Heq | []]]; [| discriminate].
    injection Heq as <-. reflexivity. }
  destruct (stayInSpawnArea_components C spawn mon (uniform_0_7 env i)) as [He Hn].
  rewrite <- Hdir in He, Hn. cbv zeta in He, Hn.
  rewrite Hmove in He, Hn. cbn [px py] in He, Hn.
  subst landing. rewrite Hmove. cbn [px py pz].
  destruct (compass_range (uniform_0_7 env i)) as [Hce Hcn].
  destruct (Z.gtb_spec
              (Z.abs (get_x spawn - (px (getPosition (base mon))
                                      + eastward (uniform_0_7 env i))))
              (getRange spawn));
    destruct (Z.gtb_spec
                (Z.abs (get_y spawn - (py (getPosition (base mon))
                                        - south * northward (uniform_0_7 env i))))
                (getRange spawn));
    destruct Hsouth; subst south; lia.
Qed.

Lemma randomStep_stays_witness :
  Z.abs (get_x Sample.den - px (Sample.step dir_west (mkPos 2 0 0))) <= 2 /\
  Z.abs (get_y Sample.den - py (Sample.step dir_west (mkPos 2 0 0))) <= 2.
Proof.
  assert (Hin : In (MoveStep 4 dir_west)
                  (snd (randomStep Sample.collaborators Fixture.env Fixture.rim 4
                          Fixture.rim_wolf)))
    by (vm_compute; left; reflexivity).
  assert (Hx : Z.abs (get_x Sample.den - px (getPosition (base Fixture.rim_wolf))) <= 2)
    by (vm_compute; discriminate).
  assert (Hy : Z.abs (get_y Sample.den - py (getPosition (base Fixture.rim_wolf))) <= 2)
    by (vm_compute; discriminate).
  assert (Hmove : forall d p,
            position_move Sample.collaborators d p
            = mkPos (px p + eastward d) (py p - 1 * northward d) (pz p)).
  { intros d p. cbn [position_move Sample.collaborators]. unfold Sample.step.
    f_equal. lia. }
  assert (Hrange : 1 <= getRange Sample.den) by (vm_compute; discriminate).
  destruct (randomStep_stays_in_spawn_area Sample.collaborators Fixture.env Fixture.rim 4
              Fixture.rim_wolf 0%nat Sample.den 1 (or_introl eq_refl) Hmove
              eq_refl eq_refl Hrange Hx Hy dir_west Hin) as [Hlx [Hly _]].
  split; [exact Hlx | exact Hly].
Defined.

(** ** Reloading the spawn points forgets the old ones *)

Section RespawnMore.
Variable C : Collaborators.

Lemma loadRows_frame (rows : list Database.row) :
  forall w, Monsters (fst (loadRows C rows w)) = Monsters w.
Proof.
  induction rows as [| r rest IH]; intros w; simpl; [reflexivity |].
  destruct (readRow r) as [[spawnId newSpawn] | what]; [| reflexivity].
  rewrite IH. reflexivity.
Qed.

(** X6.  Whatever the table yields, [initRespawns] keeps every monster in the
    registry under its identity and leaves each of them removed and without a
    spawn point: no monster points into the spawn list that was there before
    the call. *)
Theorem initRespawns_detaches_monsters (query : Database.outcome (list Database.row))
    (w : World) :
  Monsters (snd (initRespawns C query w))
    = map (fun e => (fst e, setSpawn None (Monster_remove C (snd e)))) (Monsters w) /\
  reg_ids (Monsters (snd (initRespawns C query w))) = reg_ids (Monsters w) /\
  forall k m, reg_find k (Monsters (snd (initRespawns C query w))) = Some m ->
              getSpawn m = None.
Proof.
  set (cleared := map (fun e => (fst e, setSpawn None (Monster_remove C (snd e))))
                    (Monsters w)).
  assert (Hreg : Monsters (snd (initRespawns C query w)) = cleared).
  { unfold initRespawns. cbv zeta. fold cleared.
    destruct query as [[| r0 rest] | what]; cbn [is_empty negb]; try reflexivity.
    match goal with |- context [loadRows C ?rows ?w1] =>
      pose proof (loadRows_frame rows w1) as Hframe;
      destruct (loadRows C rows w1) as [w2 [what |]] end;
      cbn [fst snd Monsters emit] in *; exact Hframe. }
  rewrite Hreg. clear Hreg. split; [reflexivity |]. split.
  - subst cleared. unfold reg_ids. rewrite map_map. reflexivity.
  - subst cleared. intros k m. induction (Monsters w) as [| [j b] r IH]; simpl;
      [discriminate |].
    destruct (j =? k); [intros [= <-]; reflexivity | exact IH].
Qed.

End RespawnMore.

(** ** Who a text broadcast reaches, and with what *)

Section TalkMore.
Variable T : Tuning.
Variable C : Collaborators.

Lemma tellPlayer_receivers (german english : string) (is_same is_action : bool)
    (prefix : string) (tt : talk_type) (cc : Character) (listeners : list Player) :
  forall st,
    map receiver
      (snd (fold_left (tellPlayer C german english is_same is_action prefix tt cc)
              listeners st))
    = map receiver (snd st)
        ++ map (fun p : Player => Some (player, getId (base p))) listeners.
Proof.
  induction listeners as [| p rest IH]; intros st; cbn [fold_left map].
  - now rewrite app_nil_r.
  - rewrite IH.
    destruct (tellPlayer_step C german english is_same is_action prefix tt cc st p)
      as [text Hstep].
    rewrite Hstep, map_app, <- app_assoc. reflexivity.
Qed.

(** The events a broadcast emits. *)
Lemma sendMessageToAllCharsInRange_since (german english : string) (is_same : bool)
    (tt : talk_type) (cc : Character) (w : World) :
  let range := getTalkRange T tt in
  let is_action := String.eqb (substring 0 3 german) "#me" in
  let tempMessage :=
    if negb is_action then
      match character_type_eqb (getType cc) player && is_same, playerChatScript C with
      | true, Some s => beforeSendText s cc tt german
      | _, _ => ""
      end
    else "" in
  let prefix := languagePrefix (getActiveLanguage cc) in
  since w (sendMessageToAllCharsInRange T C german english is_same tt cc w)
    = snd (fold_left (tellPlayer C german english is_same is_action prefix tt cc)
             (findAllCharactersInRangeOf (planar C) (Players w) (getPosition cc) range)
             (tempMessage, []))
      ++ (if character_type_eqb (getType cc) player then
            map (tellNpc C english prefix tt cc)
              (findAllCharactersInRangeOf (planar C) (Npc w) (getPosition cc) range)
            ++ map (tellMonster english tt cc)
                 (findAllCharactersInRangeOf (planar C) (Monsters w) (getPosition cc) range)
          else []).
Proof.
  cbv zeta. unfold sendMessageToAllCharsInRange. cbv zeta.
  destruct (fold_left _ _ _) as [last told]. cbn [snd].
  destruct (character_type_eqb (getType cc) player); apply since_app; cbn.
  - rewrite <- !app_assoc. reflexivity.
  - rewrite app_nil_r. reflexivity.
Qed.

(** X7.  A text broadcast delivers one copy to each player within the range
    of the talk type, in the order of the registry; when the speaker is a
    player it then delivers one copy to each NPC and after them one to each
    monster within that range; and it delivers nothing else. *)
Theorem sendMessageToAllCharsInRange_audience (german english : string)
    (is_same : bool) (tt : talk_type) (cc : Character) (w : World) :
  let range := getTalkRange T tt in
  let heard := since w (sendMessageToAllCharsInRange T C german english is_same tt cc w) in
  map receiver heard
    = map (fun p : Player => Some (player, getId (base p)))
        (findAllCharactersInRangeOf (planar C) (Players w) (getPosition cc) range)
      ++ (if character_type_eqb (getType cc) player then
            map (fun n : NPC => Some (npc, getId (base n)))
              (findAllCharactersInRangeOf (planar C) (Npc w) (getPosition cc) range)
            ++ map (fun m : Monster => Some (monster, getId (base m)))
                 (findAllCharactersInRangeOf (planar C) (Monsters w) (getPosition cc) range)
          else []).
Proof.
  intros range heard. subst heard.
  rewrite sendMessageToAllCharsInRange_since. cbv zeta. fold range.
  rewrite map_app, tellPlayer_receivers. cbn [snd map app]. f_equal.
  destruct (character_type_eqb (getType cc) player); [| reflexivity].
  rewrite map_app, !map_map. reflexivity.
Qed.

(** X8.  An emote (a text that begins with "#me") sent through the overload
    that takes one message reaches every player within range as the empty
    text: the message variable is never filled on that path.  The NPCs and
    the monsters of a speaking player still receive the message. *)
Theorem sendMessageToAllCharsInRange1_emote_is_blank (message : string)
    (tt : talk_type) (cc : Character) (w : World) :
  String.eqb (substring 0 3 message) "#me" = true ->
  let range := getTalkRange T tt in
  let heard := since w (sendMessageToAllCharsInRange1 T C message tt cc w) in
  (forall who i tt' text from,
     In (ReceiveText who i tt' text from) heard -> who = player -> text = "") /\
  (forall p,
     In p (findAllCharactersInRangeOf (planar C) (Players w) (getPosition cc) range) ->
     In (ReceiveText player (getId (base p)) tt "" (getId cc)) heard) /\
  (getType cc = player ->
   forall m,
     In m (findAllCharactersInRangeOf (planar C) (Monsters w) (getPosition cc) range) ->
     In (ReceiveText monster (getId (base m)) tt message (getId cc)) heard).
Proof.
  intros Haction range heard. subst heard. unfold sendMessageToAllCharsInRange1.
  rewrite sendMessageToAllCharsInRange_since. cbv zeta. fold range.
  rewrite Haction. cbn [negb].
  set (prefix := languagePrefix (getActiveLanguage cc)).
  assert (Hfold : forall listeners out,
            fold_left (tellPlayer C message message true true prefix tt cc) listeners
              ("", out)
            = ("", out ++ map (fun p : Player =>
                                 ReceiveText player (getId (base p)) tt "" (getId cc))
                              listeners)).
  { induction listeners as [| p rest IH]; intros out; cbn [fold_left map].
    - now rewrite app_nil_r.
    - unfold tellPlayer at 2. cbn [negb andb]. rewrite IH, <- app_assoc. reflexivity. }
  rewrite Hfold. cbn [snd app]. split; [| split].
  - intros who i tt' text from Hin Hwho. subst who.
    apply in_app_or in Hin. destruct Hin as [Hin | Hin].
    + apply in_map_iff in Hin. destruct Hin as [p [Heq _]]. congruence.
    + destruct (character_type_eqb (getType cc) player); [| contradiction].
      apply in_app_or in Hin. destruct Hin as [Hin | Hin];
        apply in_map_iff in Hin; destruct Hin as [x [Heq _]];
        unfold tellNpc, tellMonster in Heq; discriminate.
  - intros p Hp. apply in_or_app. left. apply in_map_iff. exists p. auto.
  - intros Hcc m Hm. rewrite Hcc. cbn [character_type_eqb].
    apply in_or_app. right. apply in_or_app. right.
    apply in_map_iff. exists m. auto.
Qed.

End TalkMore.

Lemma sendMessageToAllCharsInRange1_emote_witness :
  since Square.world
    (sendMessageToAllCharsInRange1 Sample.tuning Sample.collaborators "#me waves" tt_say
       (base Square.walker) Square.world)
  = [ ReceiveText player 10 tt_say "" 10;
      ReceiveText npc 20 tt_say "#me waves" 10;
      ReceiveText monster 30 tt_say "#me waves" 10;
      ReceiveText monster 31 tt_say "#me waves" 10 ] /\
  In (ReceiveText player 10 tt_say "" 10)
     (since Square.world
        (sendMessageToAllCharsInRange1 Sample.tuning Sample.collaborators "#me waves"
           tt_say (base Square.walker) Square.world)).
Proof.
  split; [vm_compute; reflexivity |].
  destruct (sendMessageToAllCharsInRange1_emote_is_blank Sample.tuning
              Sample.collaborators "#me waves" tt_say (base Square.walker) Square.world
              eq_refl) as [_ [Hplayers _]].
  apply (Hplayers Square.walker). vm_compute. left. reflexivity.
Defined.

(** ** The language tables *)

(** X9.  A language number has a prefix exactly when it is one of 1 to 7,
    and a skill name exactly when it is one of 0 to 7: every language with a
    prefix has a skill, the common language 0 has a skill and no prefix, and
    any other number has neither. *)
Theorem language_tables_bounds (l : Z) :
  (languagePrefix l <> "" <-> 1 <= l <= 7) /\
  (languageNumberToSkillName l <> "" <-> 0 <= l <= 7).
Proof.
  unfold languagePrefix, languageNumberToSkillName.
  repeat match goal with
         | |- context [?a =? ?b] => destruct (Z.eqb_spec a b); [subst |]
         end;
    (split; split; [intros _; lia | intros _; discriminate
                   | intros _; lia | intros _; discriminate])
    || (split; split; [intros H; try lia; exfalso; apply H; reflexivity
                      | intros; try lia; try discriminate
                      | intros H; try lia; exfalso; apply H; reflexivity
                      | intros; try lia; try discriminate]).
Qed.

(** ** A message in one language *)

Section LanguageTalk.
Variable T : Tuning.
Variable C : Collaborators.
Variable S : Speech.

Lemma receivers_of_chosen (lang : Z) (text : Player -> string) (tt : talk_type)
    (from : Z) (players : list Player) :
  map receiver
    (flat_map (fun p : Player =>
                 if getPlayerLanguage S p =? lang
                 then [ReceiveText player (getId (base p)) tt (text p) from]
                 else [])
              players)
  = map (fun p : Player => Some (player, getId (base p)))
      (filter (fun p => getPlayerLanguage S p =? lang) players).
Proof.
  induction players as [| p rest IH]; cbn [flat_map filter map]; [reflexivity |].
  rewrite map_app, IH. destruct (getPlayerLanguage S p =? lang); reflexivity.
Qed.

(** X10.  A message in one language reaches, of the players within the range
    of the talk type, exactly those who have chosen that language, one copy
    each; the NPCs and the monsters within the range hear a speaking player
    whatever the language is.  A speaker who is among the listeners hears
    the message as it was sent (after the prefix of the speaker's language,
    unless it is an emote), not garbled. *)
Theorem sendLanguageMessageToAllCharsInRange_audience (message : string)
    (tt : talk_type) (lang : Z) (cc : Character) (w : World) :
  let range := getTalkRange T tt in
  let players := findAllCharactersInRangeOf (planar C) (Players w) (getPosition cc) range in
  let heard := since w (sendLanguageMessageToAllCharsInRange T C S message tt lang cc w) in
  map receiver heard
    = map (fun p : Player => Some (player, getId (base p)))
        (filter (fun p => getPlayerLanguage S p =? lang) players)
      ++ (if character_type_eqb (getType cc) player then
            map (fun n : NPC => Some (npc, getId (base n)))
              (findAllCharactersInRangeOf (planar C) (Npc w) (getPosition cc) range)
            ++ map (fun m : Monster => Some (monster, getId (base m)))
                 (findAllCharactersInRangeOf (planar C) (Monsters w) (getPosition cc) range)
          else []) /\
  (forall p, In p players -> getPlayerLanguage S p = lang -> getId (base p) = getId cc ->
     In (ReceiveText player (getId cc) tt
           (if String.eqb (substring 0 3 message) "#me" then message
            else append (languagePrefix (getActiveLanguage cc)) message)
           (getId cc))
        heard).
Proof.
  intros range players heard. subst heard.
  unfold sendLanguageMessageToAllCharsInRange. cbv zeta. fold range. fold players.
  match goal with
  | |- context [since w (emit ?E w)] =>
      rewrite (since_app w (emit E w) E) by reflexivity
  end.
  split.
  - rewrite map_app. f_equal.
    + destruct (String.eqb (substring 0 3 message) "#me").
      * apply (receivers_of_chosen lang (fun _ => message)).
      * induction players as [| p rest IH]; cbn [flat_map filter map]; [reflexivity |].
        rewrite map_app, IH. destruct (getPlayerLanguage S p =? lang); [| reflexivity].
        destruct (negb (getId (base p) =? getId cc)); reflexivity.
    + destruct (character_type_eqb (getType cc) player); [| reflexivity].
      rewrite map_app, !map_map. reflexivity.
  - intros p Hp Hlang Hid. apply in_or_app. left.
    destruct (String.eqb (substring 0 3 message) "#me");
      apply in_flat_map; exists p; (split; [exact Hp |]);
      rewrite Hlang, Z.eqb_refl.
    + rewrite Hid. left. reflexivity.
    + rewrite Hid, Z.eqb_refl. cbn [negb]. left. reflexivity.
Qed.

End LanguageTalk.

(** ** The next change of the day *)

Lemma fits_long (x : Z) :
  - 2 ^ 63 <= x < 2 ^ 63 -> Mach.to_int Mach.t_long x = x.
Proof. intros Hx. apply to_int_fits. exact Hx. Qed.

Lemma nextIGDay_value (curr dst : Z) :
  950742000 <= curr < 2 ^ 62 ->
  let c := (if dst =? 0 then curr else curr + 3600) - 950742000 in
  nextIGDay curr dst = 28800 * (c / 28800 + 1).
Proof.
  intros Hcurr c. unfold nextIGDay.
  change (2 ^ 62) with 4611686018427387904 in Hcurr.
  assert (Hfirst : (if dst =? 0 then curr
                    else Mach.to_int Mach.t_long (curr + 3600))
                   = (if dst =? 0 then curr else curr + 3600)).
  { destruct (dst =? 0); [reflexivity |]. apply fits_long.
    change (2 ^ 63) with 9223372036854775808. lia. }
  rewrite Hfirst. fold c.
  assert (Hc : 0 <= c < 4611686018427387904) by (subst c; destruct (dst =? 0); lia).
  rewrite (fits_long c) by (change (2 ^ 63) with 9223372036854775808; lia).
  rewrite Z.rem_mod_nonneg by lia.
  pose proof (Z.mod_pos_bound c 28800 ltac:(lia)) as Hm.
  pose proof (Z.div_mod c 28800 ltac:(lia)) as Hd.
  rewrite (fits_long (c - c mod 28800))
    by (change (2 ^ 63) with 9223372036854775808; lia).
  rewrite fits_long by (change (2 ^ 63) with 9223372036854775808; lia).
  lia.
Qed.

(** X11.  From a time of the system not before the start of Illarion time
    (950742000), the seconds computed for the next change of the day are the
    first multiple of eight hours (28800 s) that lies after the present
    second of Illarion time, an hour being added under daylight saving; at a
    boundary they are the next boundary, not the present one. *)
Theorem nextIGDay_is_the_next_boundary (curr dst : Z) :
  950742000 <= curr < 2 ^ 62 ->
  let c := (if dst =? 0 then curr else curr + 3600) - 950742000 in
  (28800 | nextIGDay curr dst) /\
  c < nextIGDay curr dst <= c + 28800 /\
  ((28800 | c) -> nextIGDay curr dst = c + 28800).
Proof.
  intros Hcurr c. rewrite (nextIGDay_value curr dst Hcurr). fold c.
  change (2 ^ 62) with 4611686018427387904 in Hcurr.
  assert (Hc : 0 <= c) by (subst c; destruct (dst =? 0); lia).
  pose proof (Z.mod_pos_bound c 28800 ltac:(lia)) as Hm.
  pose proof (Z.div_mod c 28800 ltac:(lia)) as Hd.
  split; [| split].
  - exists (c / 28800 + 1). lia.
  - lia.
  - intros [k Hk]. rewrite Hk, Z.div_mul by lia. lia.
Qed.

Lemma nextIGDay_boundary_witness :
  nextIGDay 950742000 0 = 28800 /\ nextIGDay 950742001 1 = 28800 /\
  nextIGDay 950770799 0 = 28800 /\ nextIGDay 950770800 0 = 57600.
Proof.
  assert (Hc : 950742000 <= 950770800 < 2 ^ 62) by (vm_compute; split; [discriminate | reflexivity]).
  destruct (nextIGDay_is_the_next_boundary 950770800 0 Hc) as [_ [_ Hnext]].
  split; [reflexivity | split; [reflexivity | split; [reflexivity |]]].
  apply Hnext. exists 1. reflexivity.
Defined.

(** X12.  The seconds of the next change of the day are seconds of Illarion
    time: the start of Illarion time is not added back before they are read
    as a time of the system.  The instant handed to the scheduler therefore
    lies at least 950709600 seconds before the reading of the steady clock,
    never after it. *)
Theorem getNextIGDayTime_lies_in_the_past
    (ticks curr dst scheduler_ref realtime_ref : Z) :
  0 < ticks <= 1000000000 ->
  950742000 <= curr < 2 ^ 32 ->
  curr * ticks <= realtime_ref < 2 ^ 62 ->
  0 <= scheduler_ref < 2 ^ 62 ->
  getNextIGDayTime ticks curr dst scheduler_ref realtime_ref
    <= scheduler_ref - 950709600 * ticks.
Proof.
  intros Hticks Hcurr Hreal Hsched. unfold getNextIGDayTime.
  change (2 ^ 32) with 4294967296 in Hcurr.
  change (2 ^ 62) with 4611686018427387904 in Hreal, Hsched.
  assert (Hcurr' : 950742000 <= curr < 2 ^ 62)
    by (change (2 ^ 62) with 4611686018427387904; lia).
  destruct (nextIGDay_is_the_next_boundary curr dst Hcurr') as [_ [Hnext _]].
  cbv zeta in Hnext. set (r := nextIGDay curr dst) in *.
  assert (Hr : 0 < r <= curr - 950709600) by (destruct (dst =? 0); lia).
  assert (Hprod : 0 < r * ticks <= (curr - 950709600) * ticks) by nia.
  assert (Hbig : (curr - 950709600) * ticks < 4294967296 * 1000000000) by nia.
  rewrite (fits_long (r * ticks))
    by (change (2 ^ 63) with 9223372036854775808; lia).
  rewrite (fits_long (r * ticks - realtime_ref))
    by (change (2 ^ 63) with 9223372036854775808; lia).
  rewrite fits_long by (change (2 ^ 63) with 9223372036854775808; nia).
  nia.
Qed.

Lemma getNextIGDayTime_past_witness :
  getNextIGDayTime 1000000000 1700000000 0 5000000000 1700000000000000005
    <= 5000000000 - 950709600 * 1000000000.
Proof.
  apply getNextIGDayTime_lies_in_the_past;
    vm_compute; split; first [discriminate | reflexivity].
Defined.

(** ** Commands of a user *)

Lemma dot_star_end_append (a b : string) :
  dot_star_end (append a b) = dot_star_end a && dot_star_end b.
Proof.
  induction a as [| c a IH]; cbn [append dot_star_end]; [reflexivity |].
  rewrite IH, andb_assoc. reflexivity.
Qed.

Lemma name_and_rest_round_trip (name args : string) :
  name <> EmptyString -> spaceless name = true -> dot_star_end args = true ->
  name_and_rest (append name (String " " args)) = Some (name, args).
Proof.
  intros Hname Hspace Hargs. induction name as [| c name IH]; [congruence |].
  cbn [spaceless] in Hspace. apply andb_true_iff in Hspace. destruct Hspace as [Hc Hrest].
  apply negb_true_iff in Hc. cbn [append name_and_rest]. rewrite Hc.
  destruct name as [| d name].
  - cbn [append name_and_rest after_name]. cbn [Ascii.eqb]. rewrite Hargs.
    reflexivity.
  - rewrite IH by (congruence || assumption). reflexivity.
Qed.

Lemma name_and_rest_line_break (name args : string) :
  spaceless name = true -> dot_star_end args = false ->
  name_and_rest (append name (String " " args)) = None.
Proof.
  intros Hspace Hargs. induction name as [| c name IH].
  - reflexivity.
  - cbn [spaceless] in Hspace. apply andb_true_iff in Hspace.
    destruct Hspace as [Hc Hrest]. apply negb_true_iff in Hc.
    cbn [append name_and_rest]. rewrite Hc, (IH Hrest).
    assert (Hall : dot_star_end (append name (String " " args)) = false).
    { rewrite dot_star_end_append. cbn [dot_star_end]. rewrite Hargs.
      now rewrite !andb_false_r. }
    destruct name as [| d name].
    + cbn [append after_name] in *. rewrite Hargs, andb_false_r, Hall. reflexivity.
    + cbn [append after_name] in *. cbn [spaceless] in Hrest.
      apply andb_true_iff in Hrest. destruct Hrest as [Hd _].
      apply negb_true_iff in Hd. rewrite Hd, Hall. reflexivity.
Qed.

(** X13.  A command line made of an exclamation mark, a name that is not
    empty and holds no space, one space, and an argument string without a
    line break is taken apart into just that name and that argument string:
    the command registered under the name runs once, with the argument
    string, and the call answers true; with no command under the name
    nothing runs and the call answers false. *)
Theorem executeUserCommand_round_trip (user : Player) (name args : string)
    (commands : CommandMap) (w : World) :
  name <> EmptyString -> spaceless name = true -> dot_star_end args = true ->
  executeUserCommand user (String "!" (append name (String " " args))) commands w
  = match find_command name commands with
    | Some command => (true, command user args w)
    | None => (false, w)
    end.
Proof.
  intros Hname Hspace Hargs. unfold executeUserCommand, regex_match.
  cbn [Ascii.eqb]. cbv zeta.
  rewrite (name_and_rest_round_trip name args Hname Hspace Hargs). reflexivity.
Qed.

Lemma executeUserCommand_round_trip_witness :
  executeUserCommand Square.walker "!shout hello world"
    [("shout", fun _ args w => emit [Log info args] w)] Sample.empty
  = (true, emit [Log info "hello world"] Sample.empty).
Proof.
  apply (executeUserCommand_round_trip Square.walker "shout" "hello world"
           [("shout", fun _ args w => emit [Log info args] w)] Sample.empty);
    [discriminate | reflexivity | reflexivity].
Defined.

(** X14.  A call that answers false has run no command and left the world
    as it was.  An input that does not begin with an exclamation mark is no
    command, and neither is one whose argument string holds a line feed or a
    carriage return, although a command is registered under its name. *)
Theorem executeUserCommand_rejects (user : Player) (input : string)
    (commands : CommandMap) (w : World) :
  (fst (executeUserCommand user input commands w) = false ->
   snd (executeUserCommand user input commands w) = w) /\
  (forall c s, input = String c s -> c <> "!"%char ->
     executeUserCommand user input commands w = (false, w)) /\
  (forall name args, input = String "!" (append name (String " " args)) ->
     spaceless name = true -> dot_star_end args = false ->
     executeUserCommand user input commands w = (false, w)).
Proof.
  split; [| split].
  - unfold executeUserCommand. cbv zeta.
    destruct (regex_match input) as [[name args] |]; [| reflexivity].
    destruct (find_command name commands); [discriminate | reflexivity].
  - intros c s -> Hc. unfold executeUserCommand, regex_match.
    destruct (Ascii.eqb_spec c "!"%char); [contradiction | reflexivity].
  - intros name args -> Hspace Hargs. unfold executeUserCommand, regex_match.
    cbn [Ascii.eqb]. cbv zeta.
    rewrite (name_and_rest_line_break name args Hspace Hargs). reflexivity.
Qed.

(** ** A series of ticks *)

Section TickSeries.
Variable T : Tuning.
Variable C : Collaborators.

Lemma timeNow_range (env : Env) : 0 <= timeNow env < 2 ^ 64.
Proof. unfold timeNow, Mach.ulong, Mach.wrap. apply Z.mod_pos_bound. reflexivity. Qed.

Lemma elapsedUnits_range (start : Z) (env : Env) :
  0 < MIN_AP_UPDATE T -> 0 <= start -> elapsedUnits T start env < 2 ^ 64.
Proof.
  intros Hg Hstart. unfold elapsedUnits.
  pose proof (timeNow_range env) as Hnow.
  pose proof (Z.div_pos start (MIN_AP_UPDATE T) Hstart Hg) as Hs.
  pose proof (Z.mul_div_le (timeNow env) (MIN_AP_UPDATE T) Hg) as Hq.
  pose proof (Z.div_pos (timeNow env) (MIN_AP_UPDATE T) ltac:(lia) Hg) as Hq0.
  nia.
Qed.

Lemma available_elapsed (env : Env) (w : World) :
  0 < MIN_AP_UPDATE T -> 0 <= timeStart w ->
  0 <= usedAP w <= elapsedUnits T (timeStart w) env ->
  Mach.fits (ap_type T) (elapsedUnits T (timeStart w) env - usedAP w) ->
  available T env w = elapsedUnits T (timeStart w) env - usedAP w.
Proof.
  intros Hg Hstart Hused Hfits. unfold available. rewrite to_int_ulong.
  pose proof (elapsedUnits_range (timeStart w) env Hg Hstart) as Hrange.
  unfold elapsedUnits in *. unfold Mach.ulong at 1.
  rewrite wrap_small by lia. apply to_int_fits. exact Hfits.
Qed.

Lemma tick_catches_up (env : Env) (w : World) :
  0 < MIN_AP_UPDATE T -> 0 <= timeStart w ->
  0 <= usedAP w <= elapsedUnits T (timeStart w) env ->
  Mach.fits (ap_type T) (elapsedUnits T (timeStart w) env - usedAP w) ->
  usedAP (turntheworld T C env w) = elapsedUnits T (timeStart w) env.
Proof.
  intros Hg Hstart Hused Hfits.
  destruct (turntheworld_counters T C env w) as [_ Hu]. rewrite Hu.
  rewrite (available_elapsed env w Hg Hstart Hused Hfits).
  pose proof (elapsedUnits_range (timeStart w) env Hg Hstart) as Hrange.
  destruct (Z.ltb_spec 0 (elapsedUnits T (timeStart w) env - usedAP w)); [| lia].
  unfold Mach.ulong. rewrite wrap_small by lia. lia.
Qed.

Lemma ticks_catch_up (envs : list Env) :
  0 < MIN_AP_UPDATE T ->
  forall w : World,
    0 <= timeStart w -> 0 <= usedAP w ->
    paced T (timeStart w) (usedAP w) envs ->
    timeStart (ticks T C envs w) = timeStart w /\
    usedAP (ticks T C envs w)
      = fold_left (fun _ env => elapsedUnits T (timeStart w) env) envs (usedAP w).
Proof.
  intros Hg. induction envs as [| env rest IH]; intros w Hstart Hused Hpaced.
  - split; reflexivity.
  - cbn [paced] in Hpaced. destruct Hpaced as (Hle & Hfits & Hrest).
    unfold ticks in *. cbn [fold_left].
    pose proof (turntheworld_keeps_timeStart T C env w) as Hsame.
    pose proof (tick_catches_up env w Hg Hstart (conj Hused Hle) Hfits) as Hup.
    destruct (IH (turntheworld T C env w)) as [Ht Hu].
    + rewrite Hsame. exact Hstart.
    + rewrite Hup. lia.
    + rewrite Hsame, Hup. exact Hrest.
    + rewrite Ht, Hu, Hsame, Hup. split; reflexivity.
Qed.

(** X15.  Over a series of ticks whose clock does not run backwards and
    whose gaps are no wider than a budget can hold, the consumed counter
    after the last tick is the number of whole granularities between the
    start of the world and the clock of that tick: however the ticks are
    spaced, what they hand out adds up to the time that has passed, nothing
    being lost and nothing handed out twice. *)
Theorem ticks_hand_out_the_elapsed_time (envs : list Env) (env : Env) (w : World) :
  0 < MIN_AP_UPDATE T ->
  0 <= timeStart w -> 0 <= usedAP w ->
  paced T (timeStart w) (usedAP w) (envs ++ [env]) ->
  usedAP (ticks T C (envs ++ [env]) w) = elapsedUnits T (timeStart w) env.
Proof.
  intros Hg Hstart Hused Hpaced.
  destruct (ticks_catch_up (envs ++ [env]) Hg w Hstart Hused Hpaced) as [_ Hu].
  rewrite Hu, fold_left_app. reflexivity.
Qed.

End TickSeries.

Lemma ticks_hand_out_witness :
  usedAP (ticks Sample.tuning Sample.collaborators
            [Fixture.env;
             {| now := mkTimeb 5 230; tempkeepalive := 100; monstertimer_next := false;
                isSpawnEnabled := true; uniform_1_25 := fun _ => 25;
                uniform_0_7 := fun _ => dir_east |};
             {| now := mkTimeb 5 790; tempkeepalive := 101; monstertimer_next := false;
                isSpawnEnabled := true; uniform_1_25 := fun _ => 25;
                uniform_0_7 := fun _ => dir_east |}]
            Square.world)
  = 7.
Proof.
  apply (ticks_hand_out_the_elapsed_time Sample.tuning Sample.collaborators
           [Fixture.env;
            {| now := mkTimeb 5 230; tempkeepalive := 100; monstertimer_next := false;
               isSpawnEnabled := true; uniform_1_25 := fun _ => 25;
               uniform_0_7 := fun _ => dir_east |}]
           {| now := mkTimeb 5 790; tempkeepalive := 101; monstertimer_next := false;
              isSpawnEnabled := true; uniform_1_25 := fun _ => 25;
              uniform_0_7 := fun _ => dir_east |}
           Square.world).
  - reflexivity.
  - vm_compute. discriminate.
  - vm_compute. discriminate.
  - vm_compute. repeat split; discriminate || reflexivity || exact I.
Defined.

(** ** Who is handed to [killMonster] *)

Section MonsterKills.
Variable T : Tuning.
Variable C : Collaborators.
Variable env : Env.

Ltac quiet :=
  cbn [fst snd app]; repeat (apply Forall_cons || apply Forall_nil); reflexivity.

Lemma Forall_killed_nil (E : list Event) :
  Forall (fun e => killed e = []) E -> flat_map killed E = [].
Proof.
  induction 1 as [| e E He _ IH]; cbn [flat_map]; [reflexivity |].
  rewrite He, IH. reflexivity.
Qed.

Lemma attackInReach_kills_none (w : World) (i : Z) (found : bool) (ms : MonsterStruct)
    (mon : Monster) :
  Forall (fun e => killed e = []) (snd (fst (attackInReach T C w i found ms mon))).
Proof. unfold attackInReach. break_all; quiet. Qed.

Lemma lookAround_kills_none (w : World) (i : Z) (found : bool) (ms : MonsterStruct)
    (mon : Monster) :
  Forall (fun e => killed e = []) (snd (fst (lookAround T C w i found ms mon))).
Proof. unfold lookAround. break_all; quiet. Qed.

Lemma randomStep_kills_none (w : World) (i : Z) (mon : Monster) :
  Forall (fun e => killed e = []) (snd (randomStep C env w i mon)).
Proof.
  unfold randomStep. break_all; cbn [fst snd]; try (apply Forall_app; split); quiet.
Qed.

Lemma followRoute_kills_none (w : World) (i : Z) (found : bool) (ms : MonsterStruct)
    (mon : Monster) :
  Forall (fun e => killed e = []) (snd (followRoute T C w i found ms mon)).
Proof.
  unfold followRoute. break_all; cbn [fst snd];
    repeat (apply Forall_app; split); quiet.
Qed.

Lemma checkMonster_kills_none (w : World) (i : Z) (mon : Monster) :
  Forall (fun e => killed e = []) (snd (fst (checkMonster T C env w i mon))).
Proof.
  unfold checkMonster. destruct (isAlive (base mon)); [| quiet]. cbv zeta.
  set (mon1 := checkEffects _ _).
  set (found := match monsterDescriptions C (getMonsterType mon1) with
                | Some _ => true | None => false end).
  set (ms := match monsterDescriptions C (getMonsterType mon1) with
             | Some d => d | None => no_MonsterStruct end).
  destruct (canAct (of_monster C) mon1); [| quiet].
  destruct (negb (getOnRoute mon1)).
  - set (mon2 := if position_eqb _ _ then _ else _).
    pose proof (attackInReach_kills_none w i found ms mon2) as H1.
    destruct (attackInReach T C w i found ms mon2) as [[mon3 out1] [attacked |]];
      cbn [fst snd] in H1 |- *.
    + destruct (negb attacked).
      * pose proof (lookAround_kills_none w i found ms mon3) as H2.
        destruct (lookAround T C w i found ms mon3) as [[mon4 out2] [wander |]];
          cbn [fst snd] in H2 |- *.
        -- destruct wander.
           ++ pose proof (randomStep_kills_none w i mon4) as H3.
              destruct (randomStep C env w i mon4) as [mon5 out3].
              cbn [fst snd] in H3 |- *.
              repeat (apply Forall_app; split); try assumption; quiet.
           ++ cbn [fst snd]. repeat (apply Forall_app; split); try assumption; quiet.
        -- repeat (apply Forall_app; split); try assumption; quiet.
      * cbn [fst snd]. repeat (apply Forall_app; split); try assumption; quiet.
    + repeat (apply Forall_app; split); try assumption; quiet.
  - pose proof (followRoute_kills_none w i found ms mon1) as H1.
    destruct (followRoute T C w i found ms mon1) as [mon2 out1].
    cbn [fst snd] in H1 |- *.
    repeat (apply Forall_app; split); try assumption; quiet.
Qed.

Lemma visitMonsters_kill_none (ids : list Z) (st : World * list Z) :
  flat_map killed (events (fst (fold_left (visitMonster T C env) ids st)))
  = flat_map killed (events (fst st)).
Proof.
  apply (fold_left_keeps (fun st : World * list Z => flat_map killed (events (fst st)))).
  intros [w dead] i. unfold visitMonster.
  destruct (reg_find i (Monsters w)) as [mon |]; [| reflexivity].
  pose proof (checkMonster_kills_none w i mon) as Hout.
  destruct (checkMonster T C env w i mon) as [[mon' out] gone].
  cbn [fst snd events emit set_Monsters] in *.
  rewrite flat_map_app, (Forall_killed_nil out Hout), app_nil_r. reflexivity.
Qed.

Lemma killMonsters_kill (dead : list Z) :
  forall w, flat_map killed (events (fold_left killMonster dead w))
            = flat_map killed (events w) ++ dead.
Proof.
  induction dead as [| j dead IH]; intros w; cbn [fold_left].
  - now rewrite app_nil_r.
  - rewrite IH. unfold killMonster. cbn [events emit set_Monsters].
    rewrite flat_map_app, <- app_assoc. reflexivity.
Qed.

Lemma commitNewMonsters_kills_none (w : World) :
  flat_map killed (events (commitNewMonsters C w)) = flat_map killed (events w).
Proof.
  unfold commitNewMonsters. cbv zeta. cbn [events set_newMonsters].
  apply (fold_left_keeps (fun w : World => flat_map killed (events w))).
  intros s mon. unfold commitOne. break_all; cbn [events emit set_Monsters];
    rewrite ?flat_map_app; cbn [flat_map killed app]; rewrite ?app_nil_r; reflexivity.
Qed.

Lemma killMonsters_events (dead : list Z) :
  forall w, events (fold_left killMonster dead w) = events w ++ map KillMonster dead.
Proof.
  induction dead as [| j dead IH]; intros w; cbn [fold_left map].
  - now rewrite app_nil_r.
  - rewrite IH. unfold killMonster. cbn [events emit set_Monsters].
    rewrite <- app_assoc. reflexivity.
Qed.

(** X16.  The monster phase hands to [killMonster] the monsters that its
    pass over the registry found dead, each of them judged in the world that
    its visit found, once each and in the order of the visits; it does so
    after the whole pass, and no other step of the phase calls
    [killMonster]. *)
Theorem checkMonsters_kills_exactly_the_dead (w : World) :
  let w2 := lowerAP (spawnStage C env w) in
  flat_map killed (since w (checkMonsters T C env w))
  = foundDead T C env w2 (reg_ids (Monsters w2)) /\
  exists before after,
    since w (checkMonsters T C env w)
    = before ++ map KillMonster (foundDead T C env w2 (reg_ids (Monsters w2))) ++ after /\
    since w (fst (monsterPass T C env w2)) = before /\
    flat_map killed before = [] /\ flat_map killed after = [].
Proof.
  cbv zeta. unfold checkMonsters.
  destruct (spawnStage_world C env w)
    as (_ & _ & _ & _ & _ & _ & (E1 & He1 & HE1) & _).
  set (w2 := lowerAP (spawnStage C env w)).
  assert (He2 : events w2 = events w ++ E1).
  { subst w2. unfold lowerAP. destruct (ap (spawnStage C env w) >? 1); cbn; exact He1. }
  assert (Hquiet : flat_map killed E1 = []).
  { apply Forall_killed_nil. eapply Forall_impl; [| exact HE1].
    intros e [lvl [msg ->]]. reflexivity. }
  unfold monsterPass.
  pose proof (visitMonsters_found T C env (reg_ids (Monsters w2)) w2 []) as Hdead.
  pose proof (visitMonsters_kill_none (reg_ids (Monsters w2)) (w2, [])) as Hpass.
  destruct (visitMonsters_advance T C env (reg_ids (Monsters w2)) (w2, []))
    as (_ & _ & _ & E3 & He3 & _).
  destruct (fold_left (visitMonster T C env) (reg_ids (Monsters w2)) (w2, []))
    as [w3 dead].
  cbn [fst snd app buryDead] in *. subst dead.
  set (found := foundDead T C env w2 (reg_ids (Monsters w2))) in *.
  pose proof (commitNewMonsters_kills_none (fold_left killMonster found w3)) as Hjoin.
  destruct (commitNewMonsters_world C (fold_left killMonster found w3))
    as ((_ & _ & _ & E5 & He5 & _) & _).
  assert (Hevents5 : events (fold_left killMonster found w3)
                     = events w ++ (E1 ++ E3) ++ map KillMonster found).
  { rewrite killMonsters_events, He3, He2, <- !app_assoc. reflexivity. }
  assert (Hquiet3 : flat_map killed (E1 ++ E3) = []).
  { rewrite flat_map_app, Hquiet. cbn [app].
    rewrite He3, flat_map_app in Hpass.
    apply (app_inv_head (flat_map killed (events w2))). rewrite app_nil_r. exact Hpass. }
  assert (Hquiet5 : flat_map killed E5 = []).
  { rewrite He5, flat_map_app in Hjoin.
    apply (app_inv_head (flat_map killed (events (fold_left killMonster found w3)))).
    rewrite app_nil_r. exact Hjoin. }
  assert (Hsince : since w (commitNewMonsters C (fold_left killMonster found w3))
                   = (E1 ++ E3) ++ map KillMonster found ++ E5).
  { apply since_app. rewrite He5, Hevents5, <- !app_assoc. reflexivity. }
  assert (Hkilled : forall l, flat_map killed (map KillMonster l) = l).
  { induction l as [| i l IHl]; cbn [map flat_map killed app]; [reflexivity |].
    rewrite IHl. reflexivity. }
  split.
  - rewrite Hsince, flat_map_app, Hquiet3, flat_map_app, Hkilled, Hquiet5, app_nil_r.
    reflexivity.
  - exists (E1 ++ E3), E5. split; [exact Hsince |]. split; [| split].
    + apply since_app. rewrite He3, He2, <- app_assoc. reflexivity.
    + exact Hquiet3.
    + exact Hquiet5.
Qed.

Ltac turns :=
  cbn [fst snd app]; repeat (apply Forall_cons || apply Forall_nil);
  cbn [turnOf]; auto.

Lemma attackInReach_turnOf (w : World) (i : Z) (found : bool) (ms : MonsterStruct)
    (mon : Monster) :
  Forall (turnOf i) (snd (fst (attackInReach T C w i found ms mon))).
Proof. unfold attackInReach. break_all; turns. Qed.

Lemma lookAround_turnOf (w : World) (i : Z) (found : bool) (ms : MonsterStruct)
    (mon : Monster) :
  Forall (turnOf i) (snd (fst (lookAround T C w i found ms mon))).
Proof. unfold lookAround. break_all; turns. Qed.

Lemma randomStep_turnOf (w : World) (i : Z) (mon : Monster) :
  Forall (turnOf i) (snd (randomStep C env w i mon)).
Proof.
  unfold randomStep. break_all; cbn [fst snd]; try (apply Forall_app; split); turns.
Qed.

Lemma followRoute_turnOf (w : World) (i : Z) (found : bool) (ms : MonsterStruct)
    (mon : Monster) :
  Forall (turnOf i) (snd (followRoute T C w i found ms mon)).
Proof.
  unfold followRoute. break_all; cbn [fst snd];
    repeat (apply Forall_app; split); turns.
Qed.

Lemma checkMonster_turnOf (w : World) (i : Z) (mon : Monster) :
  Forall (turnOf i) (snd (fst (checkMonster T C env w i mon))).
Proof.
  unfold checkMonster. destruct (isAlive (base mon)); [| turns]. cbv zeta.
  set (mon1 := checkEffects _ _).
  set (found := match monsterDescriptions C (getMonsterType mon1) with
                | Some _ => true | None => false end).
  set (ms := match monsterDescriptions C (getMonsterType mon1) with
             | Some d => d | None => no_MonsterStruct end).
  destruct (canAct (of_monster C) mon1); [| turns].
  destruct (negb (getOnRoute mon1)).
  - set (mon2 := if position_eqb _ _ then _ else _).
    pose proof (attackInReach_turnOf w i found ms mon2) as H1.
    destruct (attackInReach T C w i found ms mon2) as [[mon3 out1] [attacked |]];
      cbn [fst snd] in H1 |- *.
    + destruct (negb attacked).
      * pose proof (lookAround_turnOf w i found ms mon3) as H2.
        destruct (lookAround T C w i found ms mon3) as [[mon4 out2] [wander |]];
          cbn [fst snd] in H2 |- *.
        -- destruct wander.
           ++ pose proof (randomStep_turnOf w i mon4) as H3.
              destruct (randomStep C env w i mon4) as [mon5 out3].
              cbn [fst snd] in H3 |- *.
              repeat (apply Forall_app; split); try assumption; turns.
           ++ cbn [fst snd]. repeat (apply Forall_app; split); try assumption; turns.
        -- repeat (apply Forall_app; split); try assumption; turns.
      * cbn [fst snd]. repeat (apply Forall_app; split); try assumption; turns.
    + repeat (apply Forall_app; split); try assumption; turns.
  - pose proof (followRoute_turnOf w i found ms mon1) as H1.
    destruct (followRoute T C w i found ms mon1) as [mon2 out1].
    cbn [fst snd] in H1 |- *.
    repeat (apply Forall_app; split); try assumption; turns.
Qed.

Lemma visitMonsters_turns (ids : list Z) :
  forall st : World * list Z,
  exists E,
    events (fst (fold_left (visitMonster T C env) ids st)) = events (fst st) ++ E /\
    Forall (fun e => exists i, In i ids /\ turnOf i e) E.
Proof.
  induction ids as [| j rest IH]; intros st; cbn [fold_left].
  - exists []. rewrite app_nil_r. auto.
  - destruct (IH (visitMonster T C env st j)) as (E & HE & Hall).
    assert (Hstep : exists E0, events (fst (visitMonster T C env st j))
                               = events (fst st) ++ E0 /\ Forall (turnOf j) E0).
    { destruct st as [w dead]. unfold visitMonster.
      destruct (reg_find j (Monsters w)) as [mon |].
      - pose proof (checkMonster_turnOf w j mon) as Hout.
        destruct (checkMonster T C env w j mon) as [[mon' out] gone].
        cbn [fst snd events emit set_Monsters] in *. exists out. auto.
      - exists []. cbn [fst]. rewrite app_nil_r. auto. }
    destruct Hstep as (E0 & HE0 & Hall0).
    exists (E0 ++ E). split; [rewrite HE, HE0, app_assoc; reflexivity |].
    apply Forall_app. split.
    + eapply Forall_impl; [| exact Hall0]. intros e He. exists j. split; [left |]; auto.
    + eapply Forall_impl; [| exact Hall]. intros e [i [Hi He]].
      exists i. split; [right |]; auto.
Qed.

Lemma commitNewMonsters_events (w : World) :
  exists E, events (commitNewMonsters C w) = events w ++ E /\ Forall afterPass E.
Proof.
  unfold commitNewMonsters. cbv zeta. cbn [events set_newMonsters].
  generalize (newMonsters w). intros buffer. revert w.
  induction buffer as [| mon rest IH]; intros w; cbn [fold_left].
  - exists []. rewrite app_nil_r. auto.
  - destruct (IH (commitOne C w mon)) as (E & HE & Hall).
    assert (Hstep : exists E0, events (commitOne C w mon) = events w ++ E0 /\
                               Forall afterPass E0).
    { unfold commitOne. break_all; cbn [events emit set_Monsters]; rewrite <- ?app_assoc;
        eexists; (split; [reflexivity |]);
        cbn [app]; repeat (apply Forall_cons || apply Forall_nil); cbn [afterPass]; auto. }
    destruct Hstep as (E0 & HE0 & Hall0).
    exists (E0 ++ E). split; [rewrite HE, HE0, app_assoc; reflexivity |].
    apply Forall_app. split; assumption.
Qed.

(** X17.  Every event of the monster phase belongs to the turn of a monster
    that was registered when the phase began, or to the removal of the dead
    and the announcement of the new monsters that follow the pass, or is a
    line of the log.  A monster that enters the registry in this phase is
    therefore given no points, makes no step and no attack, and has no
    script but [onSpawn] called before the next phase. *)
Theorem checkMonsters_newcomers_wait (w : World) (e : Event) :
  In e (since w (checkMonsters T C env w)) ->
  (exists i, In i (reg_ids (Monsters w)) /\ turnOf i e) \/ afterPass e \/
  (exists lvl msg, e = Log lvl msg).
Proof.
  intros Hin.
  assert (Hshape : exists E,
            events (checkMonsters T C env w) = events w ++ E /\
            Forall (fun e => (exists i, In i (reg_ids (Monsters w)) /\ turnOf i e)
                             \/ afterPass e \/ (exists lvl msg, e = Log lvl msg)) E).
  { unfold checkMonsters.
    destruct (spawnStage_world C env w)
      as (_ & _ & _ & _ & Hmon & _ & (E1 & He1 & HE1) & _).
    set (w2 := lowerAP (spawnStage C env w)).
    assert (Hm2 : Monsters w2 = Monsters w).
    { subst w2. unfold lowerAP. destruct (ap (spawnStage C env w) >? 1); cbn; exact Hmon. }
    assert (He2 : events w2 = events w ++ E1).
    { subst w2. unfold lowerAP. destruct (ap (spawnStage C env w) >? 1); cbn; exact He1. }
    unfold monsterPass.
    destruct (visitMonsters_turns (reg_ids (Monsters w2)) (w2, [])) as (E3 & He3 & HE3).
    destruct (fold_left (visitMonster T C env) (reg_ids (Monsters w2)) (w2, []))
      as [w3 dead].
    cbn [fst buryDead] in *.
    destruct (commitNewMonsters_events (fold_left killMonster dead w3))
      as (E5 & He5 & HE5).
    rewrite killMonsters_events, He3, He2 in He5.
    exists (E1 ++ E3 ++ map KillMonster dead ++ E5).
    split; [rewrite He5, <- !app_assoc; reflexivity |].
    repeat (apply Forall_app; split).
    - eapply Forall_impl; [| exact HE1]. intros x Hx. right. right. exact Hx.
    - eapply Forall_impl; [| exact HE3]. intros x [i [Hi Hx]].
      left. exists i. rewrite <- Hm2. auto.
    - apply Forall_forall. intros x Hx. apply in_map_iff in Hx.
      destruct Hx as [j [<- _]]. right. left. exact I.
    - eapply Forall_impl; [| exact HE5]. intros x Hx. right. left. exact Hx. }
  destruct Hshape as (E & HE & Hall).
  rewrite (since_app _ _ _ HE) in Hin.
  exact (proj1 (Forall_forall _ E) Hall e Hin).
Qed.

(** X18.  A live monster that can act and is on a route does nothing in its
    turn but advance along the route: it neither attacks nor wanders, even
    with a target in reach, it pays no wander penalty, and it is not put on
    the list of the dead.  It leaves the route when the move along it
    fails. *)
Theorem checkMonster_on_route_only_walks (w : World) (i : Z) (mon : Monster) :
  let mon1 :=
    checkEffects (of_monster C)
      (increaseFightPoints (of_monster C) (ap w)
         (increaseActionPoints (of_monster C) (ap w) mon)) in
  isAlive (base mon) = true ->
  canAct (of_monster C) mon1 = true ->
  getOnRoute mon1 = true ->
  let turn := checkMonster T C env w i mon in
  fst (fst turn)
    = (if fst (makeMove (of_monster C) mon1) then snd (makeMove (of_monster C) mon1)
       else set_onRoute false (snd (makeMove (of_monster C) mon1))) /\
  snd turn = false /\
  (forall e, In e (snd (fst turn)) ->
     (forall k, e <> CharacterAttacks k) /\
     (forall k d, e <> MoveStep k d) /\
     (forall who k n, e = IncreaseActionPoints who k n -> n = ap w)).
Proof.
  intros mon1 Halive Hact Hroute turn. subst turn.
  unfold checkMonster. rewrite Halive. cbv zeta. fold mon1.
  rewrite Hact, Hroute. cbn [negb]. unfold followRoute.
  destruct (makeMove (of_monster C) mon1) as [moved mon2]. cbn [fst snd].
  split; [| split].
  - destruct moved; reflexivity.
  - destruct moved; reflexivity.
  - intros e Hin.
    assert (Hkind : e = IncreaseActionPoints monster i (ap w) \/
                    e = IncreaseFightPoints monster i (ap w) \/
                    (exists name, e = Hook name i) \/
                    (exists lvl msg, e = Log lvl msg)).
    { revert Hin. break_all; cbn [fst snd app In];
        intros Hin; repeat (destruct Hin as [Hin | Hin]);
        try contradiction; subst e; eauto 6. }
    destruct Hkind as [-> | [-> | [[name ->] | [lvl [msg ->]]]]];
      (split; [intros k; discriminate | split; [intros k d; discriminate |]]);
      intros who k n Heq; try discriminate.
    injection Heq as _ _ Hn. symmetry. exact Hn.
Qed.

End MonsterKills.

(** Of a live wolf and a carcass the phase hands the carcass to
    [killMonster]. *)
Example checkMonsters_kills_the_carcass :
  flat_map killed
    (since Graveyard.world
       (checkMonsters Sample.tuning Sample.collaborators Fixture.env Graveyard.world))
  = [41] /\
  foundDead Sample.tuning Sample.collaborators Fixture.env Graveyard.world [40; 41] = [41].
Proof. split; vm_compute; reflexivity. Qed.

Lemma checkMonster_on_route_witness :
  snd (fst (checkMonster Sample.tuning Sample.collaborators Fixture.env Square.world 30
              (set_onRoute true Square.howler)))
  = [IncreaseActionPoints monster 30 (ap Square.world);
     IncreaseFightPoints monster 30 (ap Square.world);
     Log error "cant find a monster id for checking the script!"] /\
  snd (checkMonster Sample.tuning Sample.collaborators Fixture.env Square.world 30
         (set_onRoute true Square.howler)) = false.
Proof.
  split; [vm_compute; reflexivity |].
  apply (checkMonster_on_route_only_walks Sample.tuning Sample.collaborators Fixture.env
           Square.world 30 (set_onRoute true Square.howler)); reflexivity.
Defined.

Lemma checkMonsters_newcomers_witness :
  reg_has 1000 (Monsters (checkMonsters Sample.tuning Sample.collaborators Fixture.env
                            Fixture.rim)) = true /\
  ((exists i, In i (reg_ids (Monsters Fixture.rim)) /\
              turnOf i (SendCharacterMove 1000)) \/
   afterPass (SendCharacterMove 1000) \/
   (exists lvl msg, SendCharacterMove 1000 = Log lvl msg)).
Proof.
  split; [vm_compute; reflexivity |].
  apply (checkMonsters_newcomers_wait Sample.tuning Sample.collaborators Fixture.env
           Fixture.rim (SendCharacterMove 1000)).
  vm_compute. auto 10.
Defined.
